(** * Arhivach thread archiver: a shallow embedding of its core and the
      properties of its specification

    The first part of the file holds the definitions, module by module:
    - [Uni], [Py], [OsPath]: the tables of the interpreter, the Python
      built-ins and the [os.path] functions the code calls on [str] and
      [int] values;
    - [Config]: the settings of [config.py];
    - [Ext], [Dom], [Pil]: what the code sees of the libraries it calls
      (urllib, hashlib, BeautifulSoup, Pillow);
    - [Parser]: [parser.py] (folder names, tag listing pages, the anchor
      pass and the image pass of [parse_thread]);
    - [Main]: [sanitize_folder_name] of [main.py];
    - [Downloader]: [downloader.py] (existence check, image transcoder,
      retrying fetch, batch engine) and the event loop that runs its
      coroutines.
    The second part holds the properties.

    Conventions.  A Python [str] is a [string] that holds the UTF-8 bytes of
    its text: a character is a byte together with the continuation bytes
    that follow it, [len] and the slices with a literal bound count
    characters, and which characters are digits is read from the tables of
    the interpreter.  Searching for an ASCII text, splitting at an ASCII
    character and stripping ASCII characters are the same on the bytes as on
    the characters.  A Python [int] is a [Z]; a [ValueError] that the code
    does not catch is the result [None].  The limits the interpreter puts on
    resources (memory, the depth of recursion, the length of the number
    strings it converts) are outside the model.  A [bytes] value is a
    [list Byte.byte].  The global mutable module [config] is an explicit
    record passed to the functions that read it.  Output with [print] is
    left out. *)

From Stdlib Require Import ZArith Lia Ascii String DecimalString.
From stdpp Require Import base decidable option list gmap strings sorting.

Set Default Proof Using "Type".

(** ** The tables of the interpreter

  Which characters are decimal digits, and with which value (the class [\d]
  of a regular expression and the digits [int] reads), and which are digits
  for [str.isdigit] (the decimal digits and others, such as the superscript
  two) is a matter of the Unicode database of the interpreter.  The tables
  are asked about characters outside ASCII only. *)

Module Uni.

Record t := {
  decimal : string → option nat;
  isdigit : string → bool
}.

End Uni.

(** ** Python built-ins *)

Module Py.

(** An ASCII digit. *)
Definition is_digit (c : ascii) : bool :=
  match Ascii.is_nat c with Some _ => true | None => false end.

(** One byte of [str.lower()]: the ASCII letters are lowered, the bytes of
    the other characters are left as they are. *)
Definition lower_char (c : ascii) : ascii :=
  let n := nat_of_ascii c in
  if (65 <=? n)%nat && (n <=? 90)%nat then ascii_of_nat (n + 32) else c.

(** [s.lower()] *)
Fixpoint lower (s : string) : string :=
  match s with
  | EmptyString => EmptyString
  | String c s' => String (lower_char c) (lower s')
  end.

(** [s.startswith(p)] *)
Definition startswith (s p : string) : bool := String.prefix p s.

(** [sub in s] *)
Fixpoint contains (sub s : string) : bool :=
  String.prefix sub s ||
  match s with
  | EmptyString => false
  | String _ s' => contains sub s'
  end.

(** [s.endswith(suf)]: some tail of [s] is [suf]. *)
Fixpoint endswith (s suf : string) : bool :=
  String.eqb s suf ||
  match s with
  | EmptyString => false
  | String _ s' => endswith s' suf
  end.

(** [s[:n]] for an index [n >= 0] counted in bytes, as [OsPath.rfind]
    gives it. *)
Definition take (n : nat) (s : string) : string := String.substring 0 n s.

(** [s[n:]] for an index [n >= 0] counted in bytes. *)
Fixpoint drop (n : nat) (s : string) : string :=
  match n, s with
  | O, _ => s
  | S _, EmptyString => EmptyString
  | S n', String _ s' => drop n' s'
  end.

(** [c in chars] for a character [c] *)
Fixpoint char_in (c : ascii) (chars : string) : bool :=
  match chars with
  | EmptyString => false
  | String d chars' => Ascii.eqb c d || char_in c chars'
  end.

(** [s.lstrip(chars)] *)
Fixpoint lstrip (chars s : string) : string :=
  match s with
  | EmptyString => EmptyString
  | String c s' => if char_in c chars then lstrip chars s' else s
  end.

(** [s.rstrip(chars)] *)
Fixpoint rstrip (chars s : string) : string :=
  match s with
  | EmptyString => EmptyString
  | String c s' =>
      match rstrip chars s' with
      | EmptyString => if char_in c chars then EmptyString else String c EmptyString
      | r => String c r
      end
  end.

(** [s.strip(chars)] *)
Definition strip (chars s : string) : string := rstrip chars (lstrip chars s).

(** *** Characters

    A continuation byte of UTF-8 is of the form 10xxxxxx. *)
Definition is_continuation (c : ascii) : bool :=
  let n := nat_of_ascii c in (128 <=? n)%nat && (n <? 192)%nat.

(** [s] starts in the middle of a character. *)
Definition starts_inside (s : string) : bool :=
  match s with
  | EmptyString => false
  | String c _ => is_continuation c
  end.

(** The characters of [s] in order, each with its bytes. *)
Fixpoint chars (s : string) : list string :=
  match s with
  | EmptyString => []
  | String c s' =>
      if starts_inside s' then
        match chars s' with
        | g :: gs => String c g :: gs
        | [] => [String c EmptyString]
        end
      else String c EmptyString :: chars s'
  end.

(** [''.join(gs)] *)
Definition join (gs : list string) : string := fold_right String.append EmptyString gs.

(** [len(s)] *)
Definition len (s : string) : nat := length (chars s).

(** [s[:n]] for a number [n >= 0] of characters. *)
Definition take_chars (n : nat) (s : string) : string := join (firstn n (chars s)).

(** *** Digits *)

Section Digits.

Context (uni : Uni.t).

(** The value of the character [g] as a decimal digit: what the class [\d]
    matches and [int] reads. *)
Definition char_decimal (g : string) : option nat :=
  match g with
  | EmptyString => None
  | String c EmptyString => Ascii.is_nat c
  | String c _ => if (192 <=? nat_of_ascii c)%nat then Uni.decimal uni g else None
  end.

Definition is_decimal (g : string) : bool :=
  match char_decimal g with Some _ => true | None => false end.

(** [g.isdigit()] for one character. *)
Definition char_isdigit (g : string) : bool :=
  match g with
  | EmptyString => false
  | String c EmptyString => is_digit c
  | String c _ => (192 <=? nat_of_ascii c)%nat && Uni.isdigit uni g
  end.

(** [s.isdigit()]: non-empty and every character a digit. *)
Definition isdigit (s : string) : bool :=
  match chars s with
  | [] => false
  | gs => forallb char_isdigit gs
  end.

(** The value of a sequence of decimal digits, most significant first;
    [acc] is the value of the digits already read.  A character that is
    not a decimal digit is a [ValueError]. *)
Fixpoint int_chars (acc : Z) (gs : list string) : option Z :=
  match gs with
  | [] => Some acc
  | g :: gs' =>
      match char_decimal g with
      | Some d => int_chars (10 * acc + Z.of_nat d) gs'
      | None => None
      end
  end.

(** [int(s)] for a string [s] without sign, blank or underscore, which is
    what the code passes: a match of [\d+] or a string with
    [s.isdigit()].  [None] is the [ValueError] of an empty string and of a
    character that is not a decimal digit. *)
Definition int (s : string) : option Z :=
  match chars s with
  | [] => None
  | gs => int_chars 0 gs
  end.

(** The longest run of decimal digits at the start of a list of
    characters, and what follows it. *)
Fixpoint span_decimal (gs : list string) : list string * list string :=
  match gs with
  | [] => ([], [])
  | g :: gs' =>
      if is_decimal g
      then let '(ds, rest) := span_decimal gs' in (g :: ds, rest)
      else ([], gs)
  end.

(** The longest prefix of decimal digits of [s], and what follows it: the
    greedy match of [\d*]. *)
Definition span_digits (s : string) : string * string :=
  let '(ds, rest) := span_decimal (chars s) in (join ds, join rest).

End Digits.

(** [str(n)], also the rendering of an [int] inside an f-string. *)
Definition str (n : Z) : string := NilZero.string_of_int (Z.to_int n).

(** [s[len(p):]] when [s] starts with [p]. *)
Fixpoint strip_prefix (p s : string) : option string :=
  match p, s with
  | EmptyString, _ => Some s
  | String a p', String b s' => if Ascii.eqb a b then strip_prefix p' s' else None
  | String _ _, EmptyString => None
  end.

End Py.

(** ** [config.py] *)

Module Config.

(** The settings the core reads.  They are module-level variables that the
    settings menu rewrites, so every function takes the record. *)
Record t := {
  ARHIVACH_DOMAIN : string;
  MAX_CONCURRENT_DOWNLOADS : Z;
  CONVERT_IMAGES_TO_JPG : bool;
  JPG_QUALITY : Z;
  DOWNLOAD_RETRIES : Z;
  MEDIA_EXTENSIONS_images : list string;
  MEDIA_EXTENSIONS_videos : list string;
  MEDIA_EXTENSIONS_other : list string
}.

(** The values of [config.py] as shipped. *)
Definition default : t := {|
  ARHIVACH_DOMAIN := "https://arhivach.vc";
  MAX_CONCURRENT_DOWNLOADS := 5;
  CONVERT_IMAGES_TO_JPG := true;
  JPG_QUALITY := 85;
  DOWNLOAD_RETRIES := 5;
  MEDIA_EXTENSIONS_images := [".jpg"; ".jpeg"; ".png"; ".gif"; ".webp"; ".bmp"];
  MEDIA_EXTENSIONS_videos := [".mp4"; ".webm"; ".mov"; ".avi"];
  MEDIA_EXTENSIONS_other := [".pdf"; ".zip"; ".rar"; ".7z"]
|}.

(** The same settings with image conversion switched off (settings menu,
    entry 5). *)
Definition no_convert : t := {|
  ARHIVACH_DOMAIN := ARHIVACH_DOMAIN default;
  MAX_CONCURRENT_DOWNLOADS := MAX_CONCURRENT_DOWNLOADS default;
  CONVERT_IMAGES_TO_JPG := false;
  JPG_QUALITY := JPG_QUALITY default;
  DOWNLOAD_RETRIES := DOWNLOAD_RETRIES default;
  MEDIA_EXTENSIONS_images := MEDIA_EXTENSIONS_images default;
  MEDIA_EXTENSIONS_videos := MEDIA_EXTENSIONS_videos default;
  MEDIA_EXTENSIONS_other := MEDIA_EXTENSIONS_other default
|}.

End Config.

(** ** [os.path] (POSIX flavour) *)

Module OsPath.

(** [p.rfind(c)] for a one-character [c]: the index of the last
    occurrence, [None] for Python's [-1]. *)
Fixpoint rfind (c : ascii) (p : string) : option nat :=
  match p with
  | EmptyString => None
  | String d p' =>
      match rfind c p' with
      | Some i => Some (S i)
      | None => if Ascii.eqb d c then Some 0%nat else None
      end
  end.

(** The loop of [genericpath._splitext] that skips the leading dots of the
    last component: is some character of [p[from:upto]] not a dot? *)
Definition has_non_dot (p : string) (from upto : nat) : bool :=
  negb (String.eqb (Py.lstrip "." (String.substring from (upto - from) p)) "").

(** [os.path.splitext(p)]: the extension starts at the last dot of the
    last path component, unless that component has only leading dots
    before it. *)
Definition splitext (p : string) : string * string :=
  let filenameIndex := match rfind "/" p with Some i => S i | None => 0%nat end in
  match rfind "." p with
  | Some dotIndex =>
      if (filenameIndex <=? dotIndex)%nat && has_non_dot p filenameIndex dotIndex
      then (Py.take dotIndex p, Py.drop dotIndex p)
      else (p, "")
  | None => (p, "")
  end.

(** [os.path.join(a, b)] for two components. *)
Definition join (a b : string) : string :=
  if Py.startswith b "/" then b
  else if String.eqb a "" || Py.endswith a "/" then a +:+ b
  else a +:+ "/" +:+ b.

End OsPath.

(** ** Library functions the parser calls

  [urllib.parse.urljoin], the [path] component of [urllib.parse.urlparse]
  and [hashlib.md5(...).hexdigest()] are not code of this program, and no
  more are the tables of the interpreter it runs on: the parser is a
  function of them. *)

Module Ext.

Record t := {
  urljoin : string → string → string;
  urlparse_path : string → string;
  md5_hexdigest : string → string;
  unicode : Uni.t
}.

End Ext.

(** ** The document object

  A BeautifulSoup element as the parser sees it: its attributes, which it
  reads with [el.get(name)] and writes with [el[name] = value], and its text
  [el.get_text(strip=True)]. *)

Module Dom.

Record element := {
  attrs : gmap string string;
  text : string
}.

(** [el.get(name)] *)
Definition get_opt (name : string) (el : element) : option string :=
  attrs el !! name.

(** [el.get(name, '')] *)
Definition get (name : string) (el : element) : string :=
  default "" (attrs el !! name).

(** [el[name] = value] *)
Definition set (name value : string) (el : element) : element :=
  {| attrs := <[name := value]> (attrs el); text := text el |}.

(** The truth value of [el.get(name)]: present and not empty. *)
Definition has (name : string) (el : element) : bool :=
  match attrs el !! name with
  | Some v => negb (String.eqb v "")
  | None => false
  end.

(** A row of the thread table: [row.find('th')] found something,
    the texts of [row.find_all('td')], and the [a] elements below the row
    in document order. *)
Record row := {
  row_has_th : bool;
  row_cells : list string;
  row_links : list element
}.

(** A parsed page, as the results of the queries the parser makes:
    - [table_rows]: [find_all('tr')] of the table
      [soup.find('table', class_='thread_list') or soup.find('table')],
      [None] when there is no table;
    - [all_links]: [soup.find_all('a', href=True)];
    - [imgs]: [soup.find_all('img')];
    - [post_time]: the text of [soup.find('span', class_='post_time')]. *)
Record soup := {
  table_rows : option (list row);
  all_links : list element;
  imgs : list element;
  post_time : option string
}.

End Dom.

(** ** [parser.py] *)

Module Parser.

(** [ThreadInfo] *)
Record ThreadInfo := {
  ti_url : string;
  ti_title : string;
  ti_date : string;
  ti_thread_id : string;
  ti_posts_count : Z
}.

(** The three values of [MediaFile.file_type]: ['image'], ['video'] and
    ['other']. *)
Inductive file_type := Image | Video | Other.

Global Instance file_type_eq_dec : EqDecision file_type.
Proof. solve_decision. Defined.

(** [MediaFile] *)
Record MediaFile := {
  url : string;
  filename : string;
  ftype : file_type
}.

Definition CONVERTIBLE_EXTENSIONS : list string := [".png"; ".webp"; ".bmp"].

(** [x in xs] for a list of strings *)
Definition str_in (x : string) (xs : list string) : bool :=
  existsb (String.eqb x) xs.

(** [get_html_filename] *)
Definition get_html_filename (cfg : Config.t) (filename : string) : string :=
  if negb (Config.CONVERT_IMAGES_TO_JPG cfg) then filename
  else
    let '(base, ext) := OsPath.splitext filename in
    if str_in (Py.lower ext) CONVERTIBLE_EXTENSIONS then base +:+ ".jpg"
    else filename.

(** *** Regular expressions

    [re.search] tries the pattern at every position, left to right, and
    returns the first match. *)
Fixpoint re_search {A} (here : string → option A) (s : string) : option A :=
  match here s with
  | Some m => Some m
  | None =>
      match s with
      | EmptyString => None
      | String _ s' => re_search here s'
      end
  end.

(** [/thread/(\d+)] at the start of [s]: the digits of group 1. *)
Definition match_thread_here (uni : Uni.t) (s : string) : option string :=
  match Py.strip_prefix "/thread/" s with
  | Some rest =>
      let '(ds, _) := Py.span_digits uni rest in
      if String.eqb ds "" then None else Some ds
  | None => None
  end.

(** [/index/(\d+)/\?] at the start of [s]: the digits of group 1.  The
    greedy run of digits is the only candidate: a shorter run is followed by
    a digit, not by the slash. *)
Definition match_index_here (uni : Uni.t) (s : string) : option string :=
  match Py.strip_prefix "/index/" s with
  | Some rest =>
      let '(ds, rest') := Py.span_digits uni rest in
      if String.eqb ds "" then None
      else if Py.startswith rest' "/?" then Some ds else None
  | None => None
  end.

(** [(\d{2})/(\d{2})/(\d{2})] at the start of [s]: the three groups. *)
Definition match_date_here (uni : Uni.t) (s : string)
  : option (string * string * string) :=
  match Py.chars s with
  | d1 :: d2 :: s1 :: m1 :: m2 :: s2 :: y1 :: y2 :: _ =>
      if Py.is_decimal uni d1 && Py.is_decimal uni d2 && String.eqb s1 "/"
         && Py.is_decimal uni m1 && Py.is_decimal uni m2 && String.eqb s2 "/"
         && Py.is_decimal uni y1 && Py.is_decimal uni y2
      then Some (d1 +:+ d2, m1 +:+ m2, y1 +:+ y2)
      else None
  | _ => None
  end.

(** [a or b] on strings *)
Definition str_or (a b : string) : string :=
  if String.eqb a "" then b else a.

(** [s.split(c)[-1]] *)
Definition after_last (c : ascii) (s : string) : string :=
  match OsPath.rfind c s with
  | Some i => Py.drop (S i) s
  | None => s
  end.

(** [s.split(c)[0]] *)
Fixpoint before_first (c : ascii) (s : string) : string :=
  match s with
  | EmptyString => EmptyString
  | String d s' => if Ascii.eqb d c then EmptyString else String d (before_first c s')
  end.

(** [s.rsplit(c, 1)[0]] *)
Definition before_last (c : ascii) (s : string) : string :=
  match OsPath.rfind c s with
  | Some i => Py.take i s
  | None => s
  end.

(** [s.replace(old, new)] for a non-empty [old]: [skip] characters of a
    match that has just been replaced are still to be passed over. *)
Fixpoint replace_go (old new : string) (skip : nat) (s : string) : string :=
  match s with
  | EmptyString => EmptyString
  | String c s' =>
      match skip with
      | S k => replace_go old new k s'
      | O =>
          if String.prefix old s
          then new +:+ replace_go old new (String.length old - 1) s'
          else String c (replace_go old new 0 s')
      end
  end.

Definition replace (old new s : string) : string := replace_go old new 0 s.

(** [range(lo, hi)] *)
Definition range (lo hi : Z) : list Z :=
  map (λ i, lo + Z.of_nat i)%Z (seq 0 (Z.to_nat (hi - lo))).

(** A loop over a list that threads a state and rewrites each element. *)
Fixpoint map_state {S A B} (f : S → A → S * B) (s : S) (l : list A) : S * list B :=
  match l with
  | [] => (s, [])
  | x :: l' =>
      let '(s1, y) := f s x in
      let '(s2, ys) := map_state f s1 l' in
      (s2, y :: ys)
  end.

(** *** The network, as the parser sees it

    [_get_page] either returns a parsed page or reports a failure.  What
    the site answers is not under the program's control: [web n u] is the
    answer to a request for [u] made after [n] earlier events.  The
    requests and pauses are recorded in order. *)
Inductive event :=
| Fetch (u : string)   (* [self.session.get(url, ...)] *)
| Pause.               (* [time.sleep(config.PAGE_REQUEST_DELAY)] *)

Global Instance event_eq_dec : EqDecision event.
Proof. solve_decision. Defined.

Definition web := nat → string → option Dom.soup.

Section WithInstance.

(** [self.domain], and what the parser is a function of. *)
Context (lib : Ext.t) (cfg : Config.t) (domain : string).

(** [_get_page] *)
Definition _get_page (w : web) (u : string) (log : list event)
  : option Dom.soup * list event :=
  (w (length log) u, log ++ [Fetch u]).

(** [_normalize_url] *)
Definition _normalize_url (u : string) : string :=
  if Py.startswith u "//" then "https:" +:+ u
  else if Py.startswith u "/" then Ext.urljoin lib domain u
  else if negb (Py.startswith u "http") then Ext.urljoin lib domain u
  else u.

(** [_extract_thread_id] *)
Definition _extract_thread_id (u : string) : string :=
  match re_search (match_thread_here (Ext.unicode lib)) u with
  | Some ds => ds
  | None => ""
  end.

(** [_parse_post_time_to_folder] *)
Definition _parse_post_time_to_folder (date_str thread_id : string) : string :=
  match re_search (match_date_here (Ext.unicode lib)) date_str with
  | Some (day, month, year) =>
      day +:+ "." +:+ month +:+ "." +:+ year +:+ "_" +:+ thread_id
  | None => "thread_" +:+ thread_id
  end.

(** [get_folder_name] *)
Definition get_folder_name (thread_date thread_id : string) : string :=
  _parse_post_time_to_folder thread_date thread_id.

(** The address [get_threads_from_tag_page] requests (its first four
    lines). *)
Definition tag_page_url (tag_id offset : Z) : string :=
  if (offset =? 0)%Z
  then domain +:+ "/?tags=" +:+ Py.str tag_id
  else domain +:+ "/index/" +:+ Py.str offset +:+ "/?tags=" +:+ Py.str tag_id.

(** The body of the loop over the rows of the thread table: the thread
    the row contributes, if any. *)
Definition thread_of_row (r : Dom.row) : option ThreadInfo :=
  if Dom.row_has_th r then None
  else if (2 <=? length (Dom.row_cells r))%nat then
    match
      find (λ a, match Dom.get_opt "href" a with
                 | Some h =>
                     bool_decide
                       (is_Some (re_search (match_thread_here (Ext.unicode lib)) h))
                 | None => false
                 end) (Dom.row_links r)
    with
    | Some link =>
        let thread_url := _normalize_url (Dom.get "href" link) in
        Some {| ti_url := thread_url;
                ti_title := Py.take_chars 100 (Dom.text link);
                ti_date := default "" (last (Dom.row_cells r));
                ti_thread_id := _extract_thread_id thread_url;
                ti_posts_count := 0 |}
    | None => None
    end
  else None.

(** The threads of a page: the rows of its table, in order. *)
Definition threads_of_page (soup : Dom.soup) : list ThreadInfo :=
  match Dom.table_rows soup with
  | Some rows => omap thread_of_row rows
  | None => []
  end.

(** The body of the loop over [all_links]: the new value of
    [total_pages], or the [ValueError] of one of the two [int]. *)
Definition count_link (tag_id : Z) (total_pages : Z) (link : Dom.element)
  : option Z :=
  let href := Dom.get "href" link in
  if Py.contains ("tags=" +:+ Py.str tag_id) href then
    total_pages ←
      match re_search (match_index_here (Ext.unicode lib)) href with
      | Some ds =>
          page_offset ← Py.int (Ext.unicode lib) ds;
          let page_num := (page_offset / 25 + 1)%Z in
          Some (Z.max total_pages page_num)
      | None => Some total_pages
      end;
    let link_text := Dom.text link in
    if Py.isdigit (Ext.unicode lib) link_text
    then n ← Py.int (Ext.unicode lib) link_text; Some (Z.max total_pages n)
    else Some total_pages
  else Some total_pages.

(** The page count of a parsed page: the loop stops at the first
    [ValueError]. *)
Definition total_pages_of (tag_id : Z) (soup : Dom.soup) : option Z :=
  fold_left (λ total_pages link, total_pages ≫= λ n, count_link tag_id n link)
    (Dom.all_links soup) (Some 1%Z).

(** [get_threads_from_tag_page]: the pair it returns, or [None] when it
    raises. *)
Definition get_threads_from_tag_page (w : web) (tag_id offset : Z)
    (log : list event) : option (list ThreadInfo * Z) * list event :=
  let '(soup, log) := _get_page w (tag_page_url tag_id offset) log in
  match soup with
  | None => (Some ([], 0%Z), log)
  | Some soup =>
      let threads := threads_of_page soup in
      (total_pages ← total_pages_of tag_id soup; Some (threads, total_pages), log)
  end.

(** The truth value of the optional [max_pages]: [None] and [0] are
    false. *)
Definition truthy (max_pages : option Z) : bool :=
  match max_pages with
  | Some m => negb (m =? 0)%Z
  | None => false
  end.

(** The body of the loop of [get_all_threads_from_tag] over the pages
    after the first.  Once a page has raised ([None]) nothing more is
    done. *)
Definition fetch_next_page (w : web) (tag_id : Z)
    (st : option (list ThreadInfo) * list event) (page : Z)
  : option (list ThreadInfo) * list event :=
  match st with
  | (None, log) => (None, log)
  | (Some all_threads, log) =>
      let offset := ((page - 1) * 25)%Z in
      let log := log ++ [Pause] in
      match get_threads_from_tag_page w tag_id offset log with
      | (Some (threads, _), log) => (Some (all_threads ++ threads), log)
      | (None, log) => (None, log)
      end
  end.

(** [get_all_threads_from_tag]: the list it returns, or [None] when it
    raises. *)
Definition get_all_threads_from_tag (w : web) (tag_id : Z)
    (max_pages : option Z) (log : list event)
  : option (list ThreadInfo) * list event :=
  match get_threads_from_tag_page w tag_id 0 log with
  | (None, log) => (None, log)
  | (Some (threads, total_pages), log) =>
      let all_threads := [] ++ threads in
      let total_pages :=
        if truthy max_pages then Z.min total_pages (default 0%Z max_pages)
        else total_pages in
      fold_left (fetch_next_page w tag_id) (range 2 (total_pages + 1))
        (Some all_threads, log)
  end.

(** [_extract_filename] *)
Definition _extract_filename (u : string) : string :=
  let path := Ext.urlparse_path lib u in
  let filename := after_last "/" path in
  let filename := before_first "?" filename in
  if String.eqb filename "" || (Py.len filename <? 3)%nat
  then Py.take_chars 16 (Ext.md5_hexdigest lib u)
  else filename.

(** [_extract_resource_filename] *)
Definition _extract_resource_filename (u resource_type : string) : string :=
  let path := Ext.urlparse_path lib u in
  let filename := after_last "/" path in
  let filename := before_first "?" filename in
  let filename :=
    if String.eqb filename "" || (Py.len filename <? 3)%nat
    then Py.take_chars 12 (Ext.md5_hexdigest lib u) +:+ "." +:+ resource_type
    else filename in
  if negb (Py.endswith filename ("." +:+ resource_type))
  then
    if negb (Py.contains "." filename) then filename +:+ "." +:+ resource_type
    else filename
  else filename.

(** [_get_file_type] *)
Definition _get_file_type (filename : string) : option file_type :=
  let filename_lower := Py.lower filename in
  if existsb (Py.endswith filename_lower) (Config.MEDIA_EXTENSIONS_images cfg)
  then Some Image
  else if existsb (Py.endswith filename_lower) (Config.MEDIA_EXTENSIONS_videos cfg)
  then Some Video
  else if existsb (Py.endswith filename_lower) (Config.MEDIA_EXTENSIONS_other cfg)
  then Some Other
  else None.

(** *** The media passes of [parse_thread]

    The state of the passes: the list [media_files] and the set
    [original_filenames]. *)
Record media_state := {
  media_files : list MediaFile;
  original_filenames : gset string
}.

(** [any(m.url == u for m in media_files)] *)
Definition known_url (u : string) (ms : list MediaFile) : bool :=
  existsb (λ m, String.eqb (url m) u) ms.

(** [any(m.filename == f for m in media_files)] *)
Definition known_filename (f : string) (ms : list MediaFile) : bool :=
  existsb (λ m, String.eqb (filename m) f) ms.

(** The body of the loop over [soup.find_all('a', href=True)]: collect an
    original and point the anchor at its local copy. *)
Definition collect_original (st : media_state) (link : Dom.element)
  : media_state * Dom.element :=
  let href := Dom.get "href" link in
  if Py.contains "/storage/" href && negb (Py.contains "/storage/t/" href) then
    let full_url := if Py.startswith href "http" then href else _normalize_url href in
    let filename := _extract_filename full_url in
    match _get_file_type filename with
    | Some ft =>
        let media :=
          if negb (known_url full_url (media_files st))
          then media_files st ++ [{| url := full_url; filename := filename; ftype := ft |}]
          else media_files st in
        let html_filename :=
          if decide (ft = Image) then get_html_filename cfg filename else filename in
        ({| media_files := media;
            original_filenames := {[ filename ]} ∪ original_filenames st |},
         Dom.set "href" ("media/" +:+ html_filename) link)
    | None => (st, link)
    end
  else (st, link).

(** The dictionary [video_hash_to_filename]. *)
Definition video_hash_to_filename (ms : list MediaFile) : gmap string string :=
  fold_left
    (λ acc media,
       if decide (ftype media = Video)
       then <[before_last "." (filename media) := filename media]> acc
       else acc)
    ms ∅.

(** The markers of "service" images the image pass skips. *)
Definition service_markers : list string :=
  ["favicon"; "logo"; "icon"; "avatar"; "button"].

(** The two guarded assignments
    [if img.get('src'): img['src'] = v] and
    [if img.get('data-src'): img['data-src'] = v]. *)
Definition point_at (v : string) (img : Dom.element) : Dom.element :=
  let img := if Dom.has "src" img then Dom.set "src" v img else img in
  if Dom.has "data-src" img then Dom.set "data-src" v img else img.

(** The body of the loop over [soup.find_all('img')]. *)
Definition rewrite_img (videos : gmap string string) (st : media_state)
    (img : Dom.element) : media_state * Dom.element :=
  let src := str_or (Dom.get "src" img) (Dom.get "data-src" img) in
  if negb (String.eqb src "") && Py.contains "/storage/" src then
    if existsb (λ x, Py.contains x src) service_markers then (st, img)
    else
      let filename := _extract_filename src in
      if Py.contains "/storage/t/" src then
        let hash_name := replace ".thumb" "" filename in
        if Py.endswith filename ".thumb" && bool_decide (is_Some (videos !! hash_name))
        then
          let full_url := _normalize_url src in
          let thumb_filename := hash_name +:+ "_thumb.jpg" in
          let media :=
            if negb (known_filename thumb_filename (media_files st))
            then media_files st ++
                 [{| url := full_url; filename := thumb_filename; ftype := Image |}]
            else media_files st in
          ({| media_files := media; original_filenames := original_filenames st |},
           point_at ("media/" +:+ thumb_filename) img)
        else if bool_decide (filename ∈ original_filenames st) then
          (st, point_at ("media/" +:+ get_html_filename cfg filename) img)
        else (st, img)
      else
        let full_url := _normalize_url src in
        let st :=
          match _get_file_type filename with
          | Some ft =>
              if negb (known_url full_url (media_files st)) then
                {| media_files := media_files st ++
                     [{| url := full_url; filename := filename; ftype := ft |}];
                   original_filenames := {[ filename ]} ∪ original_filenames st |}
              else st
          | None => st
          end in
        (st, point_at ("media/" +:+ get_html_filename cfg filename) img)
  else (st, img).

(** The result of the anchor pass and the image pass of [parse_thread]:
    the media collected so far, the anchors and the images as rewritten. *)
Record media_pass := {
  mp_state : media_state;
  mp_links : list Dom.element;
  mp_imgs : list Dom.element
}.

Definition empty_state : media_state :=
  {| media_files := []; original_filenames := ∅ |}.

(** [parse_thread], from the creation of [original_filenames] to the end
    of the loop over the images. *)
Definition parse_thread_media (soup : Dom.soup) : media_pass :=
  let '(st1, links) := map_state collect_original empty_state (Dom.all_links soup) in
  let videos := video_hash_to_filename (media_files st1) in
  let '(st2, imgs) := map_state (rewrite_img videos) st1 (Dom.imgs soup) in
  {| mp_state := st2; mp_links := links; mp_imgs := imgs |}.

End WithInstance.

End Parser.

(** ** [main.py] *)

Module Main.

(** The character class of the pattern: less-than, greater-than, colon,
    double quote, slash, backslash, bar, question mark and star. *)
Definition illegal_chars : string :=
  String "<" (String ">" (String ":" (String (ascii_of_nat 34)
    (String "/" (String (ascii_of_nat 92) (String "|" (String "?" (String "*" "")))))))).

(** [re.sub] of that class by an underscore. *)
Fixpoint replace_illegal (name : string) : string :=
  match name with
  | EmptyString => EmptyString
  | String c name' =>
      String (if Py.char_in c illegal_chars then "_"%char else c) (replace_illegal name')
  end.

(** [sanitize_folder_name] *)
Definition sanitize_folder_name (name : string) : string :=
  let name := replace_illegal name in
  let name := Py.strip " ." name in
  if String.eqb name "" then "thread" else Py.take_chars 200 name.

End Main.

(** ** The Pillow calls of the transcoder

  [PIL.Image] is not code of this program.  The transcoder is a function of
  the operations it calls, every one of which may raise. *)

Module Pil.

Definition bytes := list Byte.byte.

(** A raised exception, by the name of its class.  Only subclasses of
    [Exception] are modelled. *)
Definition exn := string.

Inductive result (A : Type) :=
| Ok (a : A)
| Raise (e : exn).
Global Arguments Ok {A} a.
Global Arguments Raise {A} e.

Definition bind {A B} (r : result A) (f : A → result B) : result B :=
  match r with
  | Ok a => f a
  | Raise e => Raise e
  end.

Record t := {
  image : Type;
  (** [from PIL import Image] *)
  import_Image : result unit;
  (** [Image.open(io.BytesIO(content))] *)
  Image_open : bytes → result image;
  (** [img.mode] *)
  mode : image → string;
  (** [Image.new('RGB', img.size, (255, 255, 255))] *)
  Image_new_white : image → result image;
  (** [img.convert(mode)] *)
  convert : image → string → result image;
  (** [img.split()[-1]] *)
  split_last : image → result image;
  (** [background.paste(img, mask=mask)]: the background after the call *)
  paste : image → image → option image → result image;
  (** [img.save(output, format='JPEG', quality=quality, optimize=True)]
      followed by [output.getvalue()] *)
  save_jpeg : image → Z → result bytes
}.

End Pil.

(** ** [downloader.py] *)

Module Downloader.

Import Pil.

Notation "x ←r e ; k" := (Pil.bind e (λ x, k))
  (at level 20, e at level 100, k at level 200, right associativity, only parsing).

Definition CONVERTIBLE_EXTENSIONS : list string := [".png"; ".webp"; ".bmp"].

(** [DownloadStats] *)
Record DownloadStats := {
  total : Z;
  completed : Z;
  failed : Z;
  skipped : Z;
  converted : Z;
  retried : Z;
  total_bytes : Z
}.

(** [DownloadStats(total=n)] *)
Definition new_stats (n : Z) : DownloadStats :=
  {| total := n; completed := 0; failed := 0; skipped := 0;
     converted := 0; retried := 0; total_bytes := 0 |}.

(** The counters the engine increments. *)
Inductive counter := Completed | Failed | Skipped | Converted | Retried | TotalBytes.

Global Instance counter_eq_dec : EqDecision counter.
Proof. solve_decision. Defined.

(** [self.stats.<counter> += n] *)
Definition bump (c : counter) (n : Z) (s : DownloadStats) : DownloadStats :=
  match c with
  | Completed =>
      {| total := total s; completed := completed s + n; failed := failed s;
         skipped := skipped s; converted := converted s; retried := retried s;
         total_bytes := total_bytes s |}
  | Failed =>
      {| total := total s; completed := completed s; failed := failed s + n;
         skipped := skipped s; converted := converted s; retried := retried s;
         total_bytes := total_bytes s |}
  | Skipped =>
      {| total := total s; completed := completed s; failed := failed s;
         skipped := skipped s + n; converted := converted s; retried := retried s;
         total_bytes := total_bytes s |}
  | Converted =>
      {| total := total s; completed := completed s; failed := failed s;
         skipped := skipped s; converted := converted s + n; retried := retried s;
         total_bytes := total_bytes s |}
  | Retried =>
      {| total := total s; completed := completed s; failed := failed s;
         skipped := skipped s; converted := converted s; retried := retried s + n;
         total_bytes := total_bytes s |}
  | TotalBytes =>
      {| total := total s; completed := completed s; failed := failed s;
         skipped := skipped s; converted := converted s; retried := retried s;
         total_bytes := total_bytes s + n |}
  end%Z.

(** *** The image transcoder *)

Section Transcoder.

Context (pil : Pil.t).

(** The body of the [try] of [convert_image_to_jpg]. *)
Definition convert_body (content : bytes) (quality : Z) : result bytes :=
  _ ←r Pil.import_Image pil;
  img ←r Pil.Image_open pil content;
  img ←r (if Parser.str_in (Pil.mode pil img) ["RGBA"; "LA"; "P"] then
            background ←r Pil.Image_new_white pil img;
            img ←r (if String.eqb (Pil.mode pil img) "P"
                    then Pil.convert pil img "RGBA" else Ok img);
            mask ←r (if String.eqb (Pil.mode pil img) "RGBA"
                     then m ←r Pil.split_last pil img; Ok (Some m)
                     else Ok None);
            Pil.paste pil background img mask
          else if negb (String.eqb (Pil.mode pil img) "RGB")
          then Pil.convert pil img "RGB"
          else Ok img);
  Pil.save_jpeg pil img quality.

(** [convert_image_to_jpg]: [except Exception: return content]. *)
Definition convert_image_to_jpg (content : bytes) (quality : Z) : result bytes :=
  match convert_body content quality with
  | Ok jpg => Ok jpg
  | Raise _ => Ok content
  end.

End Transcoder.

(** *** File names and the existence check *)

(** [get_jpg_filename] *)
Definition get_jpg_filename (filename : string) : string :=
  let '(base, ext) := OsPath.splitext filename in
  if Parser.str_in (Py.lower ext) CONVERTIBLE_EXTENSIONS then base +:+ ".jpg"
  else filename.

(** [should_convert] *)
Definition should_convert (cfg : Config.t) (filename : string) : bool :=
  if negb (Config.CONVERT_IMAGES_TO_JPG cfg) then false
  else
    let ext := Py.lower (snd (OsPath.splitext filename)) in
    Parser.str_in ext CONVERTIBLE_EXTENSIONS.

(** The files on disk: path to content. *)
Abbreviation filesystem := (gmap string bytes).

(** [os.path.exists] *)
Definition path_exists (disk : filesystem) (path : string) : bool :=
  bool_decide (is_Some (disk !! path)).

(** [file_exists] *)
Definition file_exists (cfg : Config.t) (disk : filesystem)
    (output_dir filename : string) : bool :=
  if path_exists disk (OsPath.join output_dir filename) then true
  else if should_convert cfg filename
          && path_exists disk (OsPath.join output_dir (get_jpg_filename filename))
  then true
  else
    let '(base, ext) := OsPath.splitext filename in
    if Parser.str_in (Py.lower ext) CONVERTIBLE_EXTENSIONS
       && path_exists disk (OsPath.join output_dir (base +:+ ".jpg"))
    then true
    else false.

(** *** Coroutines

    The engine is a set of coroutines run by one event loop.  A coroutine
    is a tree of the actions it performs on the shared state and of its
    suspension points, where the outside world answers. *)

(** What [await] can raise. *)
Inductive py_exn :=
| TimeoutError
| ClientError (msg : string)
| OtherException (msg : string).

Inductive prog (A : Type) : Type :=
| Ret (a : A)
(** synchronous code that looks at the disk *)
| ReadFs (k : filesystem → prog A)
(** [self.stats.<c> += n] *)
| Incr (c : counter) (n : Z) (k : prog A)
(** [pbar.update(n)] *)
| PbarUpdate (n : Z) (k : prog A)
(** entering and leaving [async with self.semaphore] *)
| Acquire (k : prog A)
| Release (k : prog A)
(** [async with self.session.get(url) as response]: the status, or the
    exception raised *)
| HttpGet (u : string) (k : py_exn + Z → prog A)
(** [await response.read()] *)
| HttpRead (k : py_exn + bytes → prog A)
(** [await asyncio.sleep(secs)] *)
| Sleep (secs : Z) (k : prog A)
(** [await loop.run_in_executor(None, ...)]: the suspension only, the
    function that runs there is pure *)
| Offload (k : prog A)
(** [async with aiofiles.open(path, 'wb') as f: await f.write(content)]:
    [true] when nothing was raised *)
| WriteFile (path : string) (content : bytes) (k : bool → prog A).

Global Arguments Ret {A} a.
Global Arguments ReadFs {A} k.
Global Arguments Incr {A} c n k.
Global Arguments PbarUpdate {A} n k.
Global Arguments Acquire {A} k.
Global Arguments Release {A} k.
Global Arguments HttpGet {A} u k.
Global Arguments HttpRead {A} k.
Global Arguments Sleep {A} secs k.
Global Arguments Offload {A} k.
Global Arguments WriteFile {A} path content k.

Fixpoint bind {A B} (p : prog A) (f : A → prog B) : prog B :=
  match p with
  | Ret a => f a
  | ReadFs k => ReadFs (λ d, bind (k d) f)
  | Incr c n k => Incr c n (bind k f)
  | PbarUpdate n k => PbarUpdate n (bind k f)
  | Acquire k => Acquire (bind k f)
  | Release k => Release (bind k f)
  | HttpGet u k => HttpGet u (λ r, bind (k r) f)
  | HttpRead k => HttpRead (λ r, bind (k r) f)
  | Sleep secs k => Sleep secs (bind k f)
  | Offload k => Offload (bind k f)
  | WriteFile path content k => WriteFile path content (λ r, bind (k r) f)
  end.

Global Instance prog_ret : MRet prog := @Ret.
Global Instance prog_bind : MBind prog := λ A B f p, bind p f.

Definition read_fs : prog filesystem := ReadFs Ret.
Definition incr (c : counter) (n : Z) : prog unit := Incr c n (Ret ()).
Definition pbar_update (n : Z) : prog unit := PbarUpdate n (Ret ()).
Definition acquire : prog unit := Acquire (Ret ()).
Definition release : prog unit := Release (Ret ()).
Definition http_get (u : string) : prog (py_exn + Z) := HttpGet u Ret.
Definition http_read : prog (py_exn + bytes) := HttpRead Ret.
Definition sleep (secs : Z) : prog unit := Sleep secs (Ret ()).
Definition offload : prog unit := Offload (Ret ()).
Definition write_file (path : string) (content : bytes) : prog bool :=
  WriteFile path content Ret.

(** *** The retrying downloader *)

(** One pass through the [try] of the loop of [_download_with_retry]:
    [Some r] when the function returns [r] from inside the loop, [None]
    when control reaches the code after the [try]. *)
Definition attempt_once (u : string) : prog (option (option bytes)) :=
  response ← http_get u;
  match response with
  | inr status =>
      if (status =? 200)%Z then
        body ← http_read;
        match body with
        | inr content => mret (Some (Some content))
        | inl _ => mret None
        end
      else if (status =? 404)%Z then mret (Some None)
      else mret None
  | inl _ => mret None
  end.

(** The loop [for attempt in range(self.max_retries)], over the attempts
    still to make. *)
Fixpoint retry_loop (max_retries : Z) (u : string) (attempts : list Z)
  : prog (option bytes) :=
  match attempts with
  | [] => mret None
  | attempt :: rest =>
      r ← attempt_once u;
      match r with
      | Some result => mret result
      | None =>
          (if (attempt <? max_retries - 1)%Z
           then incr Retried 1;; sleep (1 * (attempt + 1))
           else mret ());;
          retry_loop max_retries u rest
      end
  end.

(** [_download_with_retry].  The result [None] is Python's [None]. *)
Definition _download_with_retry (max_retries : Z) (u : string) : prog (option bytes) :=
  retry_loop max_retries u (Parser.range 0 max_retries).

(** *** The engine *)

Section Engine.

Context (pil : Pil.t) (cfg : Config.t).

(** The [try] of [_download_file] after a successful fetch: [true] when
    it ran to its end, [false] when an exception sent it to the
    [except] clause. *)
Definition convert_and_store (media : Parser.MediaFile) (filepath : string)
    (content : bytes) : prog bool :=
  converted ←
    (if should_convert cfg (Parser.filename media) then
       offload;;
       match convert_image_to_jpg pil content (Config.JPG_QUALITY cfg) with
       | Ok jpg => incr Converted 1;; mret (Some jpg)
       | Raise _ => mret None
       end
     else mret (Some content));
  match converted with
  | Some content =>
      written ← write_file filepath content;
      if written : bool then
        incr Completed 1;;
        incr TotalBytes (Z.of_nat (length content));;
        pbar_update 1;;
        mret true
      else mret false
  | None => mret false
  end.

(** [_download_file] *)
Definition _download_file (max_retries : Z) (media : Parser.MediaFile)
    (output_dir : string) : prog bool :=
  disk ← read_fs;
  if file_exists cfg disk output_dir (Parser.filename media) then
    incr Skipped 1;;
    pbar_update 1;;
    mret true
  else
    let final_filename :=
      if should_convert cfg (Parser.filename media)
      then get_jpg_filename (Parser.filename media)
      else Parser.filename media in
    let filepath := OsPath.join output_dir final_filename in
    acquire;;
    content ← _download_with_retry max_retries (Parser.url media);
    match content with
    | None =>
        incr Failed 1;;
        pbar_update 1;;
        release;;
        mret false
    | Some content =>
        stored ← convert_and_store media filepath content;
        if stored : bool then release;; mret true
        else
          incr Failed 1;;
          pbar_update 1;;
          release;;
          mret false
    end.

End Engine.

(** [x or default] on an optional integer argument *)
Definition int_or (x : option Z) (dflt : Z) : Z :=
  match x with
  | Some v => if (v =? 0)%Z then dflt else v
  | None => dflt
  end.

(** [MediaDownloader]: the two attributes [__init__] computes. *)
Record MediaDownloader := {
  max_concurrent : Z;
  max_retries : Z
}.

(** [MediaDownloader.__init__] *)
Definition MediaDownloader_init (cfg : Config.t) (max_concurrent max_retries : option Z)
  : MediaDownloader :=
  {| max_concurrent := int_or max_concurrent (Config.MAX_CONCURRENT_DOWNLOADS cfg);
     max_retries := int_or max_retries (Config.DOWNLOAD_RETRIES cfg) |}.

(** *** The event loop

    The state the coroutines share, and a record of what happened: every
    action, with the index of the task that performed it. *)

Inductive event :=
| Checked                                   (* looked at the disk *)
| Counted (c : counter) (n : Z)             (* incremented a counter *)
| Progress (n : Z)                          (* advanced the progress bar *)
| Acquired
| Released
| Requested (u : string) (r : py_exn + Z)   (* a network request and its answer *)
| ReadBody (r : py_exn + bytes)
| Slept (secs : Z)
| Offloaded
| Wrote (path : string) (content : bytes) (ok : bool).

Record world := {
  stats : DownloadStats;
  disk : filesystem;
  semaphore : Z;
  pbar : Z;
  log : list (nat * event)
}.

(** How an attempt to write a file ends: the whole content is written, the
    file could not be opened, or the write stopped after a part of it. *)
Inductive write_result :=
| Written
| OpenFailed
| WriteFailed (partial : bytes).

(** What the outside world decides at a suspension point. *)
Inductive answer :=
| Tick
| Status (r : py_exn + Z)
| Body (r : py_exn + bytes)
| Disk (r : write_result).

Definition record (i : nat) (e : event) (w : world) : world :=
  {| stats := stats w; disk := disk w; semaphore := semaphore w; pbar := pbar w;
     log := log w ++ [(i, e)] |}.

Definition with_stats (s : DownloadStats) (w : world) : world :=
  {| stats := s; disk := disk w; semaphore := semaphore w; pbar := pbar w;
     log := log w |}.

Definition with_disk (d : filesystem) (w : world) : world :=
  {| stats := stats w; disk := d; semaphore := semaphore w; pbar := pbar w;
     log := log w |}.

Definition with_semaphore (v : Z) (w : world) : world :=
  {| stats := stats w; disk := disk w; semaphore := v; pbar := pbar w;
     log := log w |}.

Definition with_pbar (v : Z) (w : world) : world :=
  {| stats := stats w; disk := disk w; semaphore := semaphore w; pbar := v;
     log := log w |}.

(** One step of task [i]: the action at the head of its coroutine, with
    the answer [a] of the outside world.  [None] when the task cannot move:
    it has finished, it waits for the semaphore, or the answer is not of the
    kind the action expects. *)
Definition fire {A} (i : nat) (a : answer) (w : world) (p : prog A)
  : option (world * prog A) :=
  match p with
  | Ret _ => None
  | ReadFs k => Some (record i Checked w, k (disk w))
  | Incr c n k => Some (record i (Counted c n) (with_stats (bump c n (stats w)) w), k)
  | PbarUpdate n k => Some (record i (Progress n) (with_pbar (pbar w + n) w), k)
  | Acquire k =>
      if (0 <? semaphore w)%Z
      then Some (record i Acquired (with_semaphore (semaphore w - 1) w), k)
      else None
  | Release k => Some (record i Released (with_semaphore (semaphore w + 1) w), k)
  | HttpGet u k =>
      match a with
      | Status r => Some (record i (Requested u r) w, k r)
      | _ => None
      end
  | HttpRead k =>
      match a with
      | Body r => Some (record i (ReadBody r) w, k r)
      | _ => None
      end
  | Sleep secs k => Some (record i (Slept secs) w, k)
  | Offload k => Some (record i Offloaded w, k)
  | WriteFile path content k =>
      match a with
      | Disk Written =>
          Some (record i (Wrote path content true)
                  (with_disk (<[path := content]> (disk w)) w), k true)
      | Disk OpenFailed =>
          Some (record i (Wrote path [] false) w, k false)
      | Disk (WriteFailed partial) =>
          Some (record i (Wrote path partial false)
                  (with_disk (<[path := partial]> (disk w)) w), k false)
      | _ => None
      end
  end.

(** The tasks of [asyncio.gather]. *)
Abbreviation pool := (list (prog bool)).

(** The event loop resumes some task.  A switch is allowed before every
    action, which covers the switches the event loop makes at the
    suspension points. *)
Definition move (i : nat) (a : answer) (s : world * pool) : option (world * pool) :=
  match s.2 !! i with
  | Some p =>
      match fire i a s.1 p with
      | Some (w', p') => Some (w', <[i := p']> s.2)
      | None => None
      end
  | None => None
  end.

Definition step (s s' : world * pool) : Prop :=
  ∃ i a, move i a s = Some s'.

(** A schedule: which task moves, with which answer. *)
Fixpoint run_schedule (sched : list (nat * answer)) (s : world * pool)
  : option (world * pool) :=
  match sched with
  | [] => Some s
  | (i, a) :: sched' =>
      match move i a s with
      | Some s' => run_schedule sched' s'
      | None => None
      end
  end.

(** A task has returned. *)
Definition finished {A} (p : prog A) : bool :=
  match p with
  | Ret _ => true
  | _ => false
  end.

(** [asyncio.gather] returns when every task has. *)
Definition all_finished (tasks : pool) : bool := forallb finished tasks.

(** *** One way to run a batch

    The answers of the outside world as a function of the time, counted in
    events. *)
Record oracle := {
  on_get : nat → string → py_exn + Z;
  on_read : nat → py_exn + bytes;
  on_write : nat → string → bytes → write_result
}.

(** The answer the oracle gives to the action at the head of [p]. *)
Definition answer_of {A} (o : oracle) (w : world) (p : prog A) : answer :=
  match p with
  | HttpGet u _ => Status (on_get o (length (log w)) u)
  | HttpRead _ => Body (on_read o (length (log w)))
  | WriteFile path content _ => Disk (on_write o (length (log w)) path content)
  | _ => Tick
  end.

(** Task [i] runs until it returns; [None] when it comes to wait for the
    semaphore, which nobody else will release. *)
Fixpoint run_task {A} (o : oracle) (i : nat) (p : prog A) (w : world)
  : option (world * A) :=
  match p with
  | Ret a => Some (w, a)
  | ReadFs k => run_task o i (k (disk w)) (record i Checked w)
  | Incr c n k =>
      run_task o i k (record i (Counted c n) (with_stats (bump c n (stats w)) w))
  | PbarUpdate n k =>
      run_task o i k (record i (Progress n) (with_pbar (pbar w + n) w))
  | Acquire k =>
      if (0 <? semaphore w)%Z
      then run_task o i k (record i Acquired (with_semaphore (semaphore w - 1) w))
      else None
  | Release k =>
      run_task o i k (record i Released (with_semaphore (semaphore w + 1) w))
  | HttpGet u k =>
      let r := on_get o (length (log w)) u in
      run_task o i (k r) (record i (Requested u r) w)
  | HttpRead k =>
      let r := on_read o (length (log w)) in
      run_task o i (k r) (record i (ReadBody r) w)
  | Sleep secs k => run_task o i k (record i (Slept secs) w)
  | Offload k => run_task o i k (record i Offloaded w)
  | WriteFile path content k =>
      match on_write o (length (log w)) path content with
      | Written =>
          run_task o i (k true)
            (record i (Wrote path content true)
               (with_disk (<[path := content]> (disk w)) w))
      | OpenFailed => run_task o i (k false) (record i (Wrote path [] false) w)
      | WriteFailed partial =>
          run_task o i (k false)
            (record i (Wrote path partial false)
               (with_disk (<[path := partial]> (disk w)) w))
      end
  end.

(** The tasks one after the other, in the order of the list; [i] is the
    index of the first. *)
Fixpoint run_tasks (o : oracle) (i : nat) (tasks : pool) (w : world)
  : option (world * list bool) :=
  match tasks with
  | [] => Some (w, [])
  | p :: tasks' =>
      match run_task o i p w with
      | Some (w', b) =>
          match run_tasks o (S i) tasks' w' with
          | Some (w'', bs) => Some (w'', b :: bs)
          | None => None
          end
      | None => None
      end
  end.

Section Batch.

Context (pil : Pil.t) (cfg : Config.t) (self : MediaDownloader).

(** The state [download_media_files] sets up: fresh statistics, the
    semaphore and the progress bar.  [asyncio.Semaphore] refuses a
    negative value. *)
Definition initial_world (media_files : list Parser.MediaFile)
    (on_disk : filesystem) : world :=
  {| stats := new_stats (Z.of_nat (length media_files));
     disk := on_disk;
     semaphore := max_concurrent self;
     pbar := 0;
     log := [] |}.

(** The list [tasks]. *)
Definition tasks_of (media_files : list Parser.MediaFile) (output_dir : string) : pool :=
  map (λ media, _download_file pil cfg (max_retries self) media output_dir) media_files.

(** [download_media_files], with the tasks run one after the other:
    the statistics it returns, and the final state.  [None] when the call
    does not return: the semaphore cannot be created, or is never
    free. *)
Definition download_media_files (o : oracle) (media_files : list Parser.MediaFile)
    (output_dir : string) (on_disk : filesystem) : option (DownloadStats * world) :=
  if (max_concurrent self <? 0)%Z then None
  else
    match run_tasks o 0 (tasks_of media_files output_dir)
            (initial_world media_files on_disk) with
    | Some (w, _) => Some (stats w, w)
    | None => None
    end.

(** [download_media_files] under any schedule and any answers: the
    states the event loop can be in, and the statistics the call returns
    from a state where all tasks have returned. *)
Definition reachable (media_files : list Parser.MediaFile) (output_dir : string)
    (on_disk : filesystem) (s : world * pool) : Prop :=
  rtc step (initial_world media_files on_disk, tasks_of media_files output_dir) s.

Definition returns (media_files : list Parser.MediaFile) (output_dir : string)
    (on_disk : filesystem) (result : DownloadStats) : Prop :=
  ∃ w tasks, reachable media_files output_dir on_disk (w, tasks)
             ∧ all_finished tasks = true ∧ result = stats w.

End Batch.

End Downloader.

(** ** Stand-ins for the outside world

    Concrete library functions, pages and answers, enough to run the
    definitions on examples. *)

Module Sample.

(** The text from the first occurrence of [c] on. *)
Fixpoint from_first (c : ascii) (s : string) : string :=
  match s with
  | EmptyString => EmptyString
  | String d s' => if Ascii.eqb d c then s else from_first c s'
  end.

(** The path of an address of the form [scheme://host/path?query#fragment]
    or [/path?query#fragment]. *)
Definition urlparse_path (u : string) : string :=
  let rest :=
    match Parser.re_search (Py.strip_prefix "://") u with
    | Some after_scheme => from_first "/" after_scheme
    | None => u
    end in
  Parser.before_first "#" (Parser.before_first "?" rest).

(** Joining the site root and an absolute path. *)
Definition urljoin (base u : string) : string := base +:+ u.

(** A corner of the Unicode tables: the Arabic-Indic digits U+0660 to
    U+0669 (the bytes D9 A0 to D9 A9) are decimal digits, and the
    superscript two is a digit that is not decimal. *)
Definition arabic_indic (g : string) : option nat :=
  match g with
  | String a (String b EmptyString) =>
      let n := nat_of_ascii b in
      if (nat_of_ascii a =? 217)%nat && (160 <=? n)%nat && (n <=? 169)%nat
      then Some (n - 160)%nat
      else None
  | _ => None
  end.

Definition unicode : Uni.t := {|
  Uni.decimal := arabic_indic;
  Uni.isdigit := λ g,
    match arabic_indic g with Some _ => true | None => String.eqb g "²" end
|}.

Definition lib : Ext.t := {|
  Ext.urljoin := urljoin;
  Ext.urlparse_path := urlparse_path;
  Ext.md5_hexdigest := λ _, "d41d8cd98f00b204e9800998ecf8427e";
  Ext.unicode := unicode
|}.

Definition domain : string := "https://arhivach.vc".

(** An element with the given attributes and text. *)
Definition element (attrs : list (string * string)) (text : string) : Dom.element :=
  {| Dom.attrs := list_to_map attrs; Dom.text := text |}.

(** A listing page of tag 7 with one thread and a pagination bar whose last
    link is page 3. *)
Definition listing_page : Dom.soup := {|
  Dom.table_rows := Some [
    {| Dom.row_has_th := true; Dom.row_cells := []; Dom.row_links := [] |};
    {| Dom.row_has_th := false;
       Dom.row_cells := ["12"; "A thread"; "20/01/25"];
       Dom.row_links := [element [("href", "/thread/1122323/")] "A thread"] |}
  ];
  Dom.all_links := [
    element [("href", "/thread/1122323/")] "A thread";
    element [("href", "/index/25/?tags=7")] "2";
    element [("href", "/index/50/?tags=7")] "3"
  ];
  Dom.imgs := [];
  Dom.post_time := None
|}.

(** The same bar with the label of page 3 in Arabic-Indic digits, and with
    a label that is the superscript two. *)
Definition listing_page_arabic : Dom.soup := {|
  Dom.table_rows := None;
  Dom.all_links := [element [("href", "/?tags=7")] "٣"];
  Dom.imgs := [];
  Dom.post_time := None
|}.

Definition listing_page_superscript : Dom.soup := {|
  Dom.table_rows := None;
  Dom.all_links := [
    element [("href", "/index/25/?tags=7")] "2";
    element [("href", "/?tags=7")] "²";
    element [("href", "/index/50/?tags=7")] "3"
  ];
  Dom.imgs := [];
  Dom.post_time := None
|}.

(** A site that answers every request with that page. *)
Definition site : Parser.web := λ _ _, Some listing_page.

(** A site whose first page is that page and whose other pages have the
    bar with the superscript. *)
Definition site_superscript : Parser.web := λ _ u,
  if String.eqb u "https://arhivach.vc/?tags=7" then Some listing_page
  else Some listing_page_superscript.

(** A thread page: an anchor to an original image, the preview of that
    image, and a preview whose address carries one of the service markers. *)
Definition thread_page : Dom.soup := {|
  Dom.table_rows := None;
  Dom.all_links := [
    element [("href", "/storage/a/bb/0123abcd.png")] "";
    element [("href", "/storage/a/bb/icon77.png")] ""
  ];
  Dom.imgs := [
    element [("src", "/storage/t/0123abcd.png")] "";
    element [("src", "/storage/t/icon77.png")] ""
  ];
  Dom.post_time := Some "20/01/25 Пнд 16:33:14"
|}.

(** A Pillow that cannot decode anything. *)
Definition pil_undecodable : Pil.t := {|
  Pil.image := unit;
  Pil.import_Image := Pil.Ok ();
  Pil.Image_open := λ _, Pil.Raise "UnidentifiedImageError";
  Pil.mode := λ _, "RGB";
  Pil.Image_new_white := λ _, Pil.Ok ();
  Pil.convert := λ _ _, Pil.Ok ();
  Pil.split_last := λ _, Pil.Ok ();
  Pil.paste := λ _ _ _, Pil.Ok ();
  Pil.save_jpeg := λ _ _, Pil.Ok []
|}.

(** A toy Pillow: an image is its bytes, in mode RGBA, and saving it puts
    the two bytes of the JPEG start marker in front. *)
Definition pil_toy : Pil.t := {|
  Pil.image := Pil.bytes;
  Pil.import_Image := Pil.Ok ();
  Pil.Image_open := λ content, Pil.Ok content;
  Pil.mode := λ _, "RGBA";
  Pil.Image_new_white := λ img, Pil.Ok [];
  Pil.convert := λ img _, Pil.Ok img;
  Pil.split_last := λ img, Pil.Ok img;
  Pil.paste := λ _ img _, Pil.Ok img;
  Pil.save_jpeg := λ img _, Pil.Ok (Byte.xff :: Byte.xd8 :: img)
|}.

(** A Pillow that decodes but fails to encode. *)
Definition pil_no_encoder : Pil.t := {|
  Pil.image := Pil.bytes;
  Pil.import_Image := Pil.Ok ();
  Pil.Image_open := λ content, Pil.Ok content;
  Pil.mode := λ _, "RGB";
  Pil.Image_new_white := λ img, Pil.Ok [];
  Pil.convert := λ img _, Pil.Ok img;
  Pil.split_last := λ img, Pil.Ok img;
  Pil.paste := λ _ img _, Pil.Ok img;
  Pil.save_jpeg := λ _ _, Pil.Raise "OSError"
|}.

(** A server that answers every request with the given status and body, and
    a disk that takes every write. *)
Definition server (status : Z) (body : Pil.bytes) : Downloader.oracle := {|
  Downloader.on_get := λ _ _, inr status;
  Downloader.on_read := λ _, inr body;
  Downloader.on_write := λ _ _ _, Downloader.Written
|}.

(** A world with nothing on disk and a free semaphore. *)
Definition fresh_world : Downloader.world := {|
  Downloader.stats := Downloader.new_stats 0;
  Downloader.disk := ∅;
  Downloader.semaphore := 5;
  Downloader.pbar := 0;
  Downloader.log := []
|}.

(** A batch of two images and a video. *)
Definition batch : list Parser.MediaFile := [
  {| Parser.url := "https://arhivach.vc/storage/a/bb/0123abcd.png";
     Parser.filename := "0123abcd.png"; Parser.ftype := Parser.Image |};
  {| Parser.url := "https://arhivach.vc/storage/a/bb/4567.JPG";
     Parser.filename := "4567.JPG"; Parser.ftype := Parser.Image |};
  {| Parser.url := "https://arhivach.vc/storage/a/cc/89ef.mp4";
     Parser.filename := "89ef.mp4"; Parser.ftype := Parser.Video |}
].

(** The downloader the orchestrator builds: [MediaDownloader(None)]. *)
Definition downloader (cfg : Config.t) : Downloader.MediaDownloader :=
  Downloader.MediaDownloader_init cfg None None.

End Sample.

(** * Properties *)

(** ** Strings *)

Module StrFacts.

Lemma sapp_nil_l (s : string) : "" +:+ s = s.
Proof. reflexivity. Qed.

Lemma sapp_cons (c : ascii) (s t : string) : String c s +:+ t = String c (s +:+ t).
Proof. reflexivity. Qed.

(** Compute the appends whose left operand starts with known characters. *)
Ltac norm_app := repeat first [rewrite sapp_cons | rewrite sapp_nil_l].
Tactic Notation "norm_app" "in" hyp(H) :=
  repeat first [rewrite sapp_cons in H | rewrite sapp_nil_l in H].

Lemma sapp_nil_r (s : string) : s +:+ "" = s.
Proof. induction s as [|c s IH]; [done|]. by rewrite sapp_cons, IH. Qed.

Lemma sapp_assoc (s t u : string) : (s +:+ t) +:+ u = s +:+ t +:+ u.
Proof. induction s as [|c s IH]; [done|]. by rewrite !sapp_cons, IH. Qed.

Lemma slength_app (s t : string) :
  String.length (s +:+ t) = (String.length s + String.length t)%nat.
Proof. induction s as [|c s IH]; [done|]. rewrite sapp_cons. simpl. by rewrite IH. Qed.

Lemma ascii_eqb_true (a b : ascii) : Ascii.eqb a b = true ↔ a = b.
Proof. apply Ascii.eqb_eq. Qed.

Lemma prefix_spec (p s : string) :
  String.prefix p s = true ↔ ∃ t, s = p +:+ t.
Proof.
  revert s. induction p as [|a p IH]; intros s.
  - split; [intros _; by exists s|]. intros _. by destruct s.
  - destruct s as [|b s]; simpl.
    + split; [done|]. intros [t Ht]. by rewrite sapp_cons in Ht.
    + destruct (ascii_dec a b) as [->|Hne].
      * rewrite IH. split; intros [t Ht]; exists t.
        -- by rewrite sapp_cons, Ht.
        -- rewrite sapp_cons in Ht. congruence.
      * split; [done|]. intros [t Ht]. rewrite sapp_cons in Ht. congruence.
Qed.

Lemma strip_prefix_spec (p s r : string) :
  Py.strip_prefix p s = Some r ↔ s = p +:+ r.
Proof.
  revert s. induction p as [|a p IH]; intros s; simpl.
  - rewrite sapp_nil_l. split; congruence.
  - destruct s as [|b s]; [by rewrite sapp_cons|].
    rewrite sapp_cons. destruct (Ascii.eqb a b) eqn:E.
    + apply ascii_eqb_true in E as ->. rewrite IH. split; congruence.
    + apply Ascii.eqb_neq in E. split; [done|]. congruence.
Qed.

(** [re_search] returns the match at the first position that has one. *)
Lemma re_search_Some {A} (here : string → option A) (s : string) (m : A) :
  Parser.re_search here s = Some m ↔
  ∃ pre suf, s = pre +:+ suf ∧ here suf = Some m ∧
    ∀ pre' suf', s = pre' +:+ suf' →
      (String.length pre' < String.length pre)%nat → here suf' = None.
Proof.
  induction s as [|c s IH]; simpl.
  - destruct (here "") as [m'|] eqn:E.
    + split.
      * intros [= <-]. exists "", "". split_and!; [done..|]. simpl. lia.
      * intros (pre & suf & Hs & Hm & _).
        destruct pre; [|by rewrite sapp_cons in Hs].
        rewrite sapp_nil_l in Hs. subst suf. congruence.
    + split; [done|]. intros (pre & suf & Hs & Hm & _).
      destruct pre; [|by rewrite sapp_cons in Hs].
      rewrite sapp_nil_l in Hs. subst suf. congruence.
  - destruct (here (String c s)) as [m'|] eqn:E.
    + split.
      * intros [= <-]. exists "", (String c s). split_and!; [done..|]. simpl. lia.
      * intros (pre & suf & Hs & Hm & Hfirst).
        destruct pre as [|a pre].
        -- rewrite sapp_nil_l in Hs. subst suf. congruence.
        -- specialize (Hfirst "" (String c s) eq_refl). simpl in Hfirst.
           rewrite Hfirst in E by lia. done.
    + rewrite IH. split.
      * intros (pre & suf & -> & Hm & Hfirst).
        exists (String c pre), suf. split_and!; [done..|].
        intros pre' suf' Hs Hlen. destruct pre' as [|a pre'].
        -- rewrite sapp_nil_l in Hs. by subst suf'.
        -- rewrite !sapp_cons in Hs. injection Hs as -> Hs.
           apply (Hfirst pre'); [done|]. simpl in Hlen. lia.
      * intros (pre & suf & Hs & Hm & Hfirst).
        destruct pre as [|a pre].
        -- rewrite sapp_nil_l in Hs. subst suf. congruence.
        -- rewrite sapp_cons in Hs. injection Hs as -> ->.
           exists pre, suf. split_and!; [done..|].
           intros pre' suf' Hs Hlen.
           apply (Hfirst (String a pre')); [by rewrite sapp_cons, Hs|]. simpl. lia.
Qed.

Lemma re_search_None {A} (here : string → option A) (s : string) :
  Parser.re_search here s = None ↔ ∀ pre suf, s = pre +:+ suf → here suf = None.
Proof.
  induction s as [|c s IH]; simpl.
  - destruct (here "") eqn:E.
    + split; [done|]. intros H. by rewrite (H "" "") in E.
    + split; [|done]. intros _ pre suf Hs.
      destruct pre; [|by rewrite sapp_cons in Hs]. rewrite sapp_nil_l in Hs. by subst.
  - destruct (here (String c s)) eqn:E.
    + split; [done|]. intros H. by rewrite (H "" (String c s)) in E.
    + rewrite IH. split.
      * intros H pre suf Hs. destruct pre as [|a pre].
        -- rewrite sapp_nil_l in Hs. by subst.
        -- rewrite sapp_cons in Hs. injection Hs as -> ->. by apply (H pre).
      * intros H pre suf ->. by apply (H (String c pre)).
Qed.

Lemma contains_spec (sub s : string) :
  Py.contains sub s = true ↔ ∃ pre post, s = pre +:+ sub +:+ post.
Proof.
  induction s as [|c s IH]; cbn [Py.contains].
  - rewrite orb_false_r, prefix_spec. split.
    + intros [t Ht]. by exists "", t.
    + intros (pre & post & H). destruct pre; [|by rewrite sapp_cons in H].
      rewrite sapp_nil_l in H. by exists post.
  - rewrite orb_true_iff, prefix_spec, IH. split.
    + intros [[t Ht]|(pre & post & ->)].
      * by exists "", t.
      * by exists (String c pre), post.
    + intros (pre & post & H). destruct pre as [|a pre].
      * left. by exists post.
      * right. rewrite sapp_cons in H. injection H as -> ->. by exists pre, post.
Qed.

(** *** Characters *)

Lemma join_app (l1 l2 : list string) : Py.join (l1 ++ l2) = Py.join l1 +:+ Py.join l2.
Proof.
  induction l1 as [|g l1 IH]; [done|]. simpl. by rewrite IH, sapp_assoc.
Qed.

Lemma chars_nil (s : string) : Py.chars s = [] ↔ s = "".
Proof.
  split; [|by intros ->]. destruct s as [|c s]; [done|]. simpl.
  destruct (Py.starts_inside s); [|done]. by destruct (Py.chars s).
Qed.

(** The characters of a string spell it. *)
Lemma join_chars (s : string) : Py.join (Py.chars s) = s.
Proof.
  induction s as [|c s IH]; [done|]. simpl.
  destruct (Py.starts_inside s) eqn:E.
  - destruct (Py.chars s) as [|g gs] eqn:Eg.
    + apply chars_nil in Eg as ->. done.
    + simpl in *. by rewrite <- IH.
  - simpl. by rewrite IH.
Qed.

Lemma starts_inside_app (a b : string) :
  a ≠ "" → Py.starts_inside (a +:+ b) = Py.starts_inside a.
Proof. by destruct a. Qed.

(** Splitting a string between two characters splits its characters. *)
Lemma chars_app (a b : string) :
  Py.starts_inside b = false → Py.chars (a +:+ b) = Py.chars a ++ Py.chars b.
Proof.
  intros Hb. induction a as [|c a IH]; [done|].
  rewrite sapp_cons. cbn [Py.chars]. rewrite IH.
  destruct a as [|d a].
  - rewrite sapp_nil_l, Hb. done.
  - rewrite starts_inside_app by done.
    destruct (Py.starts_inside (String d a)); [|done].
    destruct (Py.chars (String d a)) as [|g gs] eqn:Eg; [|done].
    by apply chars_nil in Eg.
Qed.

Lemma chars_single_nonempty (g : string) : Py.chars g = [g] → g ≠ "".
Proof. by intros H ->. Qed.

(** The first character of a string, and the rest. *)
Lemma chars_cons_inv (s g : string) (gs : list string) :
  Py.chars s = g :: gs →
  s = g +:+ Py.join gs ∧ Py.chars g = [g]
  ∧ Py.starts_inside (Py.join gs) = false ∧ Py.chars (Py.join gs) = gs.
Proof.
  revert g gs. induction s as [|c s IH]; intros g gs; [done|].
  cbn [Py.chars]. destruct (Py.starts_inside s) eqn:E.
  - destruct (Py.chars s) as [|g' gs'] eqn:Eg.
    + apply chars_nil in Eg as ->. done.
    + intros [= <- <-]. destruct (IH g' gs' eq_refl) as (Hs & Hg & Hin & Hgs).
      split_and!; [by rewrite sapp_cons, <- Hs| |done..].
      cbn [Py.chars].
      assert (Py.starts_inside g' = true) as ->.
      { rewrite <- E, Hs. symmetry. apply starts_inside_app.
        by apply chars_single_nonempty. }
      by rewrite Hg.
  - intros [= <- <-]. rewrite join_chars. by split_and!.
Qed.

Lemma chars_cons (g rest : string) :
  Py.chars g = [g] → Py.starts_inside rest = false →
  Py.chars (g +:+ rest) = g :: Py.chars rest.
Proof. intros Hg Hrest. by rewrite chars_app, Hg. Qed.

Lemma starts_inside_join_firstn (s : string) (n : nat) :
  Py.starts_inside s = false →
  Py.starts_inside (Py.join (firstn n (Py.chars s))) = false.
Proof.
  intros Hs. destruct n as [|n]; [done|].
  destruct (Py.chars s) as [|g gs] eqn:E; [done|].
  apply chars_cons_inv in E as (Hsg & Hg & _ & _).
  cbn [firstn Py.join fold_right]. rewrite starts_inside_app.
  - rewrite <- Hs, Hsg. symmetry. apply starts_inside_app.
    by apply chars_single_nonempty.
  - by apply chars_single_nonempty.
Qed.

(** The first characters of a string are the characters of what they
    spell. *)
Lemma chars_join_firstn (s : string) (n : nat) :
  Py.chars (Py.join (firstn n (Py.chars s))) = firstn n (Py.chars s).
Proof.
  revert s. induction n as [|n IH]; intros s; [done|].
  destruct (Py.chars s) as [|g gs] eqn:E; [done|].
  apply chars_cons_inv in E as (Hs & Hg & Hin & Hgs).
  cbn [firstn Py.join fold_right].
  change (fold_right String.append "" (firstn n gs)) with (Py.join (firstn n gs)).
  rewrite <- Hgs at 1 2. rewrite chars_cons; [by rewrite IH| done |].
  by apply starts_inside_join_firstn.
Qed.

Lemma take_chars_length (n : nat) (s : string) : (Py.len (Py.take_chars n s) ≤ n)%nat.
Proof.
  unfold Py.len, Py.take_chars. rewrite chars_join_firstn, length_take. lia.
Qed.

Lemma take_chars_is_prefix (n : nat) (s : string) : ∃ t, s = Py.take_chars n s +:+ t.
Proof.
  exists (Py.join (skipn n (Py.chars s))). unfold Py.take_chars.
  by rewrite <- join_app, take_drop, join_chars.
Qed.

Lemma take_chars_all (n : nat) (s : string) : (Py.len s ≤ n)%nat → Py.take_chars n s = s.
Proof.
  intros H. unfold Py.take_chars. rewrite take_ge by done. apply join_chars.
Qed.

(** *** Digits *)

(** A decimal digit does not start with a continuation byte. *)
Lemma is_decimal_starts (uni : Uni.t) (g rest : string) :
  Py.is_decimal uni g = true → Py.starts_inside (g +:+ rest) = false.
Proof.
  unfold Py.is_decimal, Py.char_decimal. destruct g as [|c [|d g]]; [done| |].
  - simpl. unfold Py.is_continuation.
    destruct (Ascii.is_nat c) eqn:E; [|done]. intros _.
    revert E. clear. destruct c as [[] [] [] [] [] [] [] []]; by vm_compute.
  - destruct (192 <=? nat_of_ascii c)%nat eqn:E; [|done]. intros _.
    simpl. unfold Py.is_continuation. apply Nat.leb_le in E.
    apply andb_false_iff. right. apply Nat.ltb_ge. done.
Qed.

Lemma span_decimal_spec (uni : Uni.t) (gs : list string) :
  gs = (Py.span_decimal uni gs).1 ++ (Py.span_decimal uni gs).2
  ∧ forallb (Py.is_decimal uni) (Py.span_decimal uni gs).1 = true
  ∧ ∀ g rest, (Py.span_decimal uni gs).2 = g :: rest → Py.is_decimal uni g = false.
Proof.
  induction gs as [|g gs (IH1 & IH2 & IH3)]; simpl; [done|].
  destruct (Py.is_decimal uni g) eqn:E.
  - destruct (Py.span_decimal uni gs) as [ds rest]. simpl in *.
    split_and!; [by rewrite <- IH1|by rewrite E|done].
  - simpl. split_and!; [done..|]. by intros ?? [= <- <-].
Qed.

Lemma span_decimal_app (uni : Uni.t) (ds rest : list string) :
  forallb (Py.is_decimal uni) ds = true →
  (∀ g t, rest = g :: t → Py.is_decimal uni g = false) →
  Py.span_decimal uni (ds ++ rest) = (ds, rest).
Proof.
  intros Hds Hrest. induction ds as [|g ds IH].
  - destruct rest as [|g t]; [done|]. simpl. by rewrite (Hrest g t).
  - simpl in *. apply andb_true_iff in Hds as [-> Hds]. by rewrite IH.
Qed.

(** [int] of characters that are all decimal digits. *)
Lemma int_chars_None (uni : Uni.t) (gs : list string) (acc : Z) :
  Py.int_chars uni acc gs = None ↔ ∃ g, g ∈ gs ∧ Py.is_decimal uni g = false.
Proof.
  revert acc. induction gs as [|g gs IH]; intros acc; simpl.
  - split; [done|]. intros (g & Hg & _). by apply elem_of_nil in Hg.
  - unfold Py.is_decimal at 1. destruct (Py.char_decimal uni g) as [d|] eqn:E.
    + rewrite IH. split.
      * intros (g' & Hg' & Hd). exists g'. split; [by right|done].
      * intros (g' & Hg' & Hd). apply elem_of_cons in Hg' as [->|Hg'].
        -- unfold Py.is_decimal in Hd. by rewrite E in Hd.
        -- by exists g'.
    + split; [|done]. intros _. exists g. split; [by left|].
      unfold Py.is_decimal. by rewrite E.
Qed.

Lemma int_chars_nonneg (uni : Uni.t) (gs : list string) (acc n : Z) :
  (0 ≤ acc)%Z → Py.int_chars uni acc gs = Some n → (0 ≤ n)%Z.
Proof.
  revert acc. induction gs as [|g gs IH]; intros acc Hacc; simpl.
  - by intros [= <-].
  - destruct (Py.char_decimal uni g) as [d|]; [|done]. apply IH. lia.
Qed.

Lemma int_nonneg (uni : Uni.t) (s : string) (n : Z) :
  Py.int uni s = Some n → (0 ≤ n)%Z.
Proof.
  unfold Py.int. destruct (Py.chars s) as [|g gs]; [done|].
  by apply int_chars_nonneg.
Qed.

(** When [int] raises. *)
Lemma int_None (uni : Uni.t) (s : string) :
  Py.int uni s = None ↔
  s = "" ∨ ∃ g, g ∈ Py.chars s ∧ Py.is_decimal uni g = false.
Proof.
  unfold Py.int. destruct (Py.chars s) as [|g gs] eqn:E.
  - apply chars_nil in E as ->. split; [by left|done].
  - rewrite int_chars_None. split; [by right|].
    intros [->|H]; done.
Qed.

End StrFacts.

(** ** Folder names *)

Module FolderName.

Import StrFacts.

(** One character that is a decimal digit. *)
Definition digit (uni : Uni.t) (g : string) : Prop :=
  Py.chars g = [g] ∧ Py.is_decimal uni g = true.

(** A group of two decimal digits. *)
Definition two_digits (uni : Uni.t) (s : string) : Prop :=
  ∃ a b, s = a +:+ b ∧ digit uni a ∧ digit uni b.

(** The text DD/MM/YY stands in [date] right after [pre]; what follows it
    starts with a character, as it does in a text. *)
Definition date_at (uni : Uni.t) (date pre dd mm yy post : string) : Prop :=
  two_digits uni dd ∧ two_digits uni mm ∧ two_digits uni yy ∧
  Py.starts_inside post = false ∧
  date = pre +:+ dd +:+ "/" +:+ mm +:+ "/" +:+ yy +:+ post.

(** [date] contains the pattern. *)
Definition has_date (uni : Uni.t) (date : string) : Prop :=
  ∃ pre dd mm yy post, date_at uni date pre dd mm yy post.

(** The occurrence after [pre] is the first one. *)
Definition first_date_at (uni : Uni.t) (date pre dd mm yy post : string) : Prop :=
  date_at uni date pre dd mm yy post ∧
  ∀ pre' dd' mm' yy' post', date_at uni date pre' dd' mm' yy' post' →
    (String.length pre ≤ String.length pre')%nat.

(** Every character of [s] is one of [chars]. *)
Definition only (chars s : string) : Prop :=
  ∀ c, Py.char_in c s = true → Py.char_in c chars = true.

(** [s] does not start with one of [chars]. *)
Definition no_leading (chars s : string) : Prop :=
  ∀ c t, s = String c t → Py.char_in c chars = false.

(** [s] does not end with one of [chars]. *)
Definition no_trailing (chars s : string) : Prop :=
  ∀ t c, s = t +:+ String c "" → Py.char_in c chars = false.

Section WithTables.

Context (uni : Uni.t).

Lemma match_date_here_spec (s dd mm yy : string) :
  Parser.match_date_here uni s = Some (dd, mm, yy) ↔
  ∃ post, two_digits uni dd ∧ two_digits uni mm ∧ two_digits uni yy ∧
          Py.starts_inside post = false ∧
          s = dd +:+ "/" +:+ mm +:+ "/" +:+ yy +:+ post.
Proof.
  split.
  - unfold Parser.match_date_here.
    destruct (Py.chars s) as [|d1 [|d2 [|s1 [|m1 [|m2 [|s2 [|y1 [|y2 rest]]]]]]]] eqn:E;
      try done.
    destruct (Py.is_decimal uni d1) eqn:E1; [|done].
    destruct (Py.is_decimal uni d2) eqn:E2; [|done].
    destruct (String.eqb_spec s1 "/") as [->|]; [|done].
    destruct (Py.is_decimal uni m1) eqn:E4; [|done].
    destruct (Py.is_decimal uni m2) eqn:E5; [|done].
    destruct (String.eqb_spec s2 "/") as [->|]; [|done].
    destruct (Py.is_decimal uni y1) eqn:E7; [|done].
    destruct (Py.is_decimal uni y2) eqn:E8; [|done].
    simpl. intros [= <- <- <-].
    apply chars_cons_inv in E as (H1 & C1 & _ & E).
    apply chars_cons_inv in E as (H2 & C2 & _ & E).
    apply chars_cons_inv in E as (H3 & _ & _ & E).
    apply chars_cons_inv in E as (H4 & C4 & _ & E).
    apply chars_cons_inv in E as (H5 & C5 & _ & E).
    apply chars_cons_inv in E as (H6 & _ & _ & E).
    apply chars_cons_inv in E as (H7 & C7 & _ & E).
    apply chars_cons_inv in E as (H8 & C8 & Hin & _).
    exists (Py.join rest).
    split_and!; [by eexists _, _..|done|].
    rewrite H1, H2, H3, H4, H5, H6, H7, H8. by rewrite !sapp_assoc.
  - intros (post & (d1 & d2 & -> & [C1 E1] & [C2 E2]) & (m1 & m2 & -> & [C4 E4] & [C5 E5])
            & (y1 & y2 & -> & [C7 E7] & [C8 E8]) & Hpost & ->).
    unfold Parser.match_date_here. rewrite !sapp_assoc.
    do 8 (rewrite chars_cons;
          [|done|first [done|by apply (is_decimal_starts uni)|reflexivity]]).
    by rewrite E1, E2, E4, E5, E7, E8.
Qed.

Lemma search_of_first_date (date pre dd mm yy post : string) :
  first_date_at uni date pre dd mm yy post →
  Parser.re_search (Parser.match_date_here uni) date = Some (dd, mm, yy).
Proof.
  intros [(Hd & Hm & Hy & Hpost & Hdate) Hfirst].
  apply re_search_Some. eexists pre, _. split; [exact Hdate|]. split.
  - apply match_date_here_spec. by exists post.
  - intros pre' suf' Hs Hlen.
    destruct (Parser.match_date_here uni suf') as [[[dd' mm'] yy']|] eqn:E; [|done].
    apply match_date_here_spec in E as (post' & ? & ? & ? & ? & ->).
    specialize (Hfirst pre' dd' mm' yy' post'). unfold date_at in Hfirst.
    assert (String.length pre ≤ String.length pre')%nat by (apply Hfirst; done). lia.
Qed.

Lemma has_date_first (date : string) :
  has_date uni date → ∃ pre dd mm yy post, first_date_at uni date pre dd mm yy post.
Proof.
  intros (pre & dd & mm & yy & post & Hd & Hm & Hy & Hpost & Hdate).
  destruct (Parser.re_search (Parser.match_date_here uni) date) as [[[dd' mm'] yy']|] eqn:E.
  - apply re_search_Some in E as (pre' & suf & Hs & Hhere & Hfirst).
    apply match_date_here_spec in Hhere as (post' & ? & ? & ? & ? & ->).
    exists pre', dd', mm', yy', post'. split; [done|].
    intros pre2 dd2 mm2 yy2 post2 (? & ? & ? & ? & Hs2).
    destruct (decide (String.length pre' ≤ String.length pre2)%nat); [done|].
    assert (Parser.match_date_here uni (dd2 +:+ "/" +:+ mm2 +:+ "/" +:+ yy2 +:+ post2)
            = None) as Hn.
    { apply (Hfirst pre2); [congruence|lia]. }
    assert (Parser.match_date_here uni (dd2 +:+ "/" +:+ mm2 +:+ "/" +:+ yy2 +:+ post2)
            = Some (dd2, mm2, yy2)) as Hy2.
    { apply match_date_here_spec. by exists post2. }
    congruence.
  - exfalso. eapply re_search_None in E; [|exact Hdate].
    assert (Parser.match_date_here uni (dd +:+ "/" +:+ mm +:+ "/" +:+ yy +:+ post)
            = Some (dd, mm, yy)) as Hy2.
    { apply match_date_here_spec. by exists post. }
    congruence.
Qed.

Lemma has_date_iff (date : string) :
  has_date uni date ↔ is_Some (Parser.re_search (Parser.match_date_here uni) date).
Proof.
  split.
  - intros H. destruct (has_date_first date H) as (pre & dd & mm & yy & post & Hf).
    rewrite (search_of_first_date _ _ _ _ _ _ Hf). by eexists.
  - intros [[[dd mm] yy] E].
    apply re_search_Some in E as (pre & suf & Hs & Hhere & _).
    apply match_date_here_spec in Hhere as (post & ? & ? & ? & ? & ->).
    by exists pre, dd, mm, yy, post.
Qed.

End WithTables.

Lemma folder_of_first_date (lib : Ext.t) (date id pre dd mm yy post : string) :
  first_date_at (Ext.unicode lib) date pre dd mm yy post →
  Parser._parse_post_time_to_folder lib date id
  = dd +:+ "." +:+ mm +:+ "." +:+ yy +:+ "_" +:+ id.
Proof.
  intros H. unfold Parser._parse_post_time_to_folder.
  by rewrite (search_of_first_date _ _ _ _ _ _ _ H).
Qed.

Lemma folder_without_date (lib : Ext.t) (date id : string) :
  ¬ has_date (Ext.unicode lib) date → Parser._parse_post_time_to_folder lib date id = "thread_" +:+ id.
Proof.
  intros Hno. unfold Parser._parse_post_time_to_folder.
  destruct (Parser.re_search (Parser.match_date_here (Ext.unicode lib)) date) as [[[dd mm] yy]|] eqn:E;
    [|done].
  exfalso. apply Hno.
  apply re_search_Some in E as (pre & suf & Hs & Hhere & _).
  apply match_date_here_spec in Hhere as (post & ? & ? & ? & ? & ->).
  by exists pre, dd, mm, yy, post.
Qed.


(** *** The steps of the sanitization *)

Lemma replace_illegal_length (name : string) :
  String.length (Main.replace_illegal name) = String.length name.
Proof. induction name; simpl; congruence. Qed.

Lemma replace_illegal_get (name : string) (n : nat) :
  String.get n (Main.replace_illegal name)
  = (λ c, if Py.char_in c Main.illegal_chars then "_"%char else c) <$> String.get n name.
Proof.
  revert n. induction name as [|c name IH]; intros n; [done|].
  destruct n; simpl; [done|]. apply IH.
Qed.

Lemma replace_illegal_starts (name : string) :
  Py.starts_inside (Main.replace_illegal name) = Py.starts_inside name.
Proof.
  destruct name as [|c name]; [done|]. cbn [Main.replace_illegal Py.starts_inside].
  destruct (Py.char_in c Main.illegal_chars) eqn:E; [|done].
  cbn [Py.char_in Main.illegal_chars] in E.
  repeat (apply orb_true_iff in E as [E|E]; [by apply ascii_eqb_true in E as ->|]).
  done.
Qed.

(** The replacement is made character by character. *)
Lemma replace_illegal_chars (name : string) :
  Py.chars (Main.replace_illegal name) = Main.replace_illegal <$> Py.chars name.
Proof.
  induction name as [|c name IH]; [done|].
  cbn [Main.replace_illegal Py.chars]. rewrite replace_illegal_starts, IH.
  destruct (Py.starts_inside name); [|done]. by destruct (Py.chars name).
Qed.

Lemma replace_illegal_len (name : string) :
  Py.len (Main.replace_illegal name) = Py.len name.
Proof. unfold Py.len. by rewrite replace_illegal_chars, length_fmap. Qed.

Lemma replace_illegal_legal (name : string) (c : ascii) :
  Py.char_in c (Main.replace_illegal name) = true →
  Py.char_in c Main.illegal_chars = false.
Proof.
  induction name as [|d name IH]; [done|].
  cbn [Main.replace_illegal Py.char_in]. rewrite orb_true_iff.
  intros [H|H]; [|by apply IH].
  apply ascii_eqb_true in H. subst c.
  destruct (Py.char_in d Main.illegal_chars) eqn:E; [by vm_compute|done].
Qed.

Lemma char_in_app (c : ascii) (s t : string) :
  Py.char_in c (s +:+ t) = Py.char_in c s || Py.char_in c t.
Proof.
  induction s as [|d s IH]; [done|].
  rewrite sapp_cons. simpl. by rewrite IH, orb_assoc.
Qed.

Lemma lstrip_spec (chars s : string) :
  ∃ l, s = l +:+ Py.lstrip chars s ∧ only chars l ∧ no_leading chars (Py.lstrip chars s).
Proof.
  induction s as [|c s (l & Hs & Hl & Hn)]; simpl.
  - exists "". split_and!; [done| |]; by intros ??.
  - destruct (Py.char_in c chars) eqn:E.
    + exists (String c l). split_and!; [by rewrite sapp_cons, <- Hs| |done].
      intros d. simpl. rewrite orb_true_iff. intros [H|H]; [|by apply Hl].
      by apply ascii_eqb_true in H as ->.
    + exists "". split_and!; [done|by intros ?|].
      intros d t [= <- <-]. done.
Qed.

Lemma rstrip_spec (chars s : string) :
  ∃ r, s = Py.rstrip chars s +:+ r ∧ only chars r ∧ no_trailing chars (Py.rstrip chars s).
Proof.
  induction s as [|c s (r & Hs & Hr & Hn)]; simpl.
  - exists "". split_and!; [done|by intros ?|]. intros [|??] ? H; by rewrite ?sapp_cons in H.
  - destruct (Py.rstrip chars s) as [|d s'] eqn:E.
    + destruct (Py.char_in c chars) eqn:Ec.
      * exists (String c r). rewrite sapp_nil_l in *. split_and!; [congruence| |].
        -- intros d. simpl. rewrite orb_true_iff. intros [H|H]; [|by apply Hr].
           by apply ascii_eqb_true in H as ->.
        -- intros [|??] ? H; by rewrite ?sapp_cons in H.
      * exists r. rewrite sapp_nil_l in Hs. split_and!; [by rewrite sapp_cons, sapp_nil_l, Hs|done|].
        intros [|a [|??]] b H; rewrite ?sapp_cons, ?sapp_nil_l in H; [congruence|done..].
    + exists r. split_and!; [by rewrite sapp_cons, <- Hs|done|].
      intros [|a t] b H; rewrite ?sapp_cons, ?sapp_nil_l in H; [done|].
      injection H as -> H. by apply (Hn t).
Qed.

Lemma rstrip_no_leading (chars s : string) :
  no_leading chars s → no_leading chars (Py.rstrip chars s).
Proof.
  intros Hs c t H. destruct s as [|d s]; [done|]. simpl in H.
  destruct (Py.rstrip chars s).
  - destruct (Py.char_in d chars) eqn:E; [done|]. injection H as <- _. done.
  - injection H as <- _. by apply (Hs d s).
Qed.

Lemma strip_spec (chars s : string) :
  ∃ l r, s = l +:+ Py.strip chars s +:+ r ∧ only chars l ∧ only chars r
         ∧ no_leading chars (Py.strip chars s) ∧ no_trailing chars (Py.strip chars s).
Proof.
  destruct (lstrip_spec chars s) as (l & Hs & Hl & Hlead).
  destruct (rstrip_spec chars (Py.lstrip chars s)) as (r & Hs' & Hr & Htrail).
  exists l, r. unfold Py.strip. split_and!; [congruence|done..| |done].
  by apply rstrip_no_leading.
Qed.

(** The name the orchestrator gives the folder, with the sanitization step
    written out: the illegal characters replaced, the dots and spaces at the
    two ends removed, the first 200 characters kept. *)
Lemma sanitize_steps (name : string) :
  ∃ l stripped r,
    Main.replace_illegal name = l +:+ stripped +:+ r
    ∧ only " ." l ∧ only " ." r
    ∧ no_leading " ." stripped ∧ no_trailing " ." stripped
    ∧ Main.sanitize_folder_name name
      = if String.eqb stripped "" then "thread" else Py.take_chars 200 stripped.
Proof.
  destruct (strip_spec " ." (Main.replace_illegal name)) as (l & r & Hs & Hl & Hr & H1 & H2).
  exists l, (Py.strip " ." (Main.replace_illegal name)), r. by split_and!.
Qed.

Lemma sanitize_length (name : string) :
  (Py.len (Main.sanitize_folder_name name) ≤ 200)%nat.
Proof.
  unfold Main.sanitize_folder_name.
  destruct (String.eqb _ ""); [vm_compute; lia|apply take_chars_length].
Qed.

Lemma sanitize_legal (name : string) (c : ascii) :
  Py.char_in c (Main.sanitize_folder_name name) = true →
  Py.char_in c Main.illegal_chars = false.
Proof.
  destruct (sanitize_steps name) as (l & stripped & r & Hs & _ & _ & _ & _ & ->).
  destruct (String.eqb stripped "").
  - cbn [Py.char_in]. rewrite !orb_true_iff.
    intros H. repeat destruct H as [H|H]; try done;
      apply ascii_eqb_true in H as ->; by vm_compute.
  - intros H. apply (replace_illegal_legal name). rewrite Hs.
    destruct (take_chars_is_prefix 200 stripped) as [t Ht].
    rewrite Ht, !char_in_app, H. by rewrite orb_true_r.
Qed.

(** C9.  A date string that contains DD/MM/YY, each letter one decimal
    digit, gives the folder name DD.MM.YY_id, read off the first occurrence
    (and every such date string has a first occurrence); the date of the
    specification's example gives 20.01.25_1122323; a date string without
    the pattern gives thread_id.  The sanitization replaces each illegal
    character by an underscore and leaves the others in place, removes the
    dots and spaces at the end (and at the start) of the result, and keeps
    its first 200 characters, which is all of it when it has no more: the
    name it returns has at most 200 characters, none of them illegal. *)
Theorem folder_naming_contract (lib : Ext.t) :
  (∀ date id pre dd mm yy post,
     first_date_at (Ext.unicode lib) date pre dd mm yy post →
     Parser.get_folder_name lib date id = dd +:+ "." +:+ mm +:+ "." +:+ yy +:+ "_" +:+ id)
  ∧ (∀ date, has_date (Ext.unicode lib) date →
       ∃ pre dd mm yy post, first_date_at (Ext.unicode lib) date pre dd mm yy post)
  ∧ Parser.get_folder_name lib "20/01/25 Пнд 16:33:14" "1122323" = "20.01.25_1122323"
  ∧ (∀ date id, ¬ has_date (Ext.unicode lib) date →
       Parser.get_folder_name lib date id = "thread_" +:+ id)
  ∧ (∀ name,
       String.length (Main.replace_illegal name) = String.length name
       ∧ Py.len (Main.replace_illegal name) = Py.len name
       ∧ ∀ n, String.get n (Main.replace_illegal name)
              = (λ c, if Py.char_in c Main.illegal_chars then "_"%char else c)
                <$> String.get n name)
  ∧ (∀ name, ∃ l stripped r,
       Main.replace_illegal name = l +:+ stripped +:+ r
       ∧ only " ." l ∧ only " ." r
       ∧ no_leading " ." stripped ∧ no_trailing " ." stripped
       ∧ Main.sanitize_folder_name name
         = if String.eqb stripped "" then "thread" else Py.take_chars 200 stripped)
  ∧ (∀ n s, (Py.len (Py.take_chars n s) ≤ n)%nat
            ∧ (∃ t, s = Py.take_chars n s +:+ t)
            ∧ ((Py.len s ≤ n)%nat → Py.take_chars n s = s))
  ∧ (∀ name, (Py.len (Main.sanitize_folder_name name) ≤ 200)%nat)
  ∧ (∀ name c, Py.char_in c (Main.sanitize_folder_name name) = true →
               Py.char_in c Main.illegal_chars = false).
Proof.
  split_and!.
  - intros date id pre dd mm yy post H. exact (folder_of_first_date lib _ id _ _ _ _ _ H).
  - apply has_date_first.
  - reflexivity.
  - intros. by apply folder_without_date.
  - intros name.
    split_and!; [apply replace_illegal_length|apply replace_illegal_len
                |apply replace_illegal_get].
  - apply sanitize_steps.
  - intros n s.
    split_and!; [apply take_chars_length|apply take_chars_is_prefix|apply take_chars_all].
  - apply sanitize_length.
  - apply sanitize_legal.
Qed.

(** A name of 101 Cyrillic letters. *)
Definition long_name : string :=
  Py.join (replicate 101 "я").

(** The contract at the date of the specification's example, at a date
    written in Arabic-Indic digits, at a date string without the pattern, at
    a name that needs every step of the sanitization and at a name of 101
    two-byte letters, which is kept whole. *)
Lemma folder_naming_contract_witness :
  first_date_at Sample.unicode "20/01/25 Пнд 16:33:14" "" "20" "01" "25" " Пнд 16:33:14"
  ∧ Parser.get_folder_name Sample.lib "20/01/25 Пнд 16:33:14" "1122323"
    = "20" +:+ "." +:+ "01" +:+ "." +:+ "25" +:+ "_" +:+ "1122323"
  ∧ first_date_at Sample.unicode "٢٠/٠١/٢٥" "" "٢٠" "٠١" "٢٥" ""
  ∧ Parser.get_folder_name Sample.lib "٢٠/٠١/٢٥" "1122323"
    = "٢٠" +:+ "." +:+ "٠١" +:+ "." +:+ "٢٥" +:+ "_" +:+ "1122323"
  ∧ ¬ has_date Sample.unicode "вчера"
  ∧ Parser.get_folder_name Sample.lib "вчера" "1122323" = "thread_" +:+ "1122323"
  ∧ Py.char_in "_" (Main.sanitize_folder_name " a<b.. ") = true
  ∧ Py.char_in "_" Main.illegal_chars = false
  ∧ Py.len long_name = 101%nat
  ∧ Py.take_chars 200 long_name = long_name
  ∧ Main.sanitize_folder_name long_name = long_name.
Proof.
  assert (first_date_at Sample.unicode "20/01/25 Пнд 16:33:14" "" "20" "01" "25"
            " Пнд 16:33:14") as Hfirst.
  { split; [|simpl; lia].
    split_and!; [by eexists (String _ ""), (String _ "")..|done|done]. }
  assert (first_date_at Sample.unicode "٢٠/٠١/٢٥" "" "٢٠" "٠١" "٢٥" "") as Harabic.
  { split; [|simpl; lia].
    split_and!;
      [by eexists (String _ (String _ "")), (String _ (String _ ""))..|done|done]. }
  assert (¬ has_date Sample.unicode "вчера") as Hno.
  { rewrite (has_date_iff Sample.unicode). vm_compute. by intros [? ?]. }
  pose proof (folder_naming_contract Sample.lib)
    as (Hdate & _ & _ & Hnone & _ & _ & Htake & _ & Hlegal).
  split_and!; [done| |done| |done| | | |reflexivity| |reflexivity].
  - exact (Hdate _ "1122323" _ _ _ _ _ Hfirst).
  - exact (Hdate _ "1122323" _ _ _ _ _ Harabic).
  - exact (Hnone _ "1122323" Hno).
  - reflexivity.
  - exact (Hlegal " a<b.. " "_"%char eq_refl).
  - apply (Htake 200%nat long_name). vm_compute. lia.
Defined.

End FolderName.

(** ** The tag listing walker *)

Module TagWalk.

Import StrFacts.

Section WithInstance.

Context (lib : Ext.t) (domain : string).

(** The offset of a page: page [N] is at [(N - 1) * 25]. *)
Definition offset_of_page (page : Z) : Z := ((page - 1) * 25)%Z.

(** The address of a page. *)
Definition url_of_page (tag_id page : Z) : string :=
  Parser.tag_page_url domain tag_id (offset_of_page page).

(** The threads of the page the site returns for [page], asked for at time
    [t]; none when the request fails. *)
Definition threads_at (w : Parser.web) (tag_id : Z) (t : nat) (page : Z)
  : list Parser.ThreadInfo :=
  match w t (url_of_page tag_id page) with
  | Some soup => Parser.threads_of_page lib domain soup
  | None => []
  end.

(** The request for [page] at time [t] is answered by a page on which the
    count of the pages raises. *)
Definition raises_at (w : Parser.web) (tag_id : Z) (t : nat) (page : Z) : bool :=
  match w t (url_of_page tag_id page) with
  | Some soup => bool_decide (Parser.total_pages_of lib tag_id soup = None)
  | None => false
  end.

(** The page count the page returned for [page] gives, asked for at time
    [t], when it does not raise. *)
Definition count_at (w : Parser.web) (tag_id : Z) (t : nat) (page : Z) : Z :=
  match w t (url_of_page tag_id page) with
  | Some soup => default 0%Z (Parser.total_pages_of lib tag_id soup)
  | None => 0%Z
  end.

(** The page count the first page gives, asked for at time [t]. *)
Definition total_at (w : Parser.web) (tag_id : Z) (t : nat) : Z :=
  count_at w tag_id t 1.

(** The time at which a walk that starts after [log] asks for [page]: two
    events, the pause and the request, for every page before it. *)
Definition time_of (log : list Parser.event) (page : Z) : nat :=
  (length log + 2 * Z.to_nat (page - 1))%nat.

(** The last page of the walk: the page count, cut to [max_pages] when
    that is given and not zero. *)
Definition last_page (total_pages : Z) (max_pages : option Z) : Z :=
  match max_pages with
  | Some m => if (m =? 0)%Z then total_pages else Z.min total_pages m
  | None => total_pages
  end.

(** The last page as the specification words it: the smaller of the page
    count and [max_pages], whenever [max_pages] is given. *)
Definition last_page_as_specified (total_pages : Z) (max_pages : option Z) : Z :=
  match max_pages with
  | Some m => Z.min total_pages m
  | None => total_pages
  end.

(** The requests of a walk whose pages after the first are [pages]. *)
Definition requests_of_walk (tag_id : Z) (pages : list Z) : list Parser.event :=
  Parser.Fetch (url_of_page tag_id 1)
  :: flat_map (λ page, [Parser.Pause; Parser.Fetch (url_of_page tag_id page)]) pages.

(** The addresses requested, in order. *)
Definition fetched (log : list Parser.event) : list string :=
  omap (λ e, match e with Parser.Fetch u => Some u | Parser.Pause => None end) log.

Lemma flat_map_ext_in {A B} (f g : A → list B) (l : list A) :
  (∀ a, In a l → f a = g a) → flat_map f l = flat_map g l.
Proof.
  intros H. rewrite !flat_map_concat_map. f_equal. by apply map_ext_in.
Qed.

Lemma range_cons (lo hi : Z) :
  (lo < hi)%Z → Parser.range lo hi = lo :: Parser.range (lo + 1) hi.
Proof.
  intros H. unfold Parser.range.
  replace (Z.to_nat (hi - lo)) with (S (Z.to_nat (hi - (lo + 1)))) by lia.
  cbn [seq map]. f_equal; [lia|].
  rewrite <- seq_shift, map_map. apply map_ext. intros i. lia.
Qed.

Lemma range_nil (lo hi : Z) : (hi ≤ lo)%Z → Parser.range lo hi = [].
Proof. intros H. unfold Parser.range. by replace (Z.to_nat (hi - lo)) with 0%nat by lia. Qed.

Lemma elem_of_range (lo hi p : Z) : p ∈ Parser.range lo hi ↔ (lo ≤ p < hi)%Z.
Proof.
  unfold Parser.range. rewrite list_elem_of_fmap. split.
  - intros (i & -> & Hi). apply list_elem_of_In, in_seq in Hi. lia.
  - intros H. exists (Z.to_nat (p - lo)). split; [lia|].
    apply list_elem_of_In, in_seq. lia.
Qed.

Lemma range_lookup (lo hi : Z) (i : nat) (p : Z) :
  Parser.range lo hi !! i = Some p → p = (lo + Z.of_nat i)%Z.
Proof.
  unfold Parser.range. rewrite list_lookup_fmap.
  destruct (seq 0 (Z.to_nat (hi - lo)) !! i) as [j|] eqn:E; [|done].
  apply lookup_seq in E as [-> _]. simpl. congruence.
Qed.

Lemma tag_page_url_first (tag_id : Z) :
  Parser.tag_page_url domain tag_id 0 = domain +:+ "/?tags=" +:+ Py.str tag_id.
Proof. reflexivity. Qed.

Lemma tag_page_url_indexed (tag_id offset : Z) :
  offset ≠ 0%Z →
  Parser.tag_page_url domain tag_id offset
  = domain +:+ "/index/" +:+ Py.str offset +:+ "/?tags=" +:+ Py.str tag_id.
Proof.
  intros H. unfold Parser.tag_page_url. by destruct (Z.eqb_spec offset 0).
Qed.

Lemma tag_page_url_distinct (tag_id offset : Z) :
  offset ≠ 0%Z →
  Parser.tag_page_url domain tag_id 0 ≠ Parser.tag_page_url domain tag_id offset.
Proof.
  intros H. rewrite tag_page_url_first, tag_page_url_indexed by done.
  intros E. apply (inj (String.app domain)) in E. by norm_app in E.
Qed.

(** One page: the request made and the result. *)
Lemma get_threads_from_tag_page_eq (w : Parser.web) (tag_id offset : Z)
    (log : list Parser.event) :
  Parser.get_threads_from_tag_page lib domain w tag_id offset log
  = (match w (length log) (Parser.tag_page_url domain tag_id offset) with
     | Some soup =>
         total_pages ← Parser.total_pages_of lib tag_id soup;
         Some (Parser.threads_of_page lib domain soup, total_pages)
     | None => Some ([], 0%Z)
     end,
     log ++ [Parser.Fetch (Parser.tag_page_url domain tag_id offset)]).
Proof.
  unfold Parser.get_threads_from_tag_page, Parser._get_page.
  by destruct (w (length log) _).
Qed.

Lemma page_returns (w : Parser.web) (tag_id page : Z) (log : list Parser.event) :
  raises_at w tag_id (length log) page = false →
  Parser.get_threads_from_tag_page lib domain w tag_id (offset_of_page page) log
  = (Some (threads_at w tag_id (length log) page, count_at w tag_id (length log) page),
     log ++ [Parser.Fetch (url_of_page tag_id page)]).
Proof.
  intros H. rewrite get_threads_from_tag_page_eq.
  unfold raises_at, threads_at, count_at, url_of_page in *.
  destruct (w (length log) _) as [soup|]; [|done].
  by destruct (Parser.total_pages_of lib tag_id soup).
Qed.

Lemma page_raises (w : Parser.web) (tag_id page : Z) (log : list Parser.event) :
  raises_at w tag_id (length log) page = true →
  Parser.get_threads_from_tag_page lib domain w tag_id (offset_of_page page) log
  = (None, log ++ [Parser.Fetch (url_of_page tag_id page)]).
Proof.
  intros H. rewrite get_threads_from_tag_page_eq.
  unfold raises_at, url_of_page in *.
  destruct (w (length log) _) as [soup|]; [|done].
  by destruct (Parser.total_pages_of lib tag_id soup).
Qed.

(** Once a page has raised, the loop does nothing more. *)
Lemma walk_raised (w : Parser.web) (tag_id : Z) (pages : list Z)
    (log : list Parser.event) :
  fold_left (Parser.fetch_next_page lib domain w tag_id) pages (None, log) = (None, log).
Proof. by induction pages. Qed.

(** The loop over the pages after the first, when no page raises. *)
Lemma walk_pages (w : Parser.web) (tag_id : Z) (n : nat) :
  ∀ (lo : Z) (acc : list Parser.ThreadInfo) (log : list Parser.event),
    (∀ page, page ∈ Parser.range lo (lo + Z.of_nat n) →
       raises_at w tag_id (length log + 2 * Z.to_nat (page - lo) + 1) page = false) →
    fold_left (Parser.fetch_next_page lib domain w tag_id)
      (Parser.range lo (lo + Z.of_nat n)) (Some acc, log)
    = (Some (acc ++ flat_map
                (λ page, threads_at w tag_id
                           (length log + 2 * Z.to_nat (page - lo) + 1) page)
                (Parser.range lo (lo + Z.of_nat n))),
       log ++ flat_map (λ page, [Parser.Pause; Parser.Fetch (url_of_page tag_id page)])
                (Parser.range lo (lo + Z.of_nat n))).
Proof.
  induction n as [|n IH]; intros lo acc log Hno.
  - rewrite range_nil by lia. simpl. by rewrite !app_nil_r.
  - rewrite range_cons in * by lia.
    replace (lo + Z.of_nat (S n))%Z with ((lo + 1) + Z.of_nat n)%Z in * by lia.
    cbn [fold_left flat_map].
    unfold Parser.fetch_next_page at 2.
    change ((lo - 1) * 25)%Z with (offset_of_page lo).
    rewrite page_returns.
    2:{ rewrite length_app. cbn [length]. rewrite <- (Hno lo) by by left.
        f_equal. lia. }
    rewrite IH.
    + f_equal.
      * f_equal. rewrite <- app_assoc. f_equal. f_equal.
        -- f_equal. rewrite length_app. cbn [length]. lia.
        -- apply flat_map_ext_in. intros page Hp%list_elem_of_In%elem_of_range.
           f_equal. rewrite !length_app. cbn [length]. lia.
      * by rewrite <- !app_assoc.
    + intros page Hp. rewrite <- (Hno page) by by right.
      apply elem_of_range in Hp. f_equal. rewrite !length_app. cbn [length]. lia.
Qed.

(** The loop over the pages after the first, when page [k] is the first
    one that raises. *)
Lemma walk_pages_raise (w : Parser.web) (tag_id : Z) (n : nat) :
  ∀ (lo : Z) (acc : list Parser.ThreadInfo) (log : list Parser.event) (k : Z),
    k ∈ Parser.range lo (lo + Z.of_nat n) →
    (∀ page, page ∈ Parser.range lo (lo + Z.of_nat n) → (page < k)%Z →
       raises_at w tag_id (length log + 2 * Z.to_nat (page - lo) + 1) page = false) →
    raises_at w tag_id (length log + 2 * Z.to_nat (k - lo) + 1) k = true →
    fold_left (Parser.fetch_next_page lib domain w tag_id)
      (Parser.range lo (lo + Z.of_nat n)) (Some acc, log)
    = (None,
       log ++ flat_map (λ page, [Parser.Pause; Parser.Fetch (url_of_page tag_id page)])
                (Parser.range lo (k + 1))).
Proof.
  induction n as [|n IH]; intros lo acc log k Hk Hno Hraise.
  - rewrite range_nil in Hk by lia. by apply elem_of_nil in Hk.
  - rewrite range_cons in * by lia.
    replace (lo + Z.of_nat (S n))%Z with ((lo + 1) + Z.of_nat n)%Z in * by lia.
    cbn [fold_left].
    unfold Parser.fetch_next_page at 2.
    change ((lo - 1) * 25)%Z with (offset_of_page lo).
    destruct (decide (k = lo)) as [->|Hne].
    + rewrite page_raises.
      2:{ rewrite length_app. cbn [length]. rewrite <- Hraise. f_equal. lia. }
      rewrite walk_raised, (range_cons lo), (range_nil (lo + 1)) by lia.
      simpl. by rewrite <- app_assoc.
    + apply elem_of_cons in Hk as [?|Hk]; [done|].
      pose proof Hk as Hk'%elem_of_range.
      rewrite page_returns.
      2:{ rewrite length_app. cbn [length].
          rewrite <- (Hno lo) by (by left || lia). f_equal. lia. }
      rewrite (IH _ _ _ k Hk).
      * rewrite (range_cons lo (k + 1)) by lia. cbn [flat_map].
        by rewrite <- !app_assoc.
      * intros page Hp Hlt. rewrite <- (Hno page) by (by right || done).
        apply elem_of_range in Hp. f_equal. rewrite !length_app. cbn [length]. lia.
      * rewrite <- Hraise. f_equal. rewrite !length_app. cbn [length]. lia.
Qed.

Lemma last_page_truthy (total_pages : Z) (max_pages : option Z) :
  (if Parser.truthy max_pages
   then Z.min total_pages (default 0%Z max_pages)
   else total_pages) = last_page total_pages max_pages.
Proof.
  unfold last_page, Parser.truthy. destruct max_pages as [m|]; [|done].
  simpl. by destruct (m =? 0)%Z.
Qed.

(** The whole walk, with the last page as the code computes it, when no
    page raises. *)
Lemma get_all_threads_from_tag_eq (w : Parser.web) (tag_id : Z)
    (max_pages : option Z) (log : list Parser.event) :
  let last := last_page (total_at w tag_id (length log)) max_pages in
  (∀ page, page ∈ 1%Z :: Parser.range 2 (last + 1) →
     raises_at w tag_id (time_of log page) page = false) →
  Parser.get_all_threads_from_tag lib domain w tag_id max_pages log
  = (Some (flat_map (λ page, threads_at w tag_id (time_of log page) page)
             (1%Z :: Parser.range 2 (last + 1))),
     log ++ requests_of_walk tag_id (Parser.range 2 (last + 1))).
Proof.
  intros last Hno. unfold Parser.get_all_threads_from_tag.
  change 0%Z with (offset_of_page 1) at 1.
  rewrite page_returns.
  2:{ rewrite <- (Hno 1%Z) by by left. unfold time_of. f_equal. simpl. lia. }
  rewrite last_page_truthy. fold (total_at w tag_id (length log)). fold last.
  unfold time_of, requests_of_walk. cbn [flat_map].
  replace (length log + 2 * Z.to_nat (1 - 1))%nat with (length log) by (simpl; lia).
  destruct (decide (last + 1 ≤ 2)%Z) as [Hle|Hgt].
  - rewrite range_nil by done. simpl. by rewrite !app_nil_r.
  - pose proof (walk_pages w tag_id (Z.to_nat (last - 1)) 2) as Hwalk.
    replace (2 + Z.of_nat (Z.to_nat (last - 1)))%Z with (last + 1)%Z in Hwalk by lia.
    rewrite Hwalk.
    + f_equal.
      * f_equal. simpl. f_equal.
        apply flat_map_ext_in. intros page Hp%list_elem_of_In%elem_of_range.
        f_equal. rewrite length_app. cbn [length]. lia.
      * by rewrite <- app_assoc.
    + intros page Hp. rewrite <- (Hno page) by by right.
      apply elem_of_range in Hp. unfold time_of. f_equal.
      rewrite length_app. cbn [length]. lia.
Qed.

(** The whole walk when page [k] is the first one that raises: the walk
    raises after asking for it. *)
Lemma get_all_threads_from_tag_raises (w : Parser.web) (tag_id : Z)
    (max_pages : option Z) (log : list Parser.event) (k : Z) :
  let last := last_page (total_at w tag_id (length log)) max_pages in
  k ∈ 1%Z :: Parser.range 2 (last + 1) →
  (∀ page, page ∈ 1%Z :: Parser.range 2 (last + 1) → (page < k)%Z →
     raises_at w tag_id (time_of log page) page = false) →
  raises_at w tag_id (time_of log k) k = true →
  Parser.get_all_threads_from_tag lib domain w tag_id max_pages log
  = (None, log ++ requests_of_walk tag_id (Parser.range 2 (k + 1))).
Proof.
  intros last Hk Hno Hraise. unfold Parser.get_all_threads_from_tag.
  change 0%Z with (offset_of_page 1) at 1.
  apply elem_of_cons in Hk as [->|Hk].
  - rewrite page_raises.
    2:{ rewrite <- Hraise. unfold time_of. f_equal. simpl. lia. }
    by rewrite range_nil by lia.
  - pose proof Hk as Hk'%elem_of_range.
    rewrite page_returns.
    2:{ rewrite <- (Hno 1%Z) by (by left || lia). unfold time_of. f_equal. simpl. lia. }
    rewrite last_page_truthy. fold (total_at w tag_id (length log)). fold last.
    pose proof (walk_pages_raise w tag_id (Z.to_nat (last - 1)) 2) as Hwalk.
    replace (2 + Z.of_nat (Z.to_nat (last - 1)))%Z with (last + 1)%Z in Hwalk by lia.
    rewrite (Hwalk _ _ k Hk).
    + unfold requests_of_walk. by rewrite <- app_assoc.
    + intros page Hp Hlt. rewrite <- (Hno page) by (by right || done).
      apply elem_of_range in Hp. unfold time_of. f_equal.
      rewrite length_app. cbn [length]. lia.
    + rewrite <- Hraise. unfold time_of. f_equal. rewrite length_app. cbn [length]. lia.
Qed.

End WithInstance.




End TagWalk.

(** ** The page count of a tag listing *)

Module PageCount.

Import StrFacts.

(** The link refers to the tag: its address contains [tags=<id>]. *)
Definition references_tag (tag_id : Z) (link : Dom.element) : bool :=
  Py.contains ("tags=" +:+ Py.str tag_id) (Dom.get "href" link).

(** A page number as it is seen on a link: the digits of the offset of an
    index path in the address, or the label when it is all digits. *)
Inductive sighting :=
| Offset (ds : string)
| Label (ds : string).

(** The largest of [floor] and the numbers of a list. *)
Definition max_from (floor : Z) (ps : list Z) : Z := fold_left Z.max ps floor.

Section WithTables.

Context (uni : Uni.t).

(** A non-empty text of decimal digits. *)
Definition decimal_digits (ds : string) : Prop :=
  ds ≠ "" ∧ forallb (Py.is_decimal uni) (Py.chars ds) = true.

(** The digits of the offset in the address of the link, when the address
    has an index path. *)
Definition offset_of (link : Dom.element) : option string :=
  Parser.re_search (Parser.match_index_here uni) (Dom.get "href" link).

(** The label of the link, when it is all digits. *)
Definition label_of (link : Dom.element) : option string :=
  if Py.isdigit uni (Dom.text link) then Some (Dom.text link) else None.

(** What is seen on the links of a page that refer to the tag, in the order
    in which the code reads it. *)
Definition sightings (tag_id : Z) (links : list Dom.element) : list sighting :=
  flat_map
    (λ link,
       if references_tag tag_id link
       then option_list (Offset <$> offset_of link) ++ option_list (Label <$> label_of link)
       else [])
    links.

(** The page number of a sighting: offset // 25 + 1 for an offset, the value
    of the label for a label; [None] when [int] raises. *)
Definition page_of (s : sighting) : option Z :=
  match s with
  | Offset ds => (λ page_offset, page_offset / 25 + 1)%Z <$> Py.int uni ds
  | Label ds => Py.int uni ds
  end.

(** The page numbers observed on the links of a page, in order; [None] when
    one of the conversions raises. *)
Definition observed (tag_id : Z) (links : list Dom.element) : option (list Z) :=
  mapM page_of (sightings tag_id links).

Lemma span_digits_spec (s : string) :
  s = (Py.span_digits uni s).1 +:+ (Py.span_digits uni s).2
  ∧ ((Py.span_digits uni s).1 ≠ "" → decimal_digits (Py.span_digits uni s).1).
Proof.
  unfold Py.span_digits.
  destruct (span_decimal_spec uni (Py.chars s)) as (Happ & Hdec & _).
  destruct (Py.span_decimal uni (Py.chars s)) as [dl rl]. simpl in *.
  split.
  - by rewrite <- join_app, <- Happ, join_chars.
  - intros Hne. split; [done|].
    assert (Py.chars (Py.join dl) = dl) as ->; [|done].
    rewrite <- (take_app_length dl rl), <- Happ. apply chars_join_firstn.
Qed.

(** The greedy run of digits in front of a text that does not start with
    one. *)
Lemma span_digits_app (ds rest : string) :
  forallb (Py.is_decimal uni) (Py.chars ds) = true →
  Py.starts_inside rest = false →
  (∀ g t, Py.chars rest = g :: t → Py.is_decimal uni g = false) →
  Py.span_digits uni (ds +:+ rest) = (ds, rest).
Proof.
  intros Hds Hin Hrest. unfold Py.span_digits.
  rewrite chars_app, span_decimal_app, !join_chars by done. done.
Qed.

(** The pattern of the index path, at the start of a string. *)
Lemma match_index_here_spec (s ds : string) :
  Parser.match_index_here uni s = Some ds ↔
  decimal_digits ds ∧ ∃ post, s = "/index/" +:+ ds +:+ "/?" +:+ post.
Proof.
  unfold Parser.match_index_here. split.
  - destruct (Py.strip_prefix "/index/" s) as [rest|] eqn:E; [|done].
    apply strip_prefix_spec in E as ->.
    destruct (span_digits_spec rest) as (H1 & H2).
    destruct (Py.span_digits uni rest) as [ds' rest']. simpl in *.
    destruct (String.eqb_spec ds' ""); [done|].
    destruct (Py.startswith rest' "/?") eqn:Es; [|done].
    intros [= ->]. apply prefix_spec in Es as [post ->].
    split; [by apply H2|]. exists post. by rewrite H1.
  - intros ([Hne Hds] & post & ->).
    assert (Py.strip_prefix "/index/" ("/index/" +:+ ds +:+ "/?" +:+ post)
            = Some (ds +:+ "/?" +:+ post)) as -> by by apply strip_prefix_spec.
    rewrite span_digits_app; [|done|done|].
    + destruct (String.eqb_spec ds "") as [->|_]; [done|].
      assert (Py.startswith ("/?" +:+ post) "/?" = true) as ->; [|done].
      apply prefix_spec. by exists post.
    + intros g t. change ("/?" +:+ post) with ("/" +:+ "?" +:+ post).
      rewrite chars_cons by done. by intros [= <- _].
Qed.

Lemma page_of_offset_positive (ds : string) (p : Z) :
  page_of (Offset ds) = Some p → (1 ≤ p)%Z.
Proof.
  simpl. destruct (Py.int uni ds) as [n|] eqn:E; [|done].
  intros [= <-]. apply int_nonneg in E.
  pose proof (Z.div_pos n 25 E ltac:(lia)). lia.
Qed.

(** A text of decimal digits is converted. *)
Lemma int_decimal_digits (ds : string) :
  decimal_digits ds → is_Some (Py.int uni ds).
Proof.
  intros [Hne Hds]. destruct (Py.int uni ds) as [n|] eqn:E; [by eexists|].
  apply int_None in E as [?|(g & Hg & Hno)]; [done|].
  rewrite forallb_forall in Hds. apply list_elem_of_In, Hds in Hg. congruence.
Qed.

(** The offset of an index path is converted. *)
Lemma page_of_offset_converts (link : Dom.element) (ds : string) :
  offset_of link = Some ds → is_Some (page_of (Offset ds)).
Proof.
  unfold offset_of. intros (pre & suf & _ & Hhere & _)%re_search_Some.
  apply match_index_here_spec in Hhere as [Hds _].
  destruct (int_decimal_digits ds Hds) as [n Hn]. simpl. rewrite Hn. by eexists.
Qed.

Lemma max_from_app (floor : Z) (ps qs : list Z) :
  max_from floor (ps ++ qs) = max_from (max_from floor ps) qs.
Proof. unfold max_from. by rewrite fold_left_app. Qed.

Lemma sightings_cons (tag_id : Z) (link : Dom.element) (links : list Dom.element) :
  sightings tag_id (link :: links) = sightings tag_id [link] ++ sightings tag_id links.
Proof. unfold sightings. cbn [flat_map]. by rewrite app_nil_r. Qed.

Lemma mapM_app {A B} (f : A → option B) (l1 l2 : list A) :
  mapM f (l1 ++ l2) = k1 ← mapM f l1; k2 ← mapM f l2; Some (k1 ++ k2).
Proof.
  induction l1 as [|x l1 IH]; simpl.
  - by destruct (mapM f l2).
  - destruct (f x); [|done]. simpl. rewrite IH.
    destruct (mapM f l1); [|done]. simpl. by destruct (mapM f l2).
Qed.

Lemma mapM_None {A B} (f : A → option B) (l : list A) :
  mapM f l = None ↔ ∃ x, x ∈ l ∧ f x = None.
Proof.
  induction l as [|x l IH]; simpl.
  - split; [done|]. intros (x & Hx & _). by apply elem_of_nil in Hx.
  - destruct (f x) as [y|] eqn:E; simpl.
    + destruct (mapM f l) as [k|]; simpl.
      * split; [done|]. intros (x' & Hx' & Hn).
        apply elem_of_cons in Hx' as [->|Hx']; [congruence|].
        assert (Some k = None) as Hk; [|done].
        apply (proj2 IH). by exists x'.
      * split; [|done]. intros _. destruct (proj1 IH eq_refl) as (x' & Hx' & Hn).
        exists x'. split; [by right|done].
    + split; [|done]. intros _. exists x. split; [by left|done].
Qed.

End WithTables.

Section WithInstance.

Context (lib : Ext.t).

Lemma count_link_observed (tag_id total : Z) (link : Dom.element) :
  Parser.count_link lib tag_id total link
  = max_from total <$> observed (Ext.unicode lib) tag_id [link].
Proof.
  unfold Parser.count_link, observed, sightings, references_tag, offset_of, label_of.
  cbn [flat_map]. rewrite app_nil_r.
  destruct (Py.contains _ _); [|done].
  destruct (Parser.re_search _ _) as [ds|]; simpl.
  - destruct (Py.int (Ext.unicode lib) ds) as [n|]; [|done]. simpl.
    destruct (Py.isdigit _ _); [|done]. simpl.
    by destruct (Py.int (Ext.unicode lib) (Dom.text link)).
  - destruct (Py.isdigit _ _); [|done]. simpl.
    by destruct (Py.int (Ext.unicode lib) (Dom.text link)).
Qed.

Lemma count_raised (tag_id : Z) (links : list Dom.element) :
  fold_left (λ total_pages link, total_pages ≫= λ n, Parser.count_link lib tag_id n link)
    links None = None.
Proof. by induction links. Qed.

(** The loop of the code computes the largest of 1 and the observed page
    numbers, and raises when one of them cannot be converted. *)
Lemma total_pages_observed (tag_id : Z) (soup : Dom.soup) :
  Parser.total_pages_of lib tag_id soup
  = max_from 1 <$> observed (Ext.unicode lib) tag_id (Dom.all_links soup).
Proof.
  unfold Parser.total_pages_of. generalize 1%Z as floor.
  induction (Dom.all_links soup) as [|link links IH]; intros floor; [done|].
  cbn [fold_left mbind option_bind]. rewrite count_link_observed.
  unfold observed in *. rewrite (sightings_cons _ _ link links), mapM_app.
  destruct (mapM _ (sightings _ _ [link])) as [k1|]; simpl.
  - rewrite IH. destruct (mapM _ (sightings _ _ links)) as [k2|]; [|done].
    simpl. by rewrite max_from_app.
  - apply count_raised.
Qed.

End WithInstance.

Lemma max_from_ge_floor (floor : Z) (ps : list Z) : (floor ≤ max_from floor ps)%Z.
Proof.
  revert floor. induction ps as [|p ps IH]; intros floor; [done|].
  unfold max_from in *. cbn [fold_left]. specialize (IH (Z.max floor p)). lia.
Qed.

Lemma max_from_upper (floor : Z) (ps : list Z) (p : Z) :
  p ∈ ps → (p ≤ max_from floor ps)%Z.
Proof.
  revert floor. induction ps as [|q ps IH]; intros floor Hp.
  - by apply elem_of_nil in Hp.
  - unfold max_from in *. cbn [fold_left].
    apply elem_of_cons in Hp as [->|Hp].
    + pose proof (max_from_ge_floor (Z.max floor q) ps). unfold max_from in *. lia.
    + by apply IH.
Qed.

Lemma max_from_attained (floor : Z) (ps : list Z) :
  max_from floor ps = floor ∨ max_from floor ps ∈ ps.
Proof.
  revert floor. induction ps as [|q ps IH]; intros floor; [by left|].
  unfold max_from in *. cbn [fold_left].
  destruct (IH (Z.max floor q)) as [H|H].
  - rewrite H. destruct (Z.max_spec floor q) as [[_ ->]|[_ ->]]; [right; left|by left].
  - right. by right.
Qed.

Lemma elem_of_sightings (uni : Uni.t) (tag_id : Z) (links : list Dom.element)
    (s : sighting) :
  s ∈ sightings uni tag_id links ↔
  ∃ link, link ∈ links ∧ references_tag tag_id link = true
          ∧ ((∃ ds, s = Offset ds ∧ offset_of uni link = Some ds)
             ∨ (s = Label (Dom.text link) ∧ Py.isdigit uni (Dom.text link) = true)).
Proof.
  unfold sightings, label_of. rewrite list_elem_of_In, in_flat_map. split.
  - intros (link & Hl%list_elem_of_In & Hp). exists link.
    destruct (references_tag tag_id link); [|done].
    apply in_app_or in Hp as [Hp|Hp].
    + destruct (offset_of uni link) as [ds|]; [|done].
      destruct Hp as [<-|[]]. split_and!; [done..|]. left. by exists ds.
    + destruct (Py.isdigit uni (Dom.text link)); [|done].
      destruct Hp as [<-|[]]. split_and!; [done..|]. by right.
  - intros (link & Hl & Href & Hp). exists link. split; [by apply list_elem_of_In|].
    rewrite Href. apply in_or_app. destruct Hp as [(ds & -> & ->)|[-> ->]]; [left|right]; by left.
Qed.




End PageCount.

(** ** The image pass of the document transformer *)

Module ImagePass.

Import StrFacts.

Section WithInstance.

Context (lib : Ext.t) (cfg : Config.t) (domain : string).

Abbreviation collect_original := (Parser.collect_original lib cfg domain).
Abbreviation rewrite_img := (Parser.rewrite_img lib cfg domain).
Abbreviation _extract_filename := (Parser._extract_filename lib).
Abbreviation _normalize_url := (Parser._normalize_url lib domain).
Abbreviation _get_file_type := (Parser._get_file_type cfg).

(** The source of an image: [src], or [data-src] when [src] is empty or
    missing. *)
Definition source (img : Dom.element) : string :=
  Parser.str_or (Dom.get "src" img) (Dom.get "data-src" img).

(** The address an anchor is collected under. *)
Definition full_url (link : Dom.element) : string :=
  if Py.startswith (Dom.get "href" link) "http" then Dom.get "href" link
  else _normalize_url (Dom.get "href" link).

(** The anchor points at an original of a known type: the anchor pass
    collects it. *)
Definition is_original (link : Dom.element) : Prop :=
  Py.contains "/storage/" (Dom.get "href" link) = true
  ∧ Py.contains "/storage/t/" (Dom.get "href" link) = false
  ∧ is_Some (_get_file_type (_extract_filename (full_url link))).

(** The source is a preview path that is not a video thumbnail. *)
Definition is_plain_preview (src : string) : Prop :=
  Py.contains "/storage/t/" src = true
  ∧ Py.endswith (_extract_filename src) ".thumb" = false.

(** The source carries none of the markers of service images. *)
Definition no_service_marker (src : string) : Prop :=
  ∀ x, x ∈ Parser.service_markers → Py.contains x src = false.

(** The state of the anchor pass once it has gone through [links]. *)
Definition after_anchors (links : list Dom.element) : Parser.media_state :=
  (Parser.map_state collect_original Parser.empty_state links).1.

(** The state of the image pass before it comes to the image of index [i]. *)
Definition before_img (soup : Dom.soup) (i : nat) : Parser.media_state :=
  (Parser.map_state
     (rewrite_img (Parser.video_hash_to_filename
                     (Parser.media_files (after_anchors (Dom.all_links soup)))))
     (after_anchors (Dom.all_links soup))
     (take i (Dom.imgs soup))).1.

Lemma map_state_app {St A B} (f : St → A → St * B) (s : St) (l1 l2 : list A) :
  Parser.map_state f s (l1 ++ l2)
  = ((Parser.map_state f (Parser.map_state f s l1).1 l2).1,
     (Parser.map_state f s l1).2 ++ (Parser.map_state f (Parser.map_state f s l1).1 l2).2).
Proof.
  revert s. induction l1 as [|x l1 IH]; intros s; simpl.
  - by destruct (Parser.map_state f s l2).
  - destruct (f s x) as [s1 y]. rewrite IH.
    destruct (Parser.map_state f s1 l1) as [s2 ys]. simpl.
    by destruct (Parser.map_state f s2 l2).
Qed.

Lemma map_state_length {St A B} (f : St → A → St * B) (s : St) (l : list A) :
  length (Parser.map_state f s l).2 = length l.
Proof.
  revert s. induction l as [|x l IH]; intros s; simpl; [done|].
  destruct (f s x) as [s1 y]. specialize (IH s1).
  destruct (Parser.map_state f s1 l). simpl in *. by rewrite IH.
Qed.

(** What the loop does to the element of index [i], and to the state. *)
Lemma map_state_lookup {St A B} (f : St → A → St * B) (s : St) (l : list A) (i : nat) (x : A) :
  l !! i = Some x →
  (Parser.map_state f s l).2 !! i = Some (f (Parser.map_state f s (take i l)).1 x).2
  ∧ (Parser.map_state f s (take (S i) l)).1 = (f (Parser.map_state f s (take i l)).1 x).1.
Proof.
  intros Hx. split.
  - rewrite <- (take_drop_middle l i x Hx) at 1. rewrite map_state_app. simpl.
    rewrite lookup_app_r; rewrite map_state_length, length_take_le;
      try (apply lookup_lt_Some in Hx; lia).
    rewrite Nat.sub_diag.
    destruct (f _ x) as [s1 y]. by destruct (Parser.map_state f s1 _).
  - rewrite (take_S_r l i x Hx), map_state_app. simpl.
    by destruct (f _ x).
Qed.

(** The anchor pass records the filename of every original it meets. *)
Lemma collect_original_mono (st : Parser.media_state) (link : Dom.element) (f : string) :
  f ∈ Parser.original_filenames st →
  f ∈ Parser.original_filenames (collect_original st link).1.
Proof.
  intros H. unfold Parser.collect_original.
  destruct (_ && _); [|done]. destruct (Parser._get_file_type _ _); [|done].
  simpl. set_solver.
Qed.

Lemma collect_original_records (st : Parser.media_state) (link : Dom.element) :
  is_original link →
  _extract_filename (full_url link) ∈ Parser.original_filenames (collect_original st link).1.
Proof.
  intros (H1 & H2 & [ft H3]). unfold Parser.collect_original.
  rewrite H1, H2. simpl. fold (full_url link). rewrite H3. simpl. set_solver.
Qed.

Lemma after_anchors_mono (links : list Dom.element) (st : Parser.media_state) (f : string) :
  f ∈ Parser.original_filenames st →
  f ∈ Parser.original_filenames (Parser.map_state collect_original st links).1.
Proof.
  revert st. induction links as [|link links IH]; intros st H; simpl; [done|].
  pose proof (collect_original_mono st link f H) as H1.
  destruct (collect_original st link) as [st1 y]. specialize (IH st1 H1).
  by destruct (Parser.map_state _ st1 links).
Qed.

Lemma after_anchors_records (links : list Dom.element) (link : Dom.element) :
  link ∈ links → is_original link →
  _extract_filename (full_url link) ∈ Parser.original_filenames (after_anchors links).
Proof.
  unfold after_anchors. generalize Parser.empty_state.
  induction links as [|l links IH]; intros st Hin Horig.
  - by apply elem_of_nil in Hin.
  - simpl. apply elem_of_cons in Hin as [<-|Hin].
    + pose proof (collect_original_records st link Horig) as H1.
      destruct (collect_original st link) as [st1 y].
      pose proof (after_anchors_mono links st1 _ H1).
      by destruct (Parser.map_state _ st1 links).
    + destruct (collect_original st l) as [st1 y]. specialize (IH st1 Hin Horig).
      by destruct (Parser.map_state _ st1 links).
Qed.

(** The image pass never forgets a filename. *)
Lemma rewrite_img_mono (videos : gmap string string) (st : Parser.media_state)
    (img : Dom.element) (f : string) :
  f ∈ Parser.original_filenames st →
  f ∈ Parser.original_filenames (rewrite_img videos st img).1.
Proof.
  intros H. unfold Parser.rewrite_img.
  repeat (case_match; simpl; try done); set_solver.
Qed.

Lemma img_pass_mono (videos : gmap string string) (imgs : list Dom.element)
    (st : Parser.media_state) (f : string) :
  f ∈ Parser.original_filenames st →
  f ∈ Parser.original_filenames (Parser.map_state (rewrite_img videos) st imgs).1.
Proof.
  revert st. induction imgs as [|img imgs IH]; intros st H; simpl; [done|].
  pose proof (rewrite_img_mono videos st img f H) as H1.
  destruct (rewrite_img videos st img) as [st1 y]. specialize (IH st1 H1).
  by destruct (Parser.map_state _ st1 imgs).
Qed.

(** A preview path is a storage path, and is not empty. *)
Lemma preview_is_storage (src : string) :
  Py.contains "/storage/t/" src = true →
  Py.contains "/storage/" src = true ∧ src ≠ "".
Proof.
  intros (pre & post & ->)%contains_spec. split.
  - apply contains_spec. exists pre, ("t/" +:+ post). by norm_app.
  - destruct pre; by norm_app.
Qed.

(** The body of the loop on the preview of a known original. *)
Lemma rewrite_img_preview (videos : gmap string string) (st : Parser.media_state)
    (img : Dom.element) :
  is_plain_preview (source img) →
  no_service_marker (source img) →
  _extract_filename (source img) ∈ Parser.original_filenames st →
  rewrite_img videos st img
  = (st, Parser.point_at
           ("media/" +:+ Parser.get_html_filename cfg (_extract_filename (source img))) img).
Proof.
  intros [Hprev Hthumb] Hmark Hknown. unfold Parser.rewrite_img. fold (source img).
  destruct (preview_is_storage _ Hprev) as [Hstorage Hne].
  rewrite Hstorage. destruct (String.eqb_spec (source img) ""); [done|].
  cbn [negb andb].
  assert (existsb (λ x, Py.contains x (source img)) Parser.service_markers = false) as ->.
  { apply not_true_is_false. intros (x & Hx & Hc)%existsb_exists.
    rewrite (Hmark x) in Hc; [done|by apply list_elem_of_In]. }
  rewrite Hprev, Hthumb. cbn [andb]. by rewrite bool_decide_true.
Qed.

(** The name an original is stored under, as the anchor pass computes it:
    the JPG name for an image, the name itself for the rest. *)
Definition local_name (ft : Parser.file_type) (filename : string) : string :=
  if decide (ft = Parser.Image) then Parser.get_html_filename cfg filename else filename.

(** Every convertible extension is in the table of the image extensions, as
    in the configuration shipped. *)
Definition convertible_are_images : Prop :=
  ∀ e, e ∈ Parser.CONVERTIBLE_EXTENSIONS → e ∈ Config.MEDIA_EXTENSIONS_images cfg.

Lemma collect_original_rewrites (st : Parser.media_state) (link : Dom.element)
    (ft : Parser.file_type) :
  is_original link →
  _get_file_type (_extract_filename (full_url link)) = Some ft →
  (collect_original st link).2
  = Dom.set "href" ("media/" +:+ local_name ft (_extract_filename (full_url link))) link.
Proof.
  intros (H1 & H2 & _) H3. unfold Parser.collect_original.
  rewrite H1, H2. cbn [negb andb]. fold (full_url link). by rewrite H3.
Qed.

Lemma take_drop_string (n : nat) (s : string) : Py.take n s +:+ Py.drop n s = s.
Proof.
  unfold Py.take. revert s. induction n as [|n IH]; intros [|c s]; simpl; try done.
  by rewrite sapp_cons, IH.
Qed.

Lemma splitext_app (p base ext : string) :
  OsPath.splitext p = (base, ext) → p = base +:+ ext.
Proof.
  unfold OsPath.splitext. destruct (OsPath.rfind "." p) as [i|].
  - destruct (_ && _); intros [= <- <-]; [by rewrite take_drop_string|by rewrite sapp_nil_r].
  - intros [= <- <-]. by rewrite sapp_nil_r.
Qed.

Lemma lower_app (s t : string) : Py.lower (s +:+ t) = Py.lower s +:+ Py.lower t.
Proof. induction s as [|c s IH]; [done|]. rewrite sapp_cons. simpl. by rewrite IH. Qed.

Lemma endswith_app (s t : string) : Py.endswith (s +:+ t) t = true.
Proof.
  induction s as [|c s IH].
  - rewrite sapp_nil_l. destruct t; simpl; by rewrite ?Ascii.eqb_refl, ?String.eqb_refl.
  - rewrite sapp_cons. simpl. by rewrite IH, orb_true_r.
Qed.

Lemma str_in_elem_of (x : string) (xs : list string) :
  Parser.str_in x xs = true ↔ x ∈ xs.
Proof.
  unfold Parser.str_in. rewrite existsb_exists. split.
  - intros (y & Hy & ->%String.eqb_eq). by apply list_elem_of_In.
  - intros H. exists x. split; [by apply list_elem_of_In|apply String.eqb_refl].
Qed.

(** A file that is not of image type keeps its name in the page. *)
Lemma get_html_filename_not_image (filename : string) (ft : Parser.file_type) :
  convertible_are_images →
  _get_file_type filename = Some ft → ft ≠ Parser.Image →
  Parser.get_html_filename cfg filename = filename.
Proof.
  intros Htab Hft Hne. unfold Parser.get_html_filename.
  destruct (negb _); [done|].
  destruct (OsPath.splitext filename) as [base ext] eqn:E.
  destruct (Parser.str_in (Py.lower ext) Parser.CONVERTIBLE_EXTENSIONS) eqn:Ec; [|done].
  exfalso. apply str_in_elem_of, Htab in Ec.
  unfold Parser._get_file_type in Hft.
  destruct (existsb _ (Config.MEDIA_EXTENSIONS_images cfg)) eqn:Ei; [congruence|].
  apply not_true_iff_false in Ei. apply Ei, existsb_exists.
  exists (Py.lower ext). split; [by apply list_elem_of_In|].
  rewrite (splitext_app _ _ _ E), lower_app. apply endswith_app.
Qed.

Lemma local_name_html (filename : string) (ft : Parser.file_type) :
  convertible_are_images →
  _get_file_type filename = Some ft →
  local_name ft filename = Parser.get_html_filename cfg filename.
Proof.
  intros Htab Hft. unfold local_name. destruct (decide (ft = Parser.Image)); [done|].
  symmetry. by eapply get_html_filename_not_image.
Qed.

Lemma get_set_eq (name v : string) (el : Dom.element) :
  Dom.get name (Dom.set name v el) = v.
Proof. unfold Dom.get, Dom.set. simpl. by rewrite lookup_insert_eq. Qed.

Lemma get_set_ne (name other v : string) (el : Dom.element) :
  name ≠ other → Dom.get name (Dom.set other v el) = Dom.get name el.
Proof. intros H. unfold Dom.get, Dom.set. simpl. by rewrite lookup_insert_ne. Qed.

Lemma get_opt_set_ne (name other v : string) (el : Dom.element) :
  name ≠ other → Dom.get_opt name (Dom.set other v el) = Dom.get_opt name el.
Proof. intros H. unfold Dom.get_opt, Dom.set. simpl. by rewrite lookup_insert_ne. Qed.

Lemma has_set_ne (name other v : string) (el : Dom.element) :
  name ≠ other → Dom.has name (Dom.set other v el) = Dom.has name el.
Proof. intros H. unfold Dom.has, Dom.set. simpl. by rewrite lookup_insert_ne. Qed.

Lemma has_get (name : string) (el : Dom.element) :
  Dom.has name el = negb (String.eqb (Dom.get name el) "").
Proof. unfold Dom.has, Dom.get. by destruct (Dom.attrs el !! name). Qed.

(** What the two guarded assignments do to an image that has a source. *)
Lemma point_at_src (v : string) (img : Dom.element) :
  Dom.has "src" img = true → Dom.get "src" (Parser.point_at v img) = v.
Proof.
  intros H. unfold Parser.point_at. rewrite H.
  destruct (Dom.has "data-src" _); [rewrite get_set_ne by done|]; apply get_set_eq.
Qed.

Lemma point_at_data_src (v : string) (img : Dom.element) :
  Dom.has "data-src" img = true → Dom.get "data-src" (Parser.point_at v img) = v.
Proof.
  intros H. unfold Parser.point_at.
  destruct (Dom.has "src" img); [rewrite has_set_ne by done|]; rewrite H; apply get_set_eq.
Qed.

Lemma point_at_other (v name : string) (img : Dom.element) :
  name ≠ "src" → name ≠ "data-src" →
  Dom.get_opt name (Parser.point_at v img) = Dom.get_opt name img.
Proof.
  intros H1 H2. unfold Parser.point_at.
  destruct (Dom.has "src" img); destruct (Dom.has "data-src" _);
    by rewrite ?get_opt_set_ne by done.
Qed.

Lemma point_at_unset (v name : string) (img : Dom.element) :
  Dom.has name img = false → Dom.get_opt name (Parser.point_at v img) = Dom.get_opt name img.
Proof.
  intros H. unfold Parser.point_at.
  destruct (decide (name = "src")) as [->|Hs].
  - rewrite H. destruct (Dom.has "data-src" img); by rewrite ?get_opt_set_ne by done.
  - destruct (decide (name = "data-src")) as [->|Hd].
    + destruct (Dom.has "src" img); [rewrite has_set_ne by done|]; rewrite H;
        by rewrite ?get_opt_set_ne by done.
    + by apply point_at_other.
Qed.

Lemma source_point_at (v : string) (img : Dom.element) :
  source img ≠ "" → v ≠ "" → source (Parser.point_at v img) = v.
Proof.
  intros Hsrc Hv. unfold source, Parser.str_or in *.
  destruct (Dom.has "src" img) eqn:Es.
  - rewrite point_at_src by done. by destruct (String.eqb_spec v "").
  - pose proof Es as Es'. rewrite has_get in Es'. apply negb_false_iff in Es'.
    rewrite Es' in Hsrc.
    assert (Dom.has "data-src" img = true) as Hd.
    { rewrite has_get. by destruct (String.eqb_spec (Dom.get "data-src" img) ""). }
    rewrite point_at_data_src by done.
    assert (Dom.get "src" (Parser.point_at v img) = Dom.get "src" img) as ->.
    { pose proof (point_at_unset v "src" img Es) as Hu.
      unfold Dom.get_opt in Hu. unfold Dom.get. by rewrite Hu. }
    by rewrite Es'.
Qed.

Lemma parse_thread_media_eq (soup : Dom.soup) :
  Parser.parse_thread_media lib cfg domain soup
  = {| Parser.mp_state := before_img soup (length (Dom.imgs soup));
       Parser.mp_links :=
         (Parser.map_state collect_original Parser.empty_state (Dom.all_links soup)).2;
       Parser.mp_imgs :=
         (Parser.map_state
            (rewrite_img (Parser.video_hash_to_filename
                            (Parser.media_files (after_anchors (Dom.all_links soup)))))
            (after_anchors (Dom.all_links soup)) (Dom.imgs soup)).2 |}.
Proof.
  unfold Parser.parse_thread_media, before_img, after_anchors.
  rewrite firstn_all.
  destruct (Parser.map_state collect_original _ _) as [st1 links]. simpl.
  by destruct (Parser.map_state _ st1 _).
Qed.


End WithInstance.


End ImagePass.

(** ** The image transcoder *)

Module Transcoder.

Import Pil.

Lemma bind_Ok {A B} (r : result A) (f : A → result B) (b : B) :
  Pil.bind r f = Ok b → ∃ a, r = Ok a ∧ f a = Ok b.
Proof. destruct r as [a|e]; [|done]. intros H. by exists a. Qed.

(** Whatever the body returns was produced by the encoder, from an input
    the decoder accepted. *)
Lemma convert_body_saved (pil : Pil.t) (content : bytes) (quality : Z) (jpg : bytes) :
  Downloader.convert_body pil content quality = Ok jpg →
  (∃ img, Pil.Image_open pil content = Ok img)
  ∧ ∃ img', Pil.save_jpeg pil img' quality = Ok jpg.
Proof.
  unfold Downloader.convert_body.
  intros (_ & _ & H)%bind_Ok.
  apply bind_Ok in H as (img & Hopen & H).
  apply bind_Ok in H as (img' & _ & H).
  split; by eexists.
Qed.

(** C7.  For every input, [convert_image_to_jpg] returns a byte string and
    raises nothing.  It returns the encoder's output when the body of its
    [try] succeeds, and the input bytes unchanged whenever any step of the
    body raises: in particular when the decoder raises on the input, and
    when the encoder raises on every image. *)
Theorem transcoder_never_fails (pil : Pil.t) (content : bytes) (quality : Z) :
  (∃ out, Downloader.convert_image_to_jpg pil content quality = Ok out)
  ∧ (∀ e, Downloader.convert_body pil content quality = Raise e →
          Downloader.convert_image_to_jpg pil content quality = Ok content)
  ∧ (∀ jpg, Downloader.convert_body pil content quality = Ok jpg →
            Downloader.convert_image_to_jpg pil content quality = Ok jpg)
  ∧ (∀ e, Pil.Image_open pil content = Raise e →
          Downloader.convert_image_to_jpg pil content quality = Ok content)
  ∧ ((∀ img, ∃ e, Pil.save_jpeg pil img quality = Raise e) →
     Downloader.convert_image_to_jpg pil content quality = Ok content).
Proof.
  unfold Downloader.convert_image_to_jpg.
  destruct (Downloader.convert_body pil content quality) as [jpg|e] eqn:E.
  - split_and!; [by eexists|done|by intros ? [= ->]| |].
    + intros e He. apply convert_body_saved in E as ([img Hopen] & _). congruence.
    + intros Hsave. apply convert_body_saved in E as (_ & img' & Hs).
      destruct (Hsave img') as [e He]. congruence.
  - split_and!; by eauto.
Qed.

(** The transcoder on an input the decoder refuses, and with an encoder
    that fails. *)
Lemma transcoder_never_fails_witness :
  Pil.Image_open Sample.pil_undecodable [Byte.x00] = Raise "UnidentifiedImageError"
  ∧ Downloader.convert_image_to_jpg Sample.pil_undecodable [Byte.x00] 85 = Ok [Byte.x00]
  ∧ (∀ img, ∃ e, Pil.save_jpeg Sample.pil_no_encoder img 85 = Raise e)
  ∧ Downloader.convert_image_to_jpg Sample.pil_no_encoder [Byte.x00] 85 = Ok [Byte.x00]
  ∧ Downloader.convert_image_to_jpg Sample.pil_toy [Byte.x00] 85
    = Ok [Byte.xff; Byte.xd8; Byte.x00].
Proof.
  assert (∀ img, ∃ e, Pil.save_jpeg Sample.pil_no_encoder img 85 = Raise e) as Hsave
    by (intros img; by eexists).
  split_and!; [reflexivity| |exact Hsave| |].
  - exact (proj1 (proj2 (proj2 (proj2
             (transcoder_never_fails Sample.pil_undecodable [Byte.x00] 85)))) _ eq_refl).
  - exact (proj2 (proj2 (proj2 (proj2
             (transcoder_never_fails Sample.pil_no_encoder [Byte.x00] 85)))) Hsave).
  - exact (proj1 (proj2 (proj2
             (transcoder_never_fails Sample.pil_toy [Byte.x00] 85))) _ eq_refl).
Defined.

End Transcoder.

(** ** Running coroutines *)

Module Run.

Import Downloader.

(** [evs] happen to task [i], in order. *)
Definition add_events (i : nat) (evs : list event) (w : world) : world :=
  {| stats := stats w; disk := disk w; semaphore := semaphore w; pbar := pbar w;
     log := log w ++ map (pair i) evs |}.

(** The events of task [i] in a log. *)
Definition events_of (i : nat) (l : list (nat * event)) : list event :=
  omap (λ je, if decide (je.1 = i) then Some je.2 else None) l.

Lemma mbind_eq {A B} (p : prog A) (f : A → prog B) : (p ≫= f) = bind p f.
Proof. reflexivity. Qed.

Lemma run_task_bind {A B} (o : oracle) (i : nat) (p : prog A) (f : A → prog B) (w : world) :
  run_task o i (bind p f) w
  = match run_task o i p w with
    | Some (w', a) => run_task o i (f a) w'
    | None => None
    end.
Proof.
  revert w. induction p as [a|k IH|c n k IH|n k IH|k IH|k IH|u k IH|k IH|secs k IH|k IH
                            |path content k IH]; intros w; simpl; try done.
  - by destruct (0 <? semaphore w)%Z.
  - by destruct (on_write o _ path content).
Qed.

(** Unfold the monad operations and run the actions at the head. *)
Ltac run_head :=
  repeat first
    [ rewrite mbind_eq
    | progress unfold mret, prog_ret
    | progress cbn [bind run_task] ].

Lemma record_add_events (i : nat) (e : event) (w : world) :
  record i e w = add_events i [e] w.
Proof. reflexivity. Qed.

Lemma add_events_nil (i : nat) (w : world) : add_events i [] w = w.
Proof. destruct w. unfold add_events. simpl. by rewrite app_nil_r. Qed.

Lemma add_events_app (i : nat) (evs1 evs2 : list event) (w : world) :
  add_events i evs2 (add_events i evs1 w) = add_events i (evs1 ++ evs2) w.
Proof. unfold add_events. simpl. by rewrite map_app, app_assoc. Qed.

Lemma add_events_with_stats (i : nat) (evs : list event) (s : DownloadStats) (w : world) :
  add_events i evs (with_stats s w) = with_stats s (add_events i evs w).
Proof. reflexivity. Qed.

Lemma events_of_app (i : nat) (l1 l2 : list (nat * event)) :
  events_of i (l1 ++ l2) = events_of i l1 ++ events_of i l2.
Proof. unfold events_of. apply omap_app. Qed.

Lemma events_of_own (i : nat) (evs : list event) : events_of i (map (pair i) evs) = evs.
Proof.
  unfold events_of. induction evs as [|e evs IH]; [done|].
  csimpl. rewrite decide_True by done. by rewrite IH.
Qed.

Lemma events_of_other (i j : nat) (evs : list event) :
  i ≠ j → events_of i (map (pair j) evs) = [].
Proof.
  intros H. unfold events_of. induction evs as [|e evs IH]; [done|].
  csimpl. by rewrite decide_False.
Qed.

End Run.

(** ** The retrying downloader *)

Module Retry.

Import Downloader Run.

(** The base delay of the backoff: the factor [1] of [1 * (attempt + 1)]. *)
Definition base_delay : Z := 1.

(** What matters of an event for the retry discipline: an attempt, or a
    wait. *)
Inductive tick :=
| Attempt (u : string)
| Wait (secs : Z).

Definition ticks (evs : list event) : list tick :=
  omap (λ e, match e with
             | Requested u _ => Some (Attempt u)
             | Slept secs => Some (Wait secs)
             | _ => None
             end) evs.

Definition attempts_in (ts : list tick) : list string :=
  omap (λ t, match t with Attempt u => Some u | Wait _ => None end) ts.

Definition waits_in (ts : list tick) : list Z :=
  omap (λ t, match t with Wait secs => Some secs | Attempt _ => None end) ts.

(** [n] attempts with a wait between consecutive ones, the wait after the
    attempt of index [k] (counted from 1) being [k * base_delay]. *)
Definition backoff (u : string) (n : nat) : list tick :=
  match n with
  | O => []
  | S m =>
      Attempt u
      :: flat_map (λ k, [Wait (Z.of_nat k * base_delay); Attempt u]) (seq 1 m)
  end.

(** The attempt made at time [t] fails with a transient error: the request
    raises (timeout, transport error, anything else), or the status is
    neither 200 nor 404, or it is 200 and reading the body raises. *)
Definition transient_at (o : oracle) (u : string) (t : nat) : Prop :=
  match on_get o t u with
  | inl _ => True
  | inr status =>
      if (status =? 200)%Z then ∃ e, on_read o (S t) = inl e
      else status ≠ 404%Z
  end.

(** The timeline of the attempts [a], [a + 1], ... below [n], as the loop
    produces it. *)
Definition loop_ticks (u : string) (n : Z) (attempts : list Z) : list tick :=
  flat_map (λ attempt,
              Attempt u :: if (attempt <? n - 1)%Z then [Wait (1 * (attempt + 1))] else [])
           attempts.

Lemma ticks_app (evs1 evs2 : list event) : ticks (evs1 ++ evs2) = ticks evs1 ++ ticks evs2.
Proof. apply omap_app. Qed.

Lemma length_log_record (i : nat) (e : event) (w : world) :
  length (log (record i e w)) = S (length (log w)).
Proof. simpl. rewrite length_app. simpl. lia. Qed.

(** A failing attempt: one request, and control reaches the retry code. *)
Lemma attempt_once_transient (o : oracle) (i : nat) (u : string) (w : world) :
  transient_at o u (length (log w)) →
  ∃ evs, run_task o i (attempt_once u) w = Some (add_events i evs w, None)
         ∧ ticks evs = [Attempt u].
Proof.
  unfold transient_at. intros H. unfold attempt_once, http_get, http_read.
  run_head.
  destruct (on_get o (length (log w)) u) as [e|status] eqn:E.
  - run_head. by exists [Requested u (inl e)].
  - destruct (status =? 200)%Z eqn:E200.
    + destruct H as [e He]. run_head.
      rewrite length_log_record, He. run_head.
      exists [Requested u (inr status); ReadBody (inl e)]. split; [|done].
      by rewrite !record_add_events, add_events_app.
    + destruct (Z.eqb_spec status 404); [done|]. run_head.
      by exists [Requested u (inr status)].
Qed.

Lemma bump_zero (c : counter) (s : DownloadStats) : bump c 0 s = s.
Proof. destruct s, c; unfold bump; simpl; f_equal; lia. Qed.

Lemma bump_bump (c : counter) (n m : Z) (s : DownloadStats) :
  bump c m (bump c n s) = bump c (n + m) s.
Proof. destruct s, c; unfold bump; simpl; f_equal; lia. Qed.

(** The loop from attempt [a] on, when every attempt fails. *)
Lemma retry_loop_transient (o : oracle) (i : nat) (u : string) (n : Z) (m : nat) :
  (∀ t, transient_at o u t) →
  ∀ (a : Z) (w : world),
    (a + Z.of_nat m = n)%Z →
    ∃ evs,
      run_task o i (retry_loop n u (Parser.range a n)) w
      = Some (add_events i evs
                (with_stats (bump Retried (Z.max 0 (Z.of_nat m - 1)) (stats w)) w), None)
      ∧ ticks evs = loop_ticks u n (Parser.range a n).
Proof.
  intros Hfail. induction m as [|m IH]; intros a w Ha.
  - rewrite TagWalk.range_nil by lia. exists []. split; [|done].
    replace (Z.max 0 (Z.of_nat 0 - 1)) with 0%Z by lia.
    rewrite bump_zero, add_events_nil. cbn [retry_loop]. run_head. by destruct w.
  - rewrite TagWalk.range_cons by lia. cbn [retry_loop loop_ticks flat_map].
    rewrite mbind_eq, run_task_bind.
    destruct (attempt_once_transient o i u w (Hfail _)) as (evs1 & -> & Ht1).
    destruct (Z.ltb_spec a (n - 1)) as [Hlt|Hge].
    + unfold incr, sleep. run_head.
      rewrite !record_add_events.
      destruct (IH (a + 1)%Z
                  (add_events i [Slept (1 * (a + 1))]
                     (add_events i [Counted Retried 1]
                        (with_stats (bump Retried 1 (stats (add_events i evs1 w)))
                           (add_events i evs1 w))))
                  ltac:(lia)) as (evs2 & -> & Ht2).
      exists (evs1 ++ [Counted Retried 1; Slept (1 * (a + 1))] ++ evs2). split.
      * f_equal. f_equal. unfold add_events, with_stats. simpl.
        f_equal; [f_equal; lia|].
        rewrite !map_app. simpl. by rewrite <- !app_assoc.
      * rewrite !ticks_app, Ht1, Ht2. done.
    + run_head.
      destruct (IH (a + 1)%Z (add_events i evs1 w) ltac:(lia)) as (evs2 & -> & Ht2).
      exists (evs1 ++ evs2). split.
      * f_equal. f_equal. rewrite add_events_with_stats, add_events_app.
        rewrite add_events_with_stats. f_equal. simpl. f_equal. lia.
      * by rewrite ticks_app, Ht1, Ht2.
Qed.

(** The timeline of the whole loop is the backoff pattern. *)
Lemma loop_ticks_backoff (u : string) (n : nat) :
  loop_ticks u (Z.of_nat n) (Parser.range 0 (Z.of_nat n)) = backoff u n.
Proof.
  destruct n as [|m]; [done|].
  assert (∀ k a, (0 ≤ a)%Z → (a + Z.of_nat (S k) = Z.of_nat (S m))%Z →
            loop_ticks u (Z.of_nat (S m)) (Parser.range a (Z.of_nat (S m)))
            = Attempt u
              :: flat_map (λ j, [Wait (Z.of_nat j * base_delay); Attempt u])
                   (seq (Z.to_nat a + 1) k)) as H.
  { induction k as [|k IH]; intros a Ha0 Ha.
    - rewrite TagWalk.range_cons, TagWalk.range_nil by lia.
      cbn [loop_ticks flat_map seq]. destruct (Z.ltb_spec a (Z.of_nat (S m) - 1)); [lia|done].
    - rewrite TagWalk.range_cons by lia. cbn [loop_ticks flat_map].
      destruct (Z.ltb_spec a (Z.of_nat (S m) - 1)); [|lia].
      fold (loop_ticks u (Z.of_nat (S m)) (Parser.range (a + 1) (Z.of_nat (S m)))).
      rewrite (IH (a + 1)%Z) by lia. cbn [seq flat_map app].
      replace (Z.to_nat (a + 1) + 1)%nat with (S (Z.to_nat a + 1)) by lia.
      unfold base_delay. do 3 f_equal. lia. }
  rewrite (H m 0%Z) by lia. done.
Qed.

Lemma backoff_attempts (u : string) (n : nat) : attempts_in (backoff u n) = replicate n u.
Proof.
  destruct n as [|m]; [done|]. unfold backoff. cbn [attempts_in omap]. simpl. f_equal.
  generalize 1%nat. induction m as [|m IH]; intros k; [done|].
  simpl. f_equal. apply IH.
Qed.

Lemma backoff_waits (u : string) (n : nat) :
  waits_in (backoff u n) = map (λ k, Z.of_nat k * base_delay)%Z (seq 1 (n - 1)).
Proof.
  destruct n as [|m]; [done|]. unfold backoff. cbn [waits_in omap]. simpl.
  rewrite Nat.sub_0_r.
  generalize 1%nat. induction m as [|m IH]; intros k; [done|].
  simpl. f_equal. apply IH.
Qed.

Lemma waits_increasing (a n : nat) :
  StronglySorted Z.lt (map (λ k, Z.of_nat k * base_delay)%Z (seq a n)).
Proof.
  revert a. induction n as [|n IH]; intros a; simpl; constructor; [apply IH|].
  apply Forall_forall. intros x (k & <- & Hk%in_seq)%list_elem_of_In%in_map_iff.
  unfold base_delay. lia.
Qed.

(** The whole call, when every attempt fails. *)
Lemma download_with_retry_transient (o : oracle) (i : nat) (w : world)
    (max_retries : Z) (u : string) :
  (∀ t, transient_at o u t) →
  ∃ evs,
    run_task o i (_download_with_retry max_retries u) w
    = Some (add_events i evs
              (with_stats (bump Retried (Z.max 0 (max_retries - 1)) (stats w)) w), None)
    ∧ ticks evs = backoff u (Z.to_nat max_retries).
Proof.
  intros Hfail. unfold _download_with_retry.
  destruct (Z.le_gt_cases 0 max_retries) as [Hpos|Hneg].
  - destruct (retry_loop_transient o i u max_retries (Z.to_nat max_retries) Hfail 0%Z w
                ltac:(lia)) as (evs & Hrun & Ht).
    rewrite Z2Nat.id in Hrun by done.
    exists evs. split; [exact Hrun|].
    rewrite Ht. rewrite <- (Z2Nat.id max_retries) at 1 2 by done.
    apply loop_ticks_backoff.
  - rewrite TagWalk.range_nil by lia. exists []. cbn [retry_loop]. run_head.
    replace (Z.max 0 (max_retries - 1)) with 0%Z by lia.
    rewrite bump_zero, add_events_nil. split; [by destruct w|].
    by replace (Z.to_nat max_retries) with 0%nat by lia.
Qed.

(** C3.  When every attempt on a URL fails with a transient error, the
    retrying downloader returns the failure value [None] after exactly
    [max_retries] attempts on that URL, with one wait between consecutive
    attempts: after the attempt of index [k] it waits [k * base_delay], so
    the waits are 1, 2, ..., [max_retries - 1] times the base delay, strictly
    increasing.  The counter [retried] goes up by one for each of these
    waits, that is by [max_retries - 1] in all, and nothing else of the
    shared state changes. *)
Theorem retry_on_transient_errors (o : oracle) (i : nat) (w : world)
    (max_retries : Z) (u : string) :
  (0 ≤ max_retries)%Z →
  (∀ t, transient_at o u t) →
  ∃ w' evs,
    run_task o i (_download_with_retry max_retries u) w = Some (w', None)
    ∧ log w' = log w ++ map (pair i) evs
    ∧ ticks evs = backoff u (Z.to_nat max_retries)
    ∧ attempts_in (ticks evs) = replicate (Z.to_nat max_retries) u
    ∧ Z.of_nat (length (attempts_in (ticks evs))) = max_retries
    ∧ waits_in (ticks evs)
      = map (λ k, Z.of_nat k * base_delay)%Z (seq 1 (Z.to_nat max_retries - 1))
    ∧ StronglySorted Z.lt (waits_in (ticks evs))
    ∧ stats w' = bump Retried (Z.of_nat (length (waits_in (ticks evs)))) (stats w)
    ∧ Z.of_nat (length (waits_in (ticks evs))) = Z.max 0 (max_retries - 1)
    ∧ disk w' = disk w ∧ semaphore w' = semaphore w ∧ pbar w' = pbar w.
Proof.
  intros Hpos Hfail.
  destruct (download_with_retry_transient o i w max_retries u Hfail) as (evs & Hrun & Ht).
  eexists _, evs. split; [exact Hrun|].
  rewrite Ht, backoff_attempts, backoff_waits.
  rewrite length_replicate, length_map, length_seq.
  split_and!; try done; try lia.
  - apply waits_increasing.
  - simpl. f_equal. lia.
Qed.

(** Three attempts against a server that always answers 500. *)
Lemma retry_on_transient_errors_witness :
  (0 ≤ 3)%Z
  ∧ (∀ t, transient_at (Sample.server 500 []) "u" t)
  ∧ ∃ w' evs,
      run_task (Sample.server 500 []) 0 (_download_with_retry 3 "u") Sample.fresh_world
      = Some (w', None)
      ∧ attempts_in (ticks evs) = ["u"; "u"; "u"]
      ∧ waits_in (ticks evs) = [1; 2]%Z
      ∧ retried (stats w') = 2%Z.
Proof.
  assert (∀ t, transient_at (Sample.server 500 []) "u" t) as Hfail by (intros t; by compute).
  split; [lia|]. split; [exact Hfail|].
  destruct (retry_on_transient_errors (Sample.server 500 []) 0 Sample.fresh_world 3 "u"
              ltac:(lia) Hfail)
    as (w' & evs & Hrun & _ & _ & Hatt & _ & Hwaits & _ & Hstats & _).
  exists w', evs. split_and!; [exact Hrun|exact Hatt|exact Hwaits|].
  rewrite Hstats, Hwaits. reflexivity.
Defined.

(** C4, as amended.  When the first response to a URL is a 404, the
    retrying downloader makes this one request and nothing else: no wait, no
    counter incremented, no other change of the shared state.  It returns
    [None], which is also what it returns when every attempt fails with a
    transient error: the two outcomes are one value. *)
Theorem not_found_stops_retrying (o : oracle) (i : nat) (w : world)
    (max_retries : Z) (u : string) :
  (1 ≤ max_retries)%Z →
  on_get o (length (log w)) u = inr 404%Z →
  run_task o i (_download_with_retry max_retries u) w
  = Some (record i (Requested u (inr 404%Z)) w, None)
  ∧ attempts_in (ticks [Requested u (inr 404%Z)]) = [u]
  ∧ waits_in (ticks [Requested u (inr 404%Z)]) = []
  ∧ stats (record i (Requested u (inr 404%Z)) w) = stats w
  ∧ disk (record i (Requested u (inr 404%Z)) w) = disk w
  ∧ (∀ o' i' w', (∀ t, transient_at o' u t) →
       snd <$> run_task o' i' (_download_with_retry max_retries u) w' = Some None).
Proof.
  intros Hpos Hget. split_and!; try done.
  - unfold _download_with_retry. rewrite TagWalk.range_cons by lia.
    cbn [retry_loop]. unfold attempt_once, http_get. run_head. rewrite Hget.
    by run_head.
  - intros o' i' w' Hfail.
    destruct (download_with_retry_transient o' i' w' max_retries u Hfail) as (evs & -> & _).
    done.
Qed.

(** One request against a server that always answers 404. *)
Lemma not_found_stops_retrying_witness :
  (1 ≤ 5)%Z
  ∧ on_get (Sample.server 404 []) (length (log Sample.fresh_world)) "u" = inr 404%Z
  ∧ run_task (Sample.server 404 []) 0 (_download_with_retry 5 "u") Sample.fresh_world
    = Some (record 0 (Requested "u" (inr 404%Z)) Sample.fresh_world, None).
Proof.
  split; [lia|]. split; [reflexivity|].
  exact (proj1 (not_found_stops_retrying (Sample.server 404 []) 0 Sample.fresh_world 5 "u"
                  ltac:(lia) eq_refl)).
Defined.

(** C4 as stated fails: the outcome of a 404 and the outcome of five failed
    attempts are the same value, [None]. *)
Lemma not_found_is_plain_failure :
  snd <$> run_task (Sample.server 404 []) 0 (_download_with_retry 5 "u") Sample.fresh_world
  = Some None
  ∧ snd <$> run_task (Sample.server 500 []) 0 (_download_with_retry 5 "u") Sample.fresh_world
    = Some None
  ∧ snd <$> run_task (Sample.server 404 []) 0 (_download_with_retry 5 "u") Sample.fresh_world
    = snd <$> run_task (Sample.server 500 []) 0 (_download_with_retry 5 "u")
                Sample.fresh_world.
Proof. split_and!; reflexivity. Qed.

End Retry.

(** ** The download engine *)

Module Engine.

Import Downloader Run.

(** The three counters of the terminal outcomes. *)
Definition is_terminal (c : counter) : bool :=
  match c with
  | Completed | Failed | Skipped => true
  | _ => false
  end.

(** The assets accounted for so far. *)
Definition settled (s : DownloadStats) : Z := (completed s + failed s + skipped s)%Z.

(** 1 for an event that counts a terminal outcome, 0 for the rest. *)
Definition terminal_event (e : event) : nat :=
  match e with
  | Counted c _ => if is_terminal c then 1 else 0
  | _ => 0
  end.

(** The number of terminal outcomes counted in a list of events. *)
Definition terminal_count (evs : list event) : nat :=
  sum_list_with terminal_event evs.

(** [owes post n p]: on every path through [p], whatever the outside world
    answers, the terminal counters are incremented, always by one, [n] times
    less [post a] before [p] returns [a]. *)
Inductive owes {A} (post : A → nat) : nat → prog A → Prop :=
| owes_ret a : owes post (post a) (Ret a)
| owes_read_fs n k : (∀ d, owes post n (k d)) → owes post n (ReadFs k)
| owes_terminal c n k :
    is_terminal c = true → owes post n k → owes post (S n) (Incr c 1 k)
| owes_other c m n k :
    is_terminal c = false → owes post n k → owes post n (Incr c m k)
| owes_pbar m n k : owes post n k → owes post n (PbarUpdate m k)
| owes_acquire n k : owes post n k → owes post n (Acquire k)
| owes_release n k : owes post n k → owes post n (Release k)
| owes_get u n k : (∀ r, owes post n (k r)) → owes post n (HttpGet u k)
| owes_read n k : (∀ r, owes post n (k r)) → owes post n (HttpRead k)
| owes_sleep secs n k : owes post n k → owes post n (Sleep secs k)
| owes_offload n k : owes post n k → owes post n (Offload k)
| owes_write path content n k :
    (∀ r, owes post n (k r)) → owes post n (WriteFile path content k).

Lemma owes_bind {A B} (post : A → nat) (post' : B → nat) (n : nat)
    (p : prog A) (f : A → prog B) :
  owes post n p → (∀ a, owes post' (post a) (f a)) → owes post' n (bind p f).
Proof.
  intros Hp Hf. induction Hp; cbn [bind]; try (by constructor); auto.
Qed.

Lemma owes_mbind {A B} (post : A → nat) (post' : B → nat) (n : nat)
    (p : prog A) (f : A → prog B) :
  owes post n p → (∀ a, owes post' (post a) (f a)) → owes post' n (p ≫= f).
Proof. apply owes_bind. Qed.

Lemma owes_mret {A} (post : A → nat) (a : A) : owes post (post a) (mret a).
Proof. constructor. Qed.

(** The retrying downloader touches no terminal counter. *)
Lemma owes_attempt_once (u : string) (n : nat) : owes (λ _, n) n (attempt_once u).
Proof.
  unfold attempt_once, http_get, http_read. rewrite mbind_eq. cbn [bind].
  constructor. intros [e|status]; [apply (owes_ret (λ _, n) None)|].
  destruct (status =? 200)%Z.
  - rewrite mbind_eq. cbn [bind]. constructor.
    intros [e|content]; [apply (owes_ret (λ _, n) None)|apply (owes_ret (λ _, n) (Some _))].
  - destruct (status =? 404)%Z;
      [apply (owes_ret (λ _, n) (Some None))|apply (owes_ret (λ _, n) None)].
Qed.

Lemma owes_retry_loop (max_retries : Z) (u : string) (attempts : list Z) (n : nat) :
  owes (λ _, n) n (retry_loop max_retries u attempts).
Proof.
  induction attempts as [|attempt rest IH]; cbn [retry_loop].
  - apply (owes_ret (λ _, n) None).
  - apply (owes_mbind (λ _, n)); [apply owes_attempt_once|].
    intros [result|]; [apply (owes_ret (λ _, n) result)|].
    apply (owes_mbind (λ _, n)); [|intros ?; exact IH].
    destruct (attempt <? max_retries - 1)%Z.
    + unfold incr, sleep. rewrite mbind_eq. cbn [bind].
      apply owes_other; [done|]. constructor. apply (owes_ret (λ _, n) ()).
    + apply (owes_ret (λ _, n) ()).
Qed.

Lemma owes_download_with_retry (max_retries : Z) (u : string) (n : nat) :
  owes (λ _, n) n (_download_with_retry max_retries u).
Proof. apply owes_retry_loop. Qed.

(** Storing counts the asset as completed exactly when it runs to its end. *)
Lemma owes_convert_and_store (pil : Pil.t) (cfg : Config.t) (media : Parser.MediaFile)
    (filepath : string) (content : Pil.bytes) :
  owes (λ stored : bool, if stored then 0 else 1) 1
    (convert_and_store pil cfg media filepath content).
Proof.
  unfold convert_and_store.
  apply (owes_mbind (λ _, 1)).
  - destruct (should_convert cfg _); [|apply (owes_ret (λ _, 1) (Some content))].
    unfold offload. rewrite mbind_eq. cbn [bind]. constructor.
    destruct (convert_image_to_jpg pil content _) as [jpg|e].
    + unfold incr. rewrite mbind_eq. cbn [bind]. apply owes_other; [done|].
      apply (owes_ret (λ _, 1) (Some jpg)).
    + apply (owes_ret (λ _, 1) None).
  - intros [jpg|]; [|apply (owes_ret (λ stored : bool, if stored then 0 else 1) false)].
    unfold write_file. rewrite mbind_eq. cbn [bind]. constructor. intros [|].
    + unfold incr, pbar_update. rewrite !mbind_eq. cbn [bind].
      apply owes_terminal; [done|]. apply owes_other; [done|]. constructor.
      apply (owes_ret (λ stored : bool, if stored then 0 else 1) true).
    + apply (owes_ret (λ stored : bool, if stored then 0 else 1) false).
Qed.

(** The three last actions of a failed download. *)
Lemma owes_count_failed :
  owes (λ _ : bool, 0) 1 (incr Failed 1;; pbar_update 1;; release;; mret false).
Proof.
  unfold incr, pbar_update, release. rewrite !mbind_eq. cbn [bind].
  apply owes_terminal; [done|]. do 2 constructor. apply (owes_ret (λ _, 0) false).
Qed.

(** Every path through [_download_file] counts the asset once. *)
Lemma owes_download_file (pil : Pil.t) (cfg : Config.t) (max_retries : Z)
    (media : Parser.MediaFile) (output_dir : string) :
  owes (λ _, 0) 1 (_download_file pil cfg max_retries media output_dir).
Proof.
  unfold _download_file, read_fs. rewrite mbind_eq. cbn [bind]. constructor. intros d.
  destruct (file_exists cfg d output_dir _).
  - unfold incr, pbar_update. rewrite !mbind_eq. cbn [bind].
    apply owes_terminal; [done|]. constructor. apply (owes_ret (λ _, 0) true).
  - unfold acquire. rewrite mbind_eq. cbn [bind]. constructor.
    apply (owes_mbind (λ _, 1)); [apply (owes_download_with_retry _ _ 1)|].
    intros [content|]; [|apply owes_count_failed].
    apply (owes_mbind (λ stored : bool, if stored then 0 else 1));
      [apply owes_convert_and_store|].
    intros [|]; [|apply owes_count_failed].
    unfold release. rewrite mbind_eq. cbn [bind]. constructor.
    apply (owes_ret (λ _, 0) true).
Qed.

(** *** What one step does *)

Lemma settled_bump (c : counter) (n : Z) (s : DownloadStats) :
  settled (bump c n s) = (settled s + if is_terminal c then n else 0)%Z
  ∧ total (bump c n s) = total s.
Proof. destruct c; unfold settled, bump; simpl; split; lia. Qed.

(** A step of a task adds one event of that task to the log, and removes
    nothing from the disk. *)
Lemma fire_log {A} (i : nat) (a : answer) (w w' : world) (p p' : prog A) :
  fire i a w p = Some (w', p') →
  (∃ e, log w' = log w ++ [(i, e)]) ∧ dom (disk w) ⊆ dom (disk w').
Proof.
  destruct p; simpl; try (intros [= <- <-]; split; [by eexists|done]); try done.
  - destruct (0 <? semaphore w)%Z; [|done]. intros [= <- <-]. split; [by eexists|done].
  - destruct a; try done. intros [= <- <-]. split; [by eexists|done].
  - destruct a; try done. intros [= <- <-]. split; [by eexists|done].
  - destruct a as [| | |[| |partial]]; try done; intros [= <- <-];
      (split; [by eexists|]); simpl; set_solver.
Qed.

(** A step of a task that owes [n] outcomes counts one and leaves a task
    that owes [n - 1], or counts none and leaves a task that owes [n]. *)
Lemma fire_owes {A} (post : A → nat) (n : nat) (i : nat) (a : answer)
    (w w' : world) (p p' : prog A) :
  owes post n p →
  fire i a w p = Some (w', p') →
  ∃ e n',
    log w' = log w ++ [(i, e)]
    ∧ owes post n' p'
    ∧ n = (terminal_event e + n')%nat
    ∧ settled (stats w') = (settled (stats w) + Z.of_nat (terminal_event e))%Z
    ∧ total (stats w') = total (stats w).
Proof.
  intros Hp. destruct Hp; simpl; try done;
    try (intros [= <- <-]; eexists _, _; split; [done|]; split; [by eauto|];
         simpl; split_and!; [done|lia|done]).
  - intros [= <- <-]. eexists _, _. split; [done|]. split; [done|].
    simpl. rewrite H. destruct (settled_bump c 1 (stats w)) as [-> ->]. rewrite H.
    split_and!; [done|lia|done].
  - intros [= <- <-]. eexists _, _. split; [done|]. split; [done|].
    simpl. rewrite H. destruct (settled_bump c m (stats w)) as [-> ->]. rewrite H.
    split_and!; [done|lia|done].
  - destruct (0 <? semaphore w)%Z; [|done]. intros [= <- <-].
    eexists _, _. split; [done|]. split; [done|]. simpl. split_and!; [done|lia|done].
  - destruct a; try done. intros [= <- <-].
    eexists _, _. split; [done|]. split; [by eauto|]. simpl. split_and!; [done|lia|done].
  - destruct a; try done. intros [= <- <-].
    eexists _, _. split; [done|]. split; [by eauto|]. simpl. split_and!; [done|lia|done].
  - destruct a as [| | |[| |partial]]; try done; intros [= <- <-];
      eexists _, _; (split; [done|]); (split; [by eauto|]); simpl;
      split_and!; done || lia.
Qed.

Lemma events_of_snoc (i j : nat) (e : event) (l : list (nat * event)) :
  events_of i (l ++ [(j, e)])
  = events_of i l ++ if decide (j = i) then [e] else [].
Proof.
  rewrite events_of_app. f_equal. unfold events_of. csimpl.
  by destruct (decide (j = i)).
Qed.

Lemma terminal_count_snoc (evs : list event) (e : event) :
  terminal_count (evs ++ [e]) = (terminal_count evs + terminal_event e)%nat.
Proof.
  unfold terminal_count. rewrite sum_list_with_app. simpl. lia.
Qed.

Lemma sum_list_insert (l : list nat) (i n n' : nat) :
  l !! i = Some n → (sum_list (<[i := n']> l) + n = sum_list l + n')%nat.
Proof.
  revert i. induction l as [|x l IH]; intros [|i] H; simplify_eq/=; [lia|].
  specialize (IH i H). lia.
Qed.

(** *** The invariant of a batch

    Each task still owes at most one outcome, has counted one when it owes
    none, and the outcomes counted and owed add up to [total]. *)
Definition accounted (n : nat) (s : world * pool) : Prop :=
  ∃ debts : list nat,
    Forall2 (owes (λ _, 0%nat)) debts s.2
    ∧ (settled (stats s.1) + Z.of_nat (sum_list debts) = total (stats s.1))%Z
    ∧ (∀ i d, debts !! i = Some d →
              (terminal_count (events_of i (log s.1)) + d = 1)%nat)
    ∧ total (stats s.1) = Z.of_nat n
    ∧ length s.2 = n.

Lemma accounted_step (n : nat) (s s' : world * pool) :
  accounted n s → step s s' → accounted n s'.
Proof.
  destruct s as [w tasks].
  intros (debts & Hall & Hsum & Heach & Htotal & Hlen) (i & a & Hmove).
  unfold move in Hmove. simpl in *.
  destruct (tasks !! i) as [p|] eqn:Hp; [|done].
  destruct (fire i a w p) as [[w' p']|] eqn:Hfire; [|done].
  injection Hmove as <-.
  destruct (Forall2_lookup_r _ _ _ _ _ Hall Hp) as (d0 & Hn & Howes).
  destruct (fire_owes _ _ _ _ _ _ _ _ Howes Hfire) as (e & n' & Hlog & Howes' & -> & Hs & Ht).
  exists (<[i := n']> debts). simpl. split_and!; [| | |congruence|by rewrite length_insert].
  - by apply Forall2_insert.
  - pose proof (sum_list_insert debts i _ n' Hn). lia.
  - intros j d Hj. rewrite Hlog, events_of_snoc.
    destruct (decide (i = j)) as [->|Hne].
    + rewrite list_lookup_insert_eq in Hj by (by eapply lookup_lt_Some).
      injection Hj as <-. rewrite terminal_count_snoc.
      specialize (Heach j _ Hn). lia.
    + rewrite list_lookup_insert_ne in Hj by done. rewrite app_nil_r. by apply Heach.
Qed.

Lemma accounted_steps (n : nat) (s s' : world * pool) :
  accounted n s → rtc step s s' → accounted n s'.
Proof. intros H Hsteps. induction Hsteps; eauto using accounted_step. Qed.

Lemma accounted_initial (pil : Pil.t) (cfg : Config.t) (self : MediaDownloader)
    (media_files : list Parser.MediaFile) (output_dir : string) (on_disk : filesystem) :
  accounted (length media_files)
    (initial_world self media_files on_disk,
     tasks_of pil cfg self media_files output_dir).
Proof.
  exists (replicate (length media_files) 1%nat). simpl.
  split_and!; [| | |done|by unfold tasks_of; rewrite length_map].
  - unfold tasks_of. induction media_files as [|media rest IH]; simpl; constructor; [|done].
    apply owes_download_file.
  - unfold settled. simpl.
    rewrite sum_list_replicate. lia.
  - intros i d [-> _]%lookup_replicate. done.
Qed.

(** When all tasks have returned, nothing is owed. *)
Lemma accounted_finished (n : nat) (w : world) (tasks : pool) :
  accounted n (w, tasks) → all_finished tasks = true →
  settled (stats w) = total (stats w)
  ∧ ∀ i, (i < n)%nat → terminal_count (events_of i (log w)) = 1%nat.
Proof.
  intros (debts & Hall & Hsum & Heach & _ & Hlen) Hfin. simpl in *. subst n.
  assert (∀ i d, debts !! i = Some d → d = 0%nat) as Hzero.
  { intros i d Hd. destruct (Forall2_lookup_l _ _ _ _ _ Hall Hd) as (p & Hp & Howes).
    unfold all_finished in Hfin. rewrite forallb_forall in Hfin.
    specialize (Hfin p ltac:(by eapply list_elem_of_In, list_elem_of_lookup_2)).
    destruct Howes; done. }
  split.
  - assert (sum_list debts = 0%nat) as Hs; [|lia].
    clear -Hzero. induction debts as [|d debts IH]; [done|]. simpl.
    rewrite (Hzero 0%nat d eq_refl), IH; [done|].
    intros i d' Hd'. by apply (Hzero (S i)).
  - intros i Hi. rewrite <- (Forall2_length _ _ _ Hall) in Hi.
    destruct (lookup_lt_is_Some_2 debts i Hi) as [d Hd].
    pose proof (Heach i d Hd) as H. rewrite (Hzero i d Hd) in H. lia.
Qed.

(** *** Running the tasks one after the other is one of the schedules *)

Lemma step_then (i : nat) (a : answer) (w w1 : world) (tasks : pool)
    (p p1 : prog bool) (s' : world * pool) :
  tasks !! i = Some p →
  fire i a w p = Some (w1, p1) →
  rtc step (w1, <[i := p1]> tasks) s' →
  rtc step (w, tasks) s'.
Proof.
  intros Hp Hfire Hrest. eapply rtc_l; [|exact Hrest].
  exists i, a. unfold move. simpl. by rewrite Hp, Hfire.
Qed.

Lemma run_task_steps (o : oracle) (i : nat) (p : prog bool) :
  ∀ (w w' : world) (tasks : pool) (b : bool),
    tasks !! i = Some p →
    run_task o i p w = Some (w', b) →
    rtc step (w, tasks) (w', <[i := Ret b]> tasks).
Proof.
  induction p as [a|k IH|c n k IH|n k IH|k IH|k IH|u k IH|k IH|secs k IH|k IH
                  |path content k IH]; intros w w' tasks b Hp Hrun; simpl in Hrun.
  - injection Hrun as <- <-. rewrite list_insert_id by done. apply rtc_refl.
  - eapply (step_then i Tick); [done|reflexivity|].
    rewrite <- (list_insert_insert_eq tasks i (Ret b) (k (disk w))).
    apply (IH (disk w)); [|done]. apply list_lookup_insert_eq. by eapply lookup_lt_Some.
  - eapply (step_then i Tick); [done|reflexivity|].
    rewrite <- (list_insert_insert_eq tasks i (Ret b) k).
    apply IH; [|done]. apply list_lookup_insert_eq. by eapply lookup_lt_Some.
  - eapply (step_then i Tick); [done|reflexivity|].
    rewrite <- (list_insert_insert_eq tasks i (Ret b) k).
    apply IH; [|done]. apply list_lookup_insert_eq. by eapply lookup_lt_Some.
  - destruct (0 <? semaphore w)%Z eqn:Hsem; [|done].
    eapply (step_then i Tick); [done|simpl; by rewrite Hsem|].
    rewrite <- (list_insert_insert_eq tasks i (Ret b) k).
    apply IH; [|done]. apply list_lookup_insert_eq. by eapply lookup_lt_Some.
  - eapply (step_then i Tick); [done|reflexivity|].
    rewrite <- (list_insert_insert_eq tasks i (Ret b) k).
    apply IH; [|done]. apply list_lookup_insert_eq. by eapply lookup_lt_Some.
  - eapply (step_then i (Status (on_get o (length (log w)) u))); [done|reflexivity|].
    rewrite <- (list_insert_insert_eq tasks i (Ret b) (k (on_get o (length (log w)) u))).
    apply (IH (on_get o (length (log w)) u)); [|done]. apply list_lookup_insert_eq. by eapply lookup_lt_Some.
  - eapply (step_then i (Body (on_read o (length (log w))))); [done|reflexivity|].
    rewrite <- (list_insert_insert_eq tasks i (Ret b) (k (on_read o (length (log w))))).
    apply (IH (on_read o (length (log w)))); [|done]. apply list_lookup_insert_eq. by eapply lookup_lt_Some.
  - eapply (step_then i Tick); [done|reflexivity|].
    rewrite <- (list_insert_insert_eq tasks i (Ret b) k).
    apply IH; [|done]. apply list_lookup_insert_eq. by eapply lookup_lt_Some.
  - eapply (step_then i Tick); [done|reflexivity|].
    rewrite <- (list_insert_insert_eq tasks i (Ret b) k).
    apply IH; [|done]. apply list_lookup_insert_eq. by eapply lookup_lt_Some.
  - destruct (on_write o (length (log w)) path content) as [| |partial] eqn:Hw.
    + eapply (step_then i (Disk Written)); [done|reflexivity|].
      rewrite <- (list_insert_insert_eq tasks i (Ret b) (k true)).
      apply (IH true); [|done]. apply list_lookup_insert_eq. by eapply lookup_lt_Some.
    + eapply (step_then i (Disk OpenFailed)); [done|reflexivity|].
      rewrite <- (list_insert_insert_eq tasks i (Ret b) (k false)).
      apply (IH false); [|done]. apply list_lookup_insert_eq. by eapply lookup_lt_Some.
    + eapply (step_then i (Disk (WriteFailed partial))); [done|reflexivity|].
      rewrite <- (list_insert_insert_eq tasks i (Ret b) (k false)).
      apply (IH false); [|done]. apply list_lookup_insert_eq. by eapply lookup_lt_Some.
Qed.

Lemma run_tasks_steps (o : oracle) (tasks : pool) :
  ∀ (done_ : pool) (w w' : world) (bs : list bool),
    run_tasks o (length done_) tasks w = Some (w', bs) →
    rtc step (w, done_ ++ tasks) (w', done_ ++ (Ret <$> bs)).
Proof.
  induction tasks as [|p tasks IH]; intros done_ w w' bs Hrun; simpl in Hrun.
  - injection Hrun as <- <-. apply rtc_refl.
  - destruct (run_task o (length done_) p w) as [[w1 b]|] eqn:Hp; [|done].
    destruct (run_tasks o (S (length done_)) tasks w1) as [[w2 bs']|] eqn:Hrest; [|done].
    injection Hrun as <- <-.
    eapply rtc_trans.
    + eapply (run_task_steps o (length done_) p); [|exact Hp].
      by rewrite lookup_app_r, Nat.sub_diag by lia.
    + rewrite insert_app_r_alt, Nat.sub_diag by lia.
      change (<[0%nat := Ret b]> (p :: tasks)) with ([Ret b : prog bool] ++ tasks).
      change (Ret <$> b :: bs') with ([Ret b : prog bool] ++ (Ret <$> bs')).
      rewrite !app_assoc. apply IH. rewrite length_app. simpl.
      by replace (length done_ + 1)%nat with (S (length done_)) by lia.
Qed.

(** The runs of the event loop are the schedules. *)
Lemma run_schedule_steps (s s' : world * pool) :
  rtc step s s' ↔ ∃ sched, run_schedule sched s = Some s'.
Proof.
  split.
  - induction 1 as [s|s1 s2 s3 (i & a & Hmove) _ [sched IH]]; [by exists []|].
    exists ((i, a) :: sched). simpl. by rewrite Hmove.
  - intros [sched Hrun]. revert s Hrun.
    induction sched as [|[i a] sched IH]; intros s Hrun; simpl in Hrun.
    + injection Hrun as <-. apply rtc_refl.
    + destruct (move i a s) as [s1|] eqn:Hmove; [|done].
      eapply rtc_l; [by exists i, a|]. by apply IH.
Qed.

(** *** The semaphore

    [balanced h h' p]: [p] starts holding the semaphore or not ([h]), takes
    it only when it does not hold it, and returns holding it or not
    ([h']). *)
Inductive balanced {A} : bool → bool → prog A → Prop :=
| bal_ret h a : balanced h h (Ret a)
| bal_read_fs h h' k : (∀ d, balanced h h' (k d)) → balanced h h' (ReadFs k)
| bal_incr h h' c n k : balanced h h' k → balanced h h' (Incr c n k)
| bal_pbar h h' n k : balanced h h' k → balanced h h' (PbarUpdate n k)
| bal_acquire h' k : balanced true h' k → balanced false h' (Acquire k)
| bal_release h' k : balanced false h' k → balanced true h' (Release k)
| bal_get h h' u k : (∀ r, balanced h h' (k r)) → balanced h h' (HttpGet u k)
| bal_read h h' k : (∀ r, balanced h h' (k r)) → balanced h h' (HttpRead k)
| bal_sleep h h' secs k : balanced h h' k → balanced h h' (Sleep secs k)
| bal_offload h h' k : balanced h h' k → balanced h h' (Offload k)
| bal_write h h' path content k :
    (∀ r, balanced h h' (k r)) → balanced h h' (WriteFile path content k).

Lemma balanced_bind {A B} (h1 h2 h3 : bool) (p : prog A) (f : A → prog B) :
  balanced h1 h2 p → (∀ a, balanced h2 h3 (f a)) → balanced h1 h3 (p ≫= f).
Proof.
  intros Hp Hf. rewrite mbind_eq. induction Hp; cbn [bind]; [auto|constructor; auto..].
Qed.

Lemma balanced_attempt_once (h : bool) (u : string) : balanced h h (attempt_once u).
Proof.
  unfold attempt_once, http_get, http_read. rewrite mbind_eq. cbn [bind].
  constructor. intros [e|status]; [constructor|].
  destruct (status =? 200)%Z.
  - rewrite mbind_eq. cbn [bind]. constructor. intros [e|content]; constructor.
  - destruct (status =? 404)%Z; constructor.
Qed.

Lemma balanced_download_with_retry (h : bool) (max_retries : Z) (u : string) :
  balanced h h (_download_with_retry max_retries u).
Proof.
  unfold _download_with_retry.
  induction (Parser.range 0 max_retries) as [|attempt rest IH]; cbn [retry_loop].
  - constructor.
  - apply (balanced_bind h h h); [apply balanced_attempt_once|].
    intros [result|]; [constructor|].
    apply (balanced_bind h h h); [|intros ?; exact IH].
    destruct (attempt <? max_retries - 1)%Z; [|constructor].
    unfold incr, sleep. rewrite mbind_eq. cbn [bind]. do 3 constructor.
Qed.

Lemma balanced_convert_and_store (h : bool) (pil : Pil.t) (cfg : Config.t)
    (media : Parser.MediaFile) (filepath : string) (content : Pil.bytes) :
  balanced h h (convert_and_store pil cfg media filepath content).
Proof.
  unfold convert_and_store. apply (balanced_bind h h h).
  - destruct (should_convert cfg _); [|constructor].
    unfold offload. rewrite mbind_eq. cbn [bind]. constructor.
    destruct (convert_image_to_jpg pil content _); [|constructor].
    unfold incr. rewrite mbind_eq. cbn [bind]. do 2 constructor.
  - intros [jpg|]; [|constructor].
    unfold write_file. rewrite mbind_eq. cbn [bind]. constructor. intros [|]; [|constructor].
    unfold incr, pbar_update. rewrite !mbind_eq. cbn [bind]. do 4 constructor.
Qed.

Lemma balanced_download_file (pil : Pil.t) (cfg : Config.t) (max_retries : Z)
    (media : Parser.MediaFile) (output_dir : string) :
  balanced false false (_download_file pil cfg max_retries media output_dir).
Proof.
  assert (balanced true false (incr Failed 1;; pbar_update 1;; release;; mret false)) as Hfail.
  { unfold incr, pbar_update, release. rewrite !mbind_eq. cbn [bind]. do 4 constructor. }
  unfold _download_file, read_fs. rewrite mbind_eq. cbn [bind]. constructor. intros d.
  destruct (file_exists cfg d output_dir _).
  - unfold incr, pbar_update. rewrite !mbind_eq. cbn [bind]. do 3 constructor.
  - unfold acquire. rewrite mbind_eq. cbn [bind]. constructor.
    apply (balanced_bind true true false); [apply balanced_download_with_retry|].
    intros [content|]; [|exact Hfail].
    apply (balanced_bind true true false); [apply balanced_convert_and_store|].
    intros [|]; [|exact Hfail].
    unfold release. rewrite mbind_eq. cbn [bind]. do 2 constructor.
Qed.

(** A balanced task that can take the semaphore runs to its end. *)
Lemma run_task_balanced {A} (o : oracle) (i : nat) (h h' : bool) (p : prog A) :
  balanced h h' p →
  ∀ w, (0 < semaphore w + (if h then 1 else 0))%Z →
    ∃ w' a, run_task o i p w = Some (w', a)
            ∧ (semaphore w' + (if h' then 1 else 0)
               = semaphore w + (if h then 1 else 0))%Z.
Proof.
  induction 1 as [h a|h h' k _ IH|h h' c n k _ IH|h h' n k _ IH|h' k _ IH|h' k _ IH
                  |h h' u k _ IH|h h' k _ IH|h h' secs k _ IH|h h' k _ IH
                  |h h' path content k _ IH]; intros w Hsem; cbn [run_task].
  - by eexists _, _.
  - destruct (IH (disk w) (record i Checked w)) as (w' & a & -> & Hs); [simpl; lia|].
    eexists _, _. split; [done|]. simpl in Hs. lia.
  - destruct (IH (record i (Counted c n) (with_stats (bump c n (stats w)) w)))
      as (w' & a & -> & Hs); [simpl; lia|].
    eexists _, _. split; [done|]. simpl in Hs. lia.
  - destruct (IH (record i (Progress n) (with_pbar (pbar w + n) w)))
      as (w' & a & -> & Hs); [simpl; lia|].
    eexists _, _. split; [done|]. simpl in Hs. lia.
  - destruct (Z.ltb_spec 0 (semaphore w)); [|lia].
    destruct (IH (record i Acquired (with_semaphore (semaphore w - 1) w)))
      as (w' & a & -> & Hs); [simpl; lia|].
    eexists _, _. split; [done|]. simpl in Hs. lia.
  - destruct (IH (record i Released (with_semaphore (semaphore w + 1) w)))
      as (w' & a & -> & Hs); [simpl; lia|].
    eexists _, _. split; [done|]. simpl in Hs. lia.
  - destruct (IH (on_get o (length (log w)) u)
                (record i (Requested u (on_get o (length (log w)) u)) w))
      as (w' & a & -> & Hs); [simpl; lia|].
    eexists _, _. split; [done|]. simpl in Hs. lia.
  - destruct (IH (on_read o (length (log w)))
                (record i (ReadBody (on_read o (length (log w)))) w))
      as (w' & a & -> & Hs); [simpl; lia|].
    eexists _, _. split; [done|]. simpl in Hs. lia.
  - destruct (IH (record i (Slept secs) w)) as (w' & a & -> & Hs); [simpl; lia|].
    eexists _, _. split; [done|]. simpl in Hs. lia.
  - destruct (IH (record i Offloaded w)) as (w' & a & -> & Hs); [simpl; lia|].
    eexists _, _. split; [done|]. simpl in Hs. lia.
  - destruct (on_write o (length (log w)) path content) as [| |partial].
    + destruct (IH true (record i (Wrote path content true)
                           (with_disk (<[path := content]> (disk w)) w)))
        as (w' & a & -> & Hs); [simpl; lia|].
      eexists _, _. split; [done|]. simpl in Hs. lia.
    + destruct (IH false (record i (Wrote path [] false) w))
        as (w' & a & -> & Hs); [simpl; lia|].
      eexists _, _. split; [done|]. simpl in Hs. lia.
    + destruct (IH false (record i (Wrote path partial false)
                            (with_disk (<[path := partial]> (disk w)) w)))
        as (w' & a & -> & Hs); [simpl; lia|].
      eexists _, _. split; [done|]. simpl in Hs. lia.
Qed.

Lemma run_tasks_total (o : oracle) (tasks : pool) :
  Forall (balanced false false) tasks →
  ∀ i w, (0 < semaphore w)%Z → ∃ w' bs, run_tasks o i tasks w = Some (w', bs).
Proof.
  induction 1 as [|p tasks Hp _ IH]; intros i w Hsem; simpl.
  - by eexists _, _.
  - destruct (run_task_balanced o i _ _ p Hp w ltac:(lia)) as (w1 & b & -> & Hs).
    destruct (IH (S i) w1 ltac:(lia)) as (w2 & bs & ->). by eexists _, _.
Qed.

(** *** Every schedule comes to an end *)

(** [rest p' p]: [p'] is what is left of [p] after its first action. *)
Inductive rest {A} : prog A → prog A → Prop :=
| rest_read_fs k d : rest (k d) (ReadFs k)
| rest_incr c n k : rest k (Incr c n k)
| rest_pbar n k : rest k (PbarUpdate n k)
| rest_acquire k : rest k (Acquire k)
| rest_release k : rest k (Release k)
| rest_get u k r : rest (k r) (HttpGet u k)
| rest_read k r : rest (k r) (HttpRead k)
| rest_sleep secs k : rest k (Sleep secs k)
| rest_offload k : rest k (Offload k)
| rest_write path content k r : rest (k r) (WriteFile path content k).

Lemma rest_wf {A} (p : prog A) : Acc rest p.
Proof.
  induction p; constructor; intros p' Hp'; inversion Hp'; subst; auto.
Qed.

Lemma fire_rest {A} (i : nat) (a : answer) (w w' : world) (p p' : prog A) :
  fire i a w p = Some (w', p') → rest p' p.
Proof.
  destruct p; simpl; try done; try (intros [= <- <-]; constructor).
  - destruct (0 <? semaphore w)%Z; [|done]. intros [= <- <-]. constructor.
  - destruct a; try done. intros [= <- <-]. constructor.
  - destruct a; try done. intros [= <- <-]. constructor.
  - destruct a as [| | |[| |partial]]; try done; intros [= <- <-]; constructor.
Qed.

(** One task of the pool has made a step. *)
Definition pool_rest (tasks' tasks : pool) : Prop :=
  ∃ i p p', tasks !! i = Some p ∧ rest p' p ∧ tasks' = <[i := p']> tasks.

Lemma pool_rest_cons (p : prog bool) :
  Acc rest p → ∀ tasks, Acc pool_rest tasks → Acc pool_rest (p :: tasks).
Proof.
  induction 1 as [p _ IHp]. intros tasks Htasks.
  induction Htasks as [tasks Htasks IHtasks].
  constructor. intros tasks' (i & q & q' & Hq & Hrest & ->).
  destruct i as [|i]; simpl in *.
  - injection Hq as <-. apply IHp; [done|]. by constructor.
  - apply IHtasks. by exists i, q, q'.
Qed.

Lemma pool_rest_wf (tasks : pool) : Acc pool_rest tasks.
Proof.
  induction tasks as [|p tasks IH].
  - constructor. intros tasks' (i & q & q' & Hq & _). done.
  - apply pool_rest_cons; [apply rest_wf|done].
Qed.

(** No schedule goes on for ever. *)
Lemma steps_end (s : world * pool) : Acc (flip step) s.
Proof.
  destruct s as [w tasks]. revert w.
  induction (pool_rest_wf tasks) as [tasks _ IH]. intros w.
  constructor. intros [w' tasks'] (i & a & Hmove). unfold move in Hmove. simpl in *.
  destruct (tasks !! i) as [p|] eqn:Hp; [|done].
  destruct (fire i a w p) as [[w1 p1]|] eqn:Hfire; [|done].
  injection Hmove as <- <-. apply IH. exists i, p, p1.
  split_and!; [done| |done]. by eapply fire_rest.
Qed.

(** *** No schedule gets stuck *)

(** 1 for a task that holds the semaphore. *)
Definition held (h : bool) : nat := if h then 1 else 0.

Lemma fire_balanced {A} (h h' : bool) (i : nat) (a : answer) (w w' : world)
    (p p' : prog A) :
  balanced h h' p →
  fire i a w p = Some (w', p') →
  ∃ h1, balanced h1 h' p'
        ∧ (semaphore w' + Z.of_nat (held h1) = semaphore w + Z.of_nat (held h))%Z.
Proof.
  intros Hp. destruct Hp; simpl; try done;
    try (intros [= <- <-]; eexists; split; [by eauto|simpl; lia]).
  - destruct (0 <? semaphore w)%Z; [|done]. intros [= <- <-].
    eexists. split; [done|]. simpl. lia.
  - destruct a; try done. intros [= <- <-]. eexists. split; [by eauto|]. simpl. lia.
  - destruct a; try done. intros [= <- <-]. eexists. split; [by eauto|]. simpl. lia.
  - destruct a as [| | |[| |partial]]; try done; intros [= <- <-];
      eexists; (split; [by eauto|]); simpl; lia.
Qed.

(** A task that holds the semaphore, or finds it free, can move. *)
Lemma balanced_can_fire {A} (h : bool) (i : nat) (w : world) (p : prog A) :
  balanced h false p →
  finished p = false →
  h = true ∨ (0 < semaphore w)%Z →
  ∃ a w' p', fire i a w p = Some (w', p').
Proof.
  intros Hp Hfin Hfree. inversion Hp; subst; simpl in *; try done.
  - by eexists Tick, _, _.
  - by eexists Tick, _, _.
  - by eexists Tick, _, _.
  - destruct Hfree as [|Hfree]; [done|].
    destruct (Z.ltb_spec 0 (semaphore w)); [|lia]. by eexists Tick, _, _.
  - by eexists Tick, _, _.
  - by eexists (Status (inr 200%Z)), _, _.
  - by eexists (Body (inr [])), _, _.
  - by eexists Tick, _, _.
  - by eexists Tick, _, _.
  - by eexists (Disk Written), _, _.
Qed.

(** The slots taken and the slots free add up to the size of the
    semaphore. *)
Definition slots (size : Z) (s : world * pool) : Prop :=
  ∃ flags : list bool,
    Forall2 (λ h p, balanced h false p) flags s.2
    ∧ (semaphore s.1 + Z.of_nat (sum_list (held <$> flags)) = size)%Z.

Lemma slots_step (size : Z) (s s' : world * pool) : slots size s → step s s' → slots size s'.
Proof.
  destruct s as [w tasks]. intros (flags & Hall & Hsum) (i & a & Hmove).
  unfold move in Hmove. simpl in *.
  destruct (tasks !! i) as [p|] eqn:Hp; [|done].
  destruct (fire i a w p) as [[w' p']|] eqn:Hfire; [|done].
  injection Hmove as <-.
  destruct (Forall2_lookup_r _ _ _ _ _ Hall Hp) as (h & Hh & Hbal).
  destruct (fire_balanced _ _ _ _ _ _ _ _ Hbal Hfire) as (h1 & Hbal1 & Hsem).
  exists (<[i := h1]> flags). simpl. split; [by apply Forall2_insert|].
  rewrite list_fmap_insert.
  pose proof (sum_list_insert (held <$> flags) i (held h) (held h1)
                ltac:(by rewrite list_lookup_fmap, Hh)). lia.
Qed.

Lemma slots_can_step (size : Z) (w : world) (tasks : pool) :
  (1 ≤ size)%Z → slots size (w, tasks) → all_finished tasks = false →
  ∃ s', step (w, tasks) s'.
Proof.
  intros Hsize (flags & Hall & Hsum) Hnot. simpl in *.
  assert (∀ i h p, flags !! i = Some h → tasks !! i = Some p → finished p = false →
            h = true ∨ (0 < semaphore w)%Z → ∃ s', step (w, tasks) s') as Hmove.
  { intros i h p Hh Hp Hfin Hfree.
    pose proof (Forall2_lookup_lr _ _ _ _ _ _ Hall Hh Hp) as Hbal.
    destruct (balanced_can_fire h i w p Hbal Hfin Hfree) as (a & w' & p' & Hfire).
    exists (w', <[i := p']> tasks), i, a. unfold move. simpl. by rewrite Hp, Hfire. }
  destruct (decide (0 < semaphore w)%Z) as [Hfree|Hfull].
  - assert (∃ i p, tasks !! i = Some p ∧ finished p = false) as (i & p & Hp & Hfin).
    { clear -Hnot. unfold all_finished in Hnot. induction tasks as [|q tasks IH]; [done|].
      simpl in Hnot. destruct (finished q) eqn:Hq.
      - destruct (IH Hnot) as (i & p & ? & ?). by exists (S i), p.
      - by exists 0%nat, q. }
    destruct (Forall2_lookup_r _ _ _ _ _ Hall Hp) as (h & Hh & _).
    eapply Hmove; eauto.
  - assert (∃ i, flags !! i = Some true) as [i Hi].
    { assert (0 < sum_list (held <$> flags))%nat as Hpos by lia.
      clear -Hpos. induction flags as [|[|] flags IH]; simpl in *; [lia|by exists 0%nat|].
      destruct (IH Hpos) as [i Hi]. by exists (S i). }
    destruct (Forall2_lookup_l _ _ _ _ _ Hall Hi) as (p & Hp & Hbal).
    eapply (Hmove i true p); eauto. by inversion Hbal.
Qed.

(** *** The statistics are what the log says *)

(** The value of a counter. *)
Definition counter_value (c : counter) (s : DownloadStats) : Z :=
  match c with
  | Completed => completed s
  | Failed => failed s
  | Skipped => skipped s
  | Converted => converted s
  | Retried => retried s
  | TotalBytes => total_bytes s
  end.

(** What the events of a log add to a counter. *)
Definition tally (c : counter) (l : list (nat * event)) : Z :=
  foldr (λ je acc,
           match je.2 with
           | Counted c' n => if decide (c' = c) then (n + acc)%Z else acc
           | _ => acc
           end) 0%Z l.

Lemma tally_snoc (c : counter) (l : list (nat * event)) (j : nat) (e : event) :
  tally c (l ++ [(j, e)])
  = (tally c l + match e with
                 | Counted c' n => if decide (c' = c) then n else 0
                 | _ => 0
                 end)%Z.
Proof.
  induction l as [|[j' e'] l IH]; simpl.
  - destruct e; try done. destruct (decide (c0 = c)); lia.
  - unfold tally in *. rewrite IH. destruct e'; try done.
    destruct (decide (c0 = c)); lia.
Qed.

Lemma counter_value_bump (c c' : counter) (n : Z) (s : DownloadStats) :
  counter_value c (bump c' n s)
  = (counter_value c s + if decide (c' = c) then n else 0)%Z.
Proof. destruct c, c'; simpl; rewrite ?decide_True, ?decide_False by done; lia. Qed.

Lemma fire_tally {A} (i : nat) (a : answer) (w w' : world) (p p' : prog A) (c : counter) :
  fire i a w p = Some (w', p') →
  (counter_value c (stats w') - tally c (log w')
   = counter_value c (stats w) - tally c (log w))%Z.
Proof.
  destruct p; simpl; try done;
    try (intros [= <- <-]; simpl; rewrite tally_snoc; lia).
  - intros [= <- <-]. simpl. rewrite tally_snoc, counter_value_bump. lia.
  - destruct (0 <? semaphore w)%Z; [|done]. intros [= <- <-]. simpl. rewrite tally_snoc. lia.
  - destruct a; try done. intros [= <- <-]. simpl. rewrite tally_snoc. lia.
  - destruct a; try done. intros [= <- <-]. simpl. rewrite tally_snoc. lia.
  - destruct a as [| | |[| |partial]]; try done; intros [= <- <-]; simpl;
      rewrite tally_snoc; lia.
Qed.

Lemma steps_tally (s s' : world * pool) (c : counter) :
  rtc step s s' →
  (counter_value c (stats s'.1) - tally c (log s'.1)
   = counter_value c (stats s.1) - tally c (log s.1))%Z.
Proof.
  induction 1 as [|s1 s2 s3 (i & a & Hmove) _ IH]; [done|]. rewrite IH.
  unfold move in Hmove. destruct (s1.2 !! i) as [p|]; [|done].
  destruct (fire i a s1.1 p) as [[w' p']|] eqn:Hfire; [|done].
  injection Hmove as <-. simpl. by eapply fire_tally.
Qed.

Lemma slots_initial (pil : Pil.t) (cfg : Config.t) (self : MediaDownloader)
    (media_files : list Parser.MediaFile) (output_dir : string) (on_disk : filesystem) :
  slots (max_concurrent self)
    (initial_world self media_files on_disk,
     tasks_of pil cfg self media_files output_dir).
Proof.
  exists (replicate (length media_files) false). simpl. split.
  - unfold tasks_of. induction media_files as [|media files IH]; simpl; constructor; [|done].
    apply balanced_download_file.
  - assert (sum_list (held <$> replicate (length media_files) false) = 0%nat) as ->; [|lia].
    rewrite fmap_replicate, sum_list_replicate. simpl. lia.
Qed.

(** *** The batch *)

Section Batch.

Context (pil : Pil.t) (cfg : Config.t) (self : MediaDownloader).
Context (media_files : list Parser.MediaFile) (output_dir : string) (on_disk : filesystem).

Lemma reachable_accounted (s : world * pool) :
  reachable pil cfg self media_files output_dir on_disk s →
  accounted (length media_files) s.
Proof. apply accounted_steps, accounted_initial. Qed.

Lemma reachable_tally (s : world * pool) (c : counter) :
  reachable pil cfg self media_files output_dir on_disk s →
  counter_value c (stats s.1) = tally c (log s.1).
Proof.
  intros H. pose proof (steps_tally _ _ c H) as Ht. simpl in Ht.
  assert (counter_value c (new_stats (Z.of_nat (length media_files))) = 0%Z)
    by (by destruct c).
  lia.
Qed.

Lemma reachable_slots (s : world * pool) :
  reachable pil cfg self media_files output_dir on_disk s →
  slots (max_concurrent self) s.
Proof.
  intros Hreach.
  assert (slots (max_concurrent self)
            (initial_world self media_files on_disk,
             tasks_of pil cfg self media_files output_dir)) as Hinit.
  { apply slots_initial. }
  revert Hinit. unfold reachable in Hreach. induction Hreach; eauto using slots_step.
Qed.

(** The tasks run one after the other are one way for the call to return. *)
Lemma download_media_files_returns (o : oracle) (result : DownloadStats) (w : world) :
  download_media_files pil cfg self o media_files output_dir on_disk = Some (result, w) →
  ∃ tasks, reachable pil cfg self media_files output_dir on_disk (w, tasks)
           ∧ all_finished tasks = true ∧ result = stats w.
Proof.
  unfold download_media_files. destruct (max_concurrent self <? 0)%Z; [done|].
  destruct (run_tasks o 0 _ _) as [[w' bs]|] eqn:Hrun; [|done]. intros [= <- <-].
  exists (Ret <$> bs). split_and!; [|clear; by induction bs|done].
  apply (run_tasks_steps o _ [] _ _ _ Hrun).
Qed.

Lemma download_media_files_total (o : oracle) :
  (1 ≤ max_concurrent self)%Z →
  ∃ result w,
    download_media_files pil cfg self o media_files output_dir on_disk = Some (result, w).
Proof.
  intros Hsem. unfold download_media_files.
  destruct (Z.ltb_spec (max_concurrent self) 0); [lia|].
  destruct (run_tasks_total o (tasks_of pil cfg self media_files output_dir)) with
    (i := 0%nat) (w := initial_world self media_files on_disk) as (w' & bs & ->).
  - unfold tasks_of. apply Forall_forall. intros p (media & -> & _)%list_elem_of_fmap.
    apply balanced_download_file.
  - simpl. lia.
  - by eexists _, _.
Qed.

(** C6.  Under every schedule and whatever the servers and the disk
    answer, when [download_media_files] returns, that is when all the tasks
    it gathered have returned, the statistics it returns satisfy
    completed + failed + skipped = total, and total is the number of input
    assets; each asset has then been counted exactly once in one of the three
    counters.  Before that, the assets counted never exceed the total.  And
    the call does return: no schedule goes on for ever, with a semaphore of at
    least one slot no schedule gets stuck before all tasks have returned, and
    the tasks run one after the other all come to their end. *)
Theorem batch_accounts_for_every_asset :
  (∀ result, returns pil cfg self media_files output_dir on_disk result →
     (completed result + failed result + skipped result = total result)%Z
     ∧ total result = Z.of_nat (length media_files))
  ∧ (∀ w tasks,
       reachable pil cfg self media_files output_dir on_disk (w, tasks) →
       all_finished tasks = true →
       ∀ i, (i < length media_files)%nat →
            terminal_count (events_of i (log w)) = 1%nat)
  ∧ (∀ w tasks,
       reachable pil cfg self media_files output_dir on_disk (w, tasks) →
       (completed (stats w) + failed (stats w) + skipped (stats w) ≤ total (stats w))%Z
       ∧ total (stats w) = Z.of_nat (length media_files)
       ∧ length tasks = length media_files
       ∧ ∀ c, counter_value c (stats w) = tally c (log w))
  ∧ (∀ s, reachable pil cfg self media_files output_dir on_disk s → Acc (flip step) s)
  ∧ ((1 ≤ max_concurrent self)%Z →
     ∀ w tasks,
       reachable pil cfg self media_files output_dir on_disk (w, tasks) →
       all_finished tasks = false →
       ∃ s', step (w, tasks) s')
  ∧ (∀ o, (1 ≤ max_concurrent self)%Z →
       ∃ result w,
         download_media_files pil cfg self o media_files output_dir on_disk
         = Some (result, w)
         ∧ returns pil cfg self media_files output_dir on_disk result).
Proof.
  split_and!.
  - intros result (w & tasks & Hreach & Hfin & ->).
    pose proof (reachable_accounted _ Hreach) as Hacc.
    destruct (accounted_finished _ _ _ Hacc Hfin) as [Hsettled _].
    destruct Hacc as (_ & _ & _ & _ & Htotal & _). simpl in *.
    unfold settled in Hsettled. split; [lia|done].
  - intros w tasks Hreach Hfin.
    by destruct (accounted_finished _ _ _ (reachable_accounted _ Hreach) Hfin).
  - intros w tasks Hreach.
    destruct (reachable_accounted _ Hreach) as (debts & _ & Hsum & _ & Htotal & Hlen).
    simpl in *. unfold settled in Hsum. split_and!; [lia|done|done|].
    intros c. apply (reachable_tally _ c Hreach).
  - intros s _. apply steps_end.
  - intros Hsem w tasks Hreach Hnot.
    by apply (slots_can_step (max_concurrent self) w tasks Hsem (reachable_slots _ Hreach)).
  - intros o Hsem. destruct (download_media_files_total o Hsem) as (result & w & Hrun).
    exists result, w. split; [done|].
    destruct (download_media_files_returns o result w Hrun) as (tasks & ? & ? & ?).
    by exists w, tasks.
Qed.

End Batch.

(** The sample batch against a server whose answers are all 500: the call
    returns, with three assets failed out of three. *)
Lemma batch_accounts_for_every_asset_witness :
  (1 ≤ max_concurrent (Sample.downloader Config.default))%Z
  ∧ ∃ result w,
      download_media_files Sample.pil_toy Config.default (Sample.downloader Config.default)
        (Sample.server 500 []) Sample.batch "out" ∅ = Some (result, w)
      ∧ (completed result + failed result + skipped result = total result)%Z
      ∧ total result = 3%Z.
Proof.
  assert (1 ≤ max_concurrent (Sample.downloader Config.default))%Z as Hsem by (by compute).
  split; [exact Hsem|].
  pose proof (batch_accounts_for_every_asset Sample.pil_toy Config.default
                (Sample.downloader Config.default) Sample.batch "out" ∅)
    as (Hsum & _ & _ & _ & _ & Hruns).
  destruct (Hruns (Sample.server 500 []) Hsem) as (result & w & Hrun & Hret).
  exists result, w. split; [exact Hrun|]. exact (Hsum result Hret).
Defined.

(** *** Assets already on disk *)

Lemma path_exists_mono (d d' : filesystem) (path : string) :
  dom d ⊆ dom d' → path_exists d path = true → path_exists d' path = true.
Proof.
  unfold path_exists. intros Hsub H%bool_decide_eq_true. apply bool_decide_eq_true.
  apply elem_of_dom. apply Hsub. by apply elem_of_dom.
Qed.

(** The three ways for [file_exists] to answer yes. *)
Lemma file_exists_iff (cfg : Config.t) (d : filesystem) (output_dir filename : string) :
  file_exists cfg d output_dir filename = true ↔
  path_exists d (OsPath.join output_dir filename) = true
  ∨ (should_convert cfg filename = true
     ∧ path_exists d (OsPath.join output_dir (get_jpg_filename filename)) = true)
  ∨ (Parser.str_in (Py.lower (OsPath.splitext filename).2) CONVERTIBLE_EXTENSIONS = true
     ∧ path_exists d (OsPath.join output_dir ((OsPath.splitext filename).1 +:+ ".jpg"))
       = true).
Proof.
  unfold file_exists.
  destruct (path_exists d (OsPath.join output_dir filename)); [by split; [left|]|].
  destruct (should_convert cfg filename);
    destruct (path_exists d (OsPath.join output_dir (get_jpg_filename filename)));
    cbn [andb]; try (split; [by right; left|done]);
    destruct (OsPath.splitext filename) as [base ext]; cbn [fst snd];
    destruct (Parser.str_in _ _); destruct (path_exists d _); cbn [andb];
    split; try done; try (by right; right); intros [?|[[??]|[??]]]; done.
Qed.

Lemma file_exists_mono (cfg : Config.t) (d d' : filesystem) (output_dir filename : string) :
  dom d ⊆ dom d' →
  file_exists cfg d output_dir filename = true →
  file_exists cfg d' output_dir filename = true.
Proof.
  intros Hsub. rewrite !file_exists_iff.
  intros [H|[[? H]|[? H]]]; [left|right; left|right; right];
    eauto using path_exists_mono.
Qed.

(** The asset is there under its own name or under its JPG name. *)
Lemma file_exists_either_name (cfg : Config.t) (d : filesystem)
    (output_dir filename : string) :
  path_exists d (OsPath.join output_dir filename) = true
  ∨ path_exists d (OsPath.join output_dir (get_jpg_filename filename)) = true →
  file_exists cfg d output_dir filename = true.
Proof.
  rewrite file_exists_iff. intros [H|H]; [by left|].
  unfold get_jpg_filename in H. destruct (OsPath.splitext filename) as [base ext].
  cbn [fst snd]. destruct (Parser.str_in _ _); [right; right|left]; done.
Qed.

(** The JPG of a convertible name is there: the asset counts as present,
    whatever the conversion switch says. *)
Lemma file_exists_converted (cfg : Config.t) (d : filesystem)
    (output_dir filename base ext : string) :
  OsPath.splitext filename = (base, ext) →
  Parser.str_in (Py.lower ext) CONVERTIBLE_EXTENSIONS = true →
  path_exists d (OsPath.join output_dir (base +:+ ".jpg")) = true →
  file_exists cfg d output_dir filename = true.
Proof.
  intros Hsplit Hext Hjpg. apply file_exists_iff. right. right. by rewrite Hsplit.
Qed.

Section Skipping.

Context (pil : Pil.t) (cfg : Config.t) (self : MediaDownloader).
Context (media_files : list Parser.MediaFile) (output_dir : string) (on_disk : filesystem).
Context (i : nat) (media : Parser.MediaFile).

(** The states of a task that finds its file: the coroutine, and the
    events of the task so far. *)
Inductive skipping : prog bool → list event → Prop :=
| skipping_start :
    skipping (_download_file pil cfg (max_retries self) media output_dir) []
| skipping_checked :
    skipping (Incr Skipped 1 (PbarUpdate 1 (Ret true))) [Checked]
| skipping_counted :
    skipping (PbarUpdate 1 (Ret true)) [Checked; Counted Skipped 1]
| skipping_done :
    skipping (Ret true) [Checked; Counted Skipped 1; Progress 1].

Definition skips (s : world * pool) : Prop :=
  dom on_disk ⊆ dom (disk s.1)
  ∧ ∃ p, s.2 !! i = Some p ∧ skipping p (events_of i (log s.1)).

Lemma skips_step (s s' : world * pool) :
  file_exists cfg on_disk output_dir (Parser.filename media) = true →
  skips s → step s s' → skips s'.
Proof.
  destruct s as [w tasks]. intros Hthere [Hdisk (p & Hp & Hskip)] (j & a & Hmove).
  unfold move in Hmove. simpl in *.
  destruct (tasks !! j) as [q|] eqn:Hq; [|done].
  destruct (fire j a w q) as [[w' q']|] eqn:Hfire; [|done].
  injection Hmove as <-.
  destruct (fire_log _ _ _ _ _ _ Hfire) as [[e Hlog] Hgrow].
  split; [simpl; set_solver|]. simpl. rewrite Hlog, events_of_snoc.
  destruct (decide (j = i)) as [->|Hne].
  - rewrite list_lookup_insert_eq by (by eapply lookup_lt_Some).
    exists q'. split; [done|]. rewrite Hp in Hq. injection Hq as <-.
    destruct Hskip as [| | |]; simpl in Hfire.
    + unfold _download_file, read_fs in Hfire. rewrite mbind_eq in Hfire.
      cbn [bind fire] in Hfire. injection Hfire as <- <-.
      rewrite (file_exists_mono cfg on_disk (disk w)) by done.
      simpl in Hlog. apply app_inv_head in Hlog. injection Hlog as <-.
      apply skipping_checked.
    + injection Hfire as <- <-. simpl in Hlog.
      apply app_inv_head in Hlog. injection Hlog as <-. apply skipping_counted.
    + injection Hfire as <- <-. simpl in Hlog.
      apply app_inv_head in Hlog. injection Hlog as <-. apply skipping_done.
    + done.
  - rewrite list_lookup_insert_ne by done. rewrite app_nil_r. by exists p.
Qed.

Lemma skips_reachable (s : world * pool) :
  media_files !! i = Some media →
  file_exists cfg on_disk output_dir (Parser.filename media) = true →
  reachable pil cfg self media_files output_dir on_disk s →
  skips s.
Proof.
  intros Hmedia Hthere Hreach. unfold reachable in Hreach.
  assert (skips (initial_world self media_files on_disk,
                 tasks_of pil cfg self media_files output_dir)) as Hinit.
  { split; [done|]. simpl. eexists. split; [|apply skipping_start].
    unfold tasks_of. by rewrite list_lookup_fmap, Hmedia. }
  revert Hinit. induction Hreach; eauto using skips_step.
Qed.

(** What follows for a task that finds its file: it never asks the
    network, and once it has returned it has returned [True] after counting
    the asset as skipped, and nothing else. *)
Lemma skipping_outcome (p : prog bool) (evs : list event) :
  skipping p evs →
  (∀ u r, Requested u r ∉ evs)
  ∧ (∀ c n, Counted c n ∈ evs → c = Skipped ∧ n = 1%Z)
  ∧ (finished p = true →
     p = Ret true ∧ evs = [Checked; Counted Skipped 1; Progress 1]).
Proof.
  intros Hs. split_and!.
  - intros u r H.
    destruct Hs; repeat (apply elem_of_cons in H as [H|H]; [by simplify_eq|]);
      by apply elem_of_nil in H.
  - intros c n H.
    destruct Hs; repeat (apply elem_of_cons in H as [H|H]; [by simplify_eq|]);
      by apply elem_of_nil in H.
  - by destruct Hs.
Qed.

(** A present asset in a batch, under every schedule. *)
Lemma present_asset_skipped (w : world) (tasks : pool) :
  media_files !! i = Some media →
  file_exists cfg on_disk output_dir (Parser.filename media) = true →
  reachable pil cfg self media_files output_dir on_disk (w, tasks) →
  (∀ u r, Requested u r ∉ events_of i (log w))
  ∧ (∀ c n, Counted c n ∈ events_of i (log w) → c = Skipped ∧ n = 1%Z)
  ∧ (all_finished tasks = true →
     tasks !! i = Some (Ret true)
     ∧ events_of i (log w) = [Checked; Counted Skipped 1; Progress 1])
  ∧ skipped (stats w) = tally Skipped (log w).
Proof.
  intros Hmedia Hthere Hreach.
  destruct (skips_reachable _ Hmedia Hthere Hreach) as [_ (p & Hp & Hskip)]. simpl in *.
  destruct (skipping_outcome _ _ Hskip) as (Hreq & Hcount & Hfin).
  split_and!; [done|done| |].
  - intros Hall. unfold all_finished in Hall. rewrite forallb_forall in Hall.
    destruct Hfin as [-> ->]; [|done].
    apply Hall. by eapply list_elem_of_In, list_elem_of_lookup_2.
  - apply (reachable_tally pil cfg self media_files output_dir on_disk (w, tasks) Skipped Hreach).
Qed.

End Skipping.

(** C1.  An asset of the batch for which a file with its own name or with
    its JPG name is in the output directory when the call starts passes the
    existence check, and under every schedule its task makes no network
    request at any time, counts nothing but one skipped asset, and returns
    [True] having done just that; the counter [skipped] of the statistics is
    the sum of these counts. *)
Theorem present_asset_is_skipped (pil : Pil.t) (cfg : Config.t) (self : MediaDownloader)
    (media_files : list Parser.MediaFile) (output_dir : string) (on_disk : filesystem)
    (i : nat) (media : Parser.MediaFile) :
  media_files !! i = Some media →
  path_exists on_disk (OsPath.join output_dir (Parser.filename media)) = true
  ∨ path_exists on_disk
      (OsPath.join output_dir (get_jpg_filename (Parser.filename media))) = true →
  file_exists cfg on_disk output_dir (Parser.filename media) = true
  ∧ ∀ w tasks,
      reachable pil cfg self media_files output_dir on_disk (w, tasks) →
      (∀ u r, Requested u r ∉ events_of i (log w))
      ∧ (∀ c n, Counted c n ∈ events_of i (log w) → c = Skipped ∧ n = 1%Z)
      ∧ (all_finished tasks = true →
         tasks !! i = Some (Ret true)
         ∧ events_of i (log w) = [Checked; Counted Skipped 1; Progress 1])
      ∧ skipped (stats w) = tally Skipped (log w).
Proof.
  intros Hmedia Hthere.
  pose proof (file_exists_either_name cfg on_disk output_dir _ Hthere) as Hexists.
  split; [done|]. intros w tasks Hreach.
  by apply (present_asset_skipped pil cfg self media_files output_dir on_disk i media).
Qed.

(** The sample batch with the first image already on disk under its JPG
    name: its task is the one of index 0. *)
Lemma present_asset_is_skipped_witness :
  Sample.batch !! 0%nat
  = Some {| Parser.url := "https://arhivach.vc/storage/a/bb/0123abcd.png";
            Parser.filename := "0123abcd.png"; Parser.ftype := Parser.Image |}
  ∧ path_exists {[ "out/0123abcd.jpg" := [] ]}
      (OsPath.join "out" (get_jpg_filename "0123abcd.png")) = true
  ∧ ∃ result w,
      download_media_files Sample.pil_toy Config.default
        (Sample.downloader Config.default) (Sample.server 200 [Byte.x01]) Sample.batch
        "out" {[ "out/0123abcd.jpg" := [] ]} = Some (result, w)
      ∧ events_of 0 (log w) = [Checked; Counted Skipped 1; Progress 1]
      ∧ skipped result = tally Skipped (log w).
Proof.
  assert (path_exists {[ "out/0123abcd.jpg" := [] ]}
            (OsPath.join "out" (get_jpg_filename "0123abcd.png")) = true) as Hthere
    by reflexivity.
  split; [reflexivity|]. split; [exact Hthere|].
  destruct (download_media_files_total Sample.pil_toy Config.default
              (Sample.downloader Config.default) Sample.batch "out"
              {[ "out/0123abcd.jpg" := [] ]} (Sample.server 200 [Byte.x01]))
    as (result & w & Hrun); [by compute|].
  destruct (download_media_files_returns _ _ _ _ _ _ _ _ _ Hrun)
    as (tasks & Hreach & Hfin & ->).
  exists (stats w), w. split; [exact Hrun|].
  destruct (present_asset_is_skipped Sample.pil_toy Config.default
              (Sample.downloader Config.default) Sample.batch "out"
              {[ "out/0123abcd.jpg" := [] ]} 0 _ eq_refl (or_intror Hthere))
    as [_ Hall].
  destruct (Hall w tasks Hreach) as (_ & _ & Hdone & Hskipped).
  split; [exact (proj2 (Hdone Hfin))|exact Hskipped].
Defined.

(** C10.  Take an asset whose name has a convertible extension ([.png],
    [.webp] or [.bmp], in any case) and suppose the file with the same base
    name and the extension [.jpg] is in the output directory when the call
    starts.  Whatever the configuration, and so also with the conversion
    switched off, when [should_convert] is false for every name, the
    existence check answers yes; under every schedule the task of the asset
    makes no network request, counts one skipped asset and nothing else, and
    returns [True]. *)
Theorem converted_copy_counts_as_present (pil : Pil.t) (cfg : Config.t)
    (self : MediaDownloader) (media_files : list Parser.MediaFile) (output_dir : string)
    (on_disk : filesystem) (i : nat) (media : Parser.MediaFile) (base ext : string) :
  media_files !! i = Some media →
  OsPath.splitext (Parser.filename media) = (base, ext) →
  Parser.str_in (Py.lower ext) CONVERTIBLE_EXTENSIONS = true →
  path_exists on_disk (OsPath.join output_dir (base +:+ ".jpg")) = true →
  file_exists cfg on_disk output_dir (Parser.filename media) = true
  ∧ (Config.CONVERT_IMAGES_TO_JPG cfg = false →
     should_convert cfg (Parser.filename media) = false)
  ∧ ∀ w tasks,
      reachable pil cfg self media_files output_dir on_disk (w, tasks) →
      (∀ u r, Requested u r ∉ events_of i (log w))
      ∧ (∀ c n, Counted c n ∈ events_of i (log w) → c = Skipped ∧ n = 1%Z)
      ∧ (all_finished tasks = true →
         tasks !! i = Some (Ret true)
         ∧ events_of i (log w) = [Checked; Counted Skipped 1; Progress 1])
      ∧ skipped (stats w) = tally Skipped (log w).
Proof.
  intros Hmedia Hsplit Hext Hjpg.
  pose proof (file_exists_converted cfg on_disk output_dir _ _ _ Hsplit Hext Hjpg) as Hexists.
  split_and!; [done| |].
  - intros Hoff. unfold should_convert. by rewrite Hoff.
  - intros w tasks Hreach.
    by apply (present_asset_skipped pil cfg self media_files output_dir on_disk i media).
Qed.

(** The sample batch with the conversion switched off and the JPG of the
    first image on disk. *)
Lemma converted_copy_counts_as_present_witness :
  OsPath.splitext "0123abcd.png" = ("0123abcd", ".png")
  ∧ Parser.str_in (Py.lower ".png") CONVERTIBLE_EXTENSIONS = true
  ∧ path_exists {[ "out/0123abcd.jpg" := [] ]} (OsPath.join "out" ("0123abcd" +:+ ".jpg"))
    = true
  ∧ Config.CONVERT_IMAGES_TO_JPG Config.no_convert = false
  ∧ ∃ result w,
      download_media_files Sample.pil_toy Config.no_convert
        (Sample.downloader Config.no_convert) (Sample.server 200 [Byte.x01]) Sample.batch
        "out" {[ "out/0123abcd.jpg" := [] ]} = Some (result, w)
      ∧ events_of 0 (log w) = [Checked; Counted Skipped 1; Progress 1].
Proof.
  assert (path_exists {[ "out/0123abcd.jpg" := [] ]}
            (OsPath.join "out" ("0123abcd" +:+ ".jpg")) = true) as Hjpg by reflexivity.
  split_and!; [reflexivity|reflexivity|exact Hjpg|reflexivity|].
  destruct (download_media_files_total Sample.pil_toy Config.no_convert
              (Sample.downloader Config.no_convert) Sample.batch "out"
              {[ "out/0123abcd.jpg" := [] ]} (Sample.server 200 [Byte.x01]))
    as (result & w & Hrun); [by compute|].
  destruct (download_media_files_returns _ _ _ _ _ _ _ _ _ Hrun)
    as (tasks & Hreach & Hfin & ->).
  exists (stats w), w. split; [exact Hrun|].
  destruct (converted_copy_counts_as_present Sample.pil_toy Config.no_convert
              (Sample.downloader Config.no_convert) Sample.batch "out"
              {[ "out/0123abcd.jpg" := [] ]} 0 _ "0123abcd" ".png"
              eq_refl eq_refl eq_refl Hjpg)
    as (_ & _ & Hall).
  destruct (Hall w tasks Hreach) as (_ & _ & Hdone & _).
  exact (proj2 (Hdone Hfin)).
Defined.

End Engine.

(** ** File names *)

Module FileNames.

Import StrFacts.

(** *** The last occurrence of a character *)

Lemma rfind_app (c : ascii) (s u : string) :
  OsPath.rfind c (s +:+ u)
  = match OsPath.rfind c u with
    | Some i => Some (String.length s + i)%nat
    | None => OsPath.rfind c s
    end.
Proof.
  induction s as [|d s IH]; norm_app.
  - by destruct (OsPath.rfind c u).
  - cbn [OsPath.rfind String.length]. rewrite IH. by destruct (OsPath.rfind c u).
Qed.

Lemma rfind_None (c : ascii) (s : string) :
  OsPath.rfind c s = None ↔ Py.char_in c s = false.
Proof.
  induction s as [|d s IH]; cbn [OsPath.rfind Py.char_in]; [done|].
  rewrite (Ascii.eqb_sym c d).
  destruct (OsPath.rfind c s) as [i|].
  - split; [done|]. intros [_ H]%orb_false_iff. apply IH in H. done.
  - destruct (Ascii.eqb d c); [done|]. simpl. split; [intros _; by apply IH|done].
Qed.

Lemma rfind_Some (c : ascii) (p : string) (i : nat) :
  OsPath.rfind c p = Some i →
  ∃ s t, p = s +:+ String c t ∧ String.length s = i ∧ Py.char_in c t = false.
Proof.
  revert i. induction p as [|d p IH]; intros i; cbn [OsPath.rfind]; [done|].
  destruct (OsPath.rfind c p) as [j|] eqn:Hp.
  - intros [= <-]. destruct (IH j eq_refl) as (s & t & -> & <- & Ht).
    exists (String d s), t. by norm_app.
  - destruct (Ascii.eqb d c) eqn:Hd; [|done]. intros [= <-].
    apply ascii_eqb_true in Hd as ->. exists "", p. norm_app.
    split; [done|]. split; [done|]. by apply rfind_None.
Qed.

Lemma rfind_last (c : ascii) (s t : string) :
  Py.char_in c t = false → OsPath.rfind c (s +:+ String c t) = Some (String.length s).
Proof.
  intros Ht. rewrite rfind_app. cbn [OsPath.rfind].
  apply rfind_None in Ht as ->. rewrite Ascii.eqb_refl. f_equal. lia.
Qed.

Lemma rfind_lt (c : ascii) (p : string) (i : nat) :
  OsPath.rfind c p = Some i → (i < String.length p)%nat.
Proof.
  intros (s & t & -> & <- & _)%rfind_Some. rewrite slength_app. simpl. lia.
Qed.

(** *** Slices *)

Lemma take_app_length (s t : string) : Py.take (String.length s) (s +:+ t) = s.
Proof.
  unfold Py.take. induction s as [|c s IH]; norm_app.
  - by destruct t.
  - simpl. by rewrite IH.
Qed.

Lemma drop_app_length (s t : string) : Py.drop (String.length s) (s +:+ t) = t.
Proof. induction s as [|c s IH]; norm_app; [done|]. simpl. exact IH. Qed.

Lemma substring_drop (from : nat) (s t : string) :
  (from ≤ String.length s)%nat →
  String.substring from (String.length s - from) (s +:+ t) = Py.drop from s.
Proof.
  revert from. induction s as [|c s IH]; intros from Hle.
  - simpl in Hle. assert (from = 0%nat) as -> by lia. norm_app. simpl. by destruct t.
  - destruct from as [|from].
    + change (String.length (String c s) - 0)%nat with (S (String.length s)).
      norm_app. cbn [String.substring Py.drop]. f_equal.
      specialize (IH 0%nat ltac:(lia)). rewrite Nat.sub_0_r in IH.
      rewrite IH. by destruct s.
    + norm_app. cbn [String.substring String.length Py.drop Nat.sub].
      apply IH. simpl in Hle. lia.
Qed.

Lemma char_in_drop (c : ascii) (n : nat) (s : string) :
  Py.char_in c (Py.drop n s) = true → Py.char_in c s = true.
Proof.
  revert s. induction n as [|n IH]; intros [|d s]; simpl; try done.
  intros H%IH. rewrite H. apply orb_true_r.
Qed.

(** *** [os.path.splitext] *)

(** The last component of [base] has a character that is not a dot: it
    can carry an extension. *)
Definition has_stem (base : string) : Prop :=
  Py.lstrip "." (Parser.after_last "/" base) ≠ "".

(** A name made of a base with a stem and of an extension without dot or
    slash splits into the two. *)
Lemma splitext_ext (base e : string) :
  Py.char_in "." e = false → Py.char_in "/" e = false → has_stem base →
  OsPath.splitext (base +:+ String "." e) = (base, String "." e).
Proof.
  intros Hdot Hslash Hstem. unfold OsPath.splitext.
  rewrite (rfind_last "." base e Hdot).
  rewrite (rfind_app "/" base (String "." e)).
  assert (OsPath.rfind "/" (String "." e) = None) as ->.
  { apply rfind_None. cbn [Py.char_in]. by rewrite Hslash. }
  rewrite take_app_length, drop_app_length.
  unfold has_stem, Parser.after_last in Hstem. unfold OsPath.has_non_dot.
  destruct (OsPath.rfind "/" base) as [j|] eqn:Hj.
  - pose proof (rfind_lt _ _ _ Hj) as Hlt.
    rewrite substring_drop by lia.
    destruct (S j <=? String.length base)%nat eqn:Hle;
      [|apply Nat.leb_gt in Hle; lia].
    destruct (String.eqb_spec (Py.lstrip "." (Py.drop (S j) base)) ""); done.
  - rewrite substring_drop by lia. cbn [Py.drop Nat.leb].
    destruct (String.eqb_spec (Py.lstrip "." base) ""); done.
Qed.

(** What [splitext] returns: the two parts make up the name, and an
    extension that is not empty is a dot followed by characters that are
    neither dots nor slashes, after a base with a stem. *)
Lemma splitext_inv (p base ext : string) :
  OsPath.splitext p = (base, ext) →
  p = base +:+ ext
  ∧ (ext = ""
     ∨ ∃ e, ext = String "." e ∧ Py.char_in "." e = false
            ∧ Py.char_in "/" e = false ∧ has_stem base).
Proof.
  intros Hsplit. split; [by apply ImagePass.splitext_app|].
  revert Hsplit. unfold OsPath.splitext.
  destruct (OsPath.rfind "." p) as [di|] eqn:Hdi; [|intros [= <- <-]; by left].
  destruct (rfind_Some _ _ _ Hdi) as (s & t & -> & <- & Ht).
  rewrite rfind_app.
  destruct (OsPath.rfind "/" (String "." t)) as [j|] eqn:Hj.
  - (* the last slash is after the last dot *)
    destruct (S (String.length s + j) <=? String.length s)%nat eqn:Hle;
      [apply Nat.leb_le in Hle; lia|].
    cbn [andb]. intros [= <- <-]. by left.
  - apply rfind_None in Hj. cbn [Py.char_in] in Hj. apply orb_false_iff in Hj as [_ Hj].
    rewrite take_app_length, drop_app_length.
    destruct (_ && _) eqn:Hcond; [|intros [= <- <-]; by left].
    intros [= <- <-]. right. exists t. split_and!; try done.
    apply andb_true_iff in Hcond as [Hle Hnd]. unfold OsPath.has_non_dot in Hnd.
    unfold has_stem, Parser.after_last.
    destruct (OsPath.rfind "/" s) as [k|] eqn:Hk.
    + pose proof (rfind_lt _ _ _ Hk). rewrite substring_drop in Hnd by lia.
      intros Heq. rewrite Heq in Hnd. done.
    + rewrite substring_drop in Hnd by lia. cbn [Py.drop] in Hnd.
      intros Heq. rewrite Heq in Hnd. done.
Qed.

(** *** The JPG name of an asset *)

(** The name [_download_file] stores an asset under, its
    [final_filename]. *)
Definition stored_name (cfg : Config.t) (filename : string) : string :=
  if Downloader.should_convert cfg filename
  then Downloader.get_jpg_filename filename
  else filename.

Lemma convertible_not_empty (ext : string) :
  Parser.str_in (Py.lower ext) Downloader.CONVERTIBLE_EXTENSIONS = true → ext ≠ "".
Proof. by intros H ->. Qed.

(** The JPG name of a name with a convertible extension, and how it
    splits. *)
Lemma get_jpg_filename_convertible (filename base ext : string) :
  OsPath.splitext filename = (base, ext) →
  Parser.str_in (Py.lower ext) Downloader.CONVERTIBLE_EXTENSIONS = true →
  Downloader.get_jpg_filename filename = base +:+ ".jpg"
  ∧ OsPath.splitext (base +:+ ".jpg") = (base, ".jpg").
Proof.
  intros Hsplit Hconv. unfold Downloader.get_jpg_filename. rewrite Hsplit, Hconv.
  split; [done|].
  destruct (splitext_inv _ _ _ Hsplit) as [_ [->|(e & _ & _ & _ & Hstem)]]; [done|].
  by apply (splitext_ext base "jpg").
Qed.

(** The name of an asset in the page is the name it is stored under. *)
Lemma get_html_filename_stored (cfg : Config.t) (filename : string) :
  Parser.get_html_filename cfg filename = stored_name cfg filename.
Proof.
  unfold Parser.get_html_filename, stored_name, Downloader.should_convert,
    Downloader.get_jpg_filename.
  destruct (Config.CONVERT_IMAGES_TO_JPG cfg); cbn [negb]; [|done].
  destruct (OsPath.splitext filename) as [base ext]. cbn [snd].
  change Parser.CONVERTIBLE_EXTENSIONS with Downloader.CONVERTIBLE_EXTENSIONS.
  by destruct (Parser.str_in _ _).
Qed.

Lemma should_convert_jpg (cfg : Config.t) (filename : string) :
  Downloader.should_convert cfg (Downloader.get_jpg_filename filename) = false.
Proof.
  unfold Downloader.should_convert.
  destruct (Config.CONVERT_IMAGES_TO_JPG cfg); cbn [negb]; [|done].
  destruct (OsPath.splitext filename) as [base ext] eqn:Hsplit.
  destruct (Parser.str_in (Py.lower ext) Downloader.CONVERTIBLE_EXTENSIONS) eqn:Hconv.
  - destruct (get_jpg_filename_convertible _ _ _ Hsplit Hconv) as [-> ->]. done.
  - unfold Downloader.get_jpg_filename. by rewrite Hsplit, Hconv, Hsplit.
Qed.

(** A file stored under the name [_download_file] chose is found by
    [file_exists]. *)
Lemma stored_name_exists (cfg : Config.t) (d : Downloader.filesystem)
    (output_dir filename : string) :
  Downloader.path_exists d (OsPath.join output_dir (stored_name cfg filename)) = true →
  Downloader.file_exists cfg d output_dir filename = true.
Proof.
  intros H. apply Engine.file_exists_either_name. unfold stored_name in H.
  destruct (Downloader.should_convert cfg filename); auto.
Qed.

(** X1.  The JPG name of an asset is stable and is the name used on both
    sides.  Taking the JPG name twice is taking it once, and a JPG name is
    never converted again.  A name that is converted has a convertible
    extension, which [.jpg] replaces.  The name [get_html_filename] puts in
    the page is the name [_download_file] stores the asset under: the JPG
    name when the asset is converted, the name itself otherwise; and a file
    stored under that name is found by [file_exists]. *)
Theorem jpg_name_is_stable (cfg : Config.t) (filename : string) :
  Downloader.get_jpg_filename (Downloader.get_jpg_filename filename)
  = Downloader.get_jpg_filename filename
  ∧ Downloader.should_convert cfg (Downloader.get_jpg_filename filename) = false
  ∧ (Downloader.should_convert cfg filename = true →
     ∃ base ext e,
       filename = base +:+ ext ∧ ext = String "." e
       ∧ Py.lower ext ∈ Downloader.CONVERTIBLE_EXTENSIONS
       ∧ Downloader.get_jpg_filename filename = base +:+ ".jpg")
  ∧ Parser.get_html_filename cfg filename
    = (if Downloader.should_convert cfg filename
       then Downloader.get_jpg_filename filename else filename)
  ∧ (∀ d output_dir,
       Downloader.path_exists d
         (OsPath.join output_dir (Parser.get_html_filename cfg filename)) = true →
       Downloader.file_exists cfg d output_dir filename = true).
Proof.
  split_and!.
  - destruct (OsPath.splitext filename) as [base ext] eqn:Hsplit.
    destruct (Parser.str_in (Py.lower ext) Downloader.CONVERTIBLE_EXTENSIONS) eqn:Hconv.
    + destruct (get_jpg_filename_convertible _ _ _ Hsplit Hconv) as [-> Hjpg].
      unfold Downloader.get_jpg_filename. by rewrite Hjpg.
    + unfold Downloader.get_jpg_filename. by rewrite Hsplit, Hconv, Hsplit, Hconv.
  - apply should_convert_jpg.
  - unfold Downloader.should_convert.
    destruct (Config.CONVERT_IMAGES_TO_JPG cfg); cbn [negb]; [|done].
    destruct (OsPath.splitext filename) as [base ext] eqn:Hsplit. cbn [snd].
    intros Hconv.
    destruct (splitext_inv _ _ _ Hsplit) as [-> [->|(e & -> & _)]]; [done|].
    exists base, (String "." e), e. split_and!; try done.
    + by apply ImagePass.str_in_elem_of.
    + exact (proj1 (get_jpg_filename_convertible _ _ _ Hsplit Hconv)).
  - apply get_html_filename_stored.
  - intros d output_dir. rewrite get_html_filename_stored. apply stored_name_exists.
Qed.

(** *** The file name of an address *)

Lemma drop_app_length_S (c : ascii) (s t : string) :
  Py.drop (S (String.length s)) (s +:+ String c t) = t.
Proof. induction s as [|d s IH]; norm_app; [done|]. simpl. exact IH. Qed.

Lemma char_in_after_last (c : ascii) (s : string) :
  Py.char_in c (Parser.after_last c s) = false.
Proof.
  unfold Parser.after_last. destruct (OsPath.rfind c s) as [i|] eqn:Hi.
  - destruct (rfind_Some _ _ _ Hi) as (a & t & -> & <- & Ht).
    by rewrite drop_app_length_S.
  - by apply rfind_None.
Qed.

Lemma char_in_before_first (c d : ascii) (s : string) :
  Py.char_in c (Parser.before_first d s) = true →
  Py.char_in c s = true ∧ c ≠ d.
Proof.
  induction s as [|e s IH]; cbn [Parser.before_first Py.char_in]; [done|].
  destruct (Ascii.eqb e d) eqn:Hed; [done|]. cbn [Py.char_in].
  intros [Hce|H]%orb_true_iff.
  - rewrite Hce. split; [done|]. apply ascii_eqb_true in Hce as ->.
    intros ->. by rewrite Ascii.eqb_refl in Hed.
  - destruct (IH H) as [-> ?]. split; [apply orb_true_r|done].
Qed.

Lemma char_in_false_before_first (c d : ascii) (s : string) :
  Py.char_in c s = false ∨ c = d → Py.char_in c (Parser.before_first d s) = false.
Proof.
  intros H. destruct (Py.char_in c (Parser.before_first d s)) eqn:Hin; [|done].
  apply char_in_before_first in Hin as [Hin Hne]. destruct H as [H| ->]; [|done].
  by rewrite H in Hin.
Qed.

(** The candidate name of [_extract_filename] and
    [_extract_resource_filename]: the last component of the path, up to a
    question mark. *)
Definition last_segment (lib : Ext.t) (u : string) : string :=
  Parser.before_first "?" (Parser.after_last "/" (Ext.urlparse_path lib u)).

Lemma last_segment_plain (lib : Ext.t) (u : string) :
  Py.char_in "/" (last_segment lib u) = false
  ∧ Py.char_in "?" (last_segment lib u) = false.
Proof.
  unfold last_segment. split; apply char_in_false_before_first; [left|by right].
  apply char_in_after_last.
Qed.

(** A name without a slash is stored in the directory itself. *)
Lemma join_plain (dir name : string) :
  Py.char_in "/" name = false → dir ≠ "" → Py.endswith dir "/" = false →
  OsPath.join dir name = dir +:+ "/" +:+ name.
Proof.
  intros Hname Hdir Hslash. unfold OsPath.join, Py.startswith.
  destruct name as [|c name]; cbn [String.prefix].
  - destruct (String.eqb_spec dir ""); [done|]. by rewrite Hslash.
  - cbn [Py.char_in] in Hname. apply orb_false_iff in Hname as [Hc _].
    destruct (Ascii.ascii_dec "/" c) as [<-|Hne]; [done|].
    destruct (String.eqb_spec dir ""); [done|]. by rewrite Hslash.
Qed.



(** *** The file name of a style sheet or a script *)

Lemma endswith_suffix (s suf : string) :
  Py.endswith s suf = true → ∃ pre, s = pre +:+ suf.
Proof.
  induction s as [|c s IH]; cbn [Py.endswith].
  - rewrite orb_false_r. intros ->%String.eqb_eq. by exists "".
  - intros [->%String.eqb_eq|H]%orb_true_iff; [by exists ""|].
    destruct (IH H) as [pre ->]. exists (String c pre). by norm_app.
Qed.

Lemma contains_dot_app (s t : string) : Py.contains "." (s +:+ "." +:+ t) = true.
Proof. apply contains_spec. by exists s, t. Qed.



End FileNames.

(** ** What a download task does, step by step

    A monitor reads the events of one task in order and keeps a state.  A
    coroutine obeys a monitor from a state when, whatever the outside world
    answers, the state stays safe at every point of every run and satisfies
    the postcondition when the coroutine returns. *)

Module Tasks.

Import Downloader Run Engine.

Section Monitor.

Context {St : Type} (next : St → event → St) (safe : St → Prop).

Inductive obeys {A} (post : St → A → Prop) : St → prog A → Prop :=
| obeys_ret s a : safe s → post s a → obeys post s (Ret a)
| obeys_read_fs s k :
    safe s → (∀ d, obeys post (next s Checked) (k d)) → obeys post s (ReadFs k)
| obeys_incr s c n k :
    safe s → obeys post (next s (Counted c n)) k → obeys post s (Incr c n k)
| obeys_pbar s n k :
    safe s → obeys post (next s (Progress n)) k → obeys post s (PbarUpdate n k)
| obeys_acquire s k :
    safe s → obeys post (next s Acquired) k → obeys post s (Acquire k)
| obeys_release s k :
    safe s → obeys post (next s Released) k → obeys post s (Release k)
| obeys_get s u k :
    safe s → (∀ r, obeys post (next s (Requested u r)) (k r)) → obeys post s (HttpGet u k)
| obeys_read s k :
    safe s → (∀ r, obeys post (next s (ReadBody r)) (k r)) → obeys post s (HttpRead k)
| obeys_sleep s secs k :
    safe s → obeys post (next s (Slept secs)) k → obeys post s (Sleep secs k)
| obeys_offload s k :
    safe s → obeys post (next s Offloaded) k → obeys post s (Offload k)
| obeys_write s path content k :
    safe s →
    obeys post (next s (Wrote path content true)) (k true) →
    (∀ partial, obeys post (next s (Wrote path partial false)) (k false)) →
    obeys post s (WriteFile path content k).

Lemma obeys_safe {A} (post : St → A → Prop) (s : St) (p : prog A) :
  obeys post s p → safe s.
Proof. by destruct 1. Qed.

Lemma obeys_bind {A B} (post : St → A → Prop) (post' : St → B → Prop) (s : St)
    (p : prog A) (f : A → prog B) :
  obeys post s p → (∀ s' a, post s' a → obeys post' s' (f a)) → obeys post' s (p ≫= f).
Proof.
  intros Hp Hf. rewrite mbind_eq.
  induction Hp; cbn [bind]; try (by constructor); auto.
Qed.

Lemma obeys_then {A B} (post : St → A → Prop) (post' : St → B → Prop) (s : St)
    (p : prog A) (q : prog B) :
  obeys post s p → (∀ s' a, post s' a → obeys post' s' q) → obeys post' s (p ;; q).
Proof. apply obeys_bind. Qed.

Lemma obeys_weaken {A} (post post' : St → A → Prop) (s : St) (p : prog A) :
  obeys post s p → (∀ s' a, post s' a → post' s' a) → obeys post' s p.
Proof. intros Hp Hpost. induction Hp; constructor; auto. Qed.

(** The state of the monitor after the events [evs]. *)
Definition observe (s0 : St) (evs : list event) : St := fold_left next evs s0.

Lemma observe_snoc (s0 : St) (evs : list event) (e : event) :
  observe s0 (evs ++ [e]) = next (observe s0 evs) e.
Proof. unfold observe. by rewrite fold_left_app. Qed.

(** A step of a task that obeys the monitor logs one event and leaves a
    task that obeys it from the next state. *)
Lemma fire_obeys {A} (post : St → A → Prop) (s : St) (i : nat) (a : answer)
    (w w' : world) (p p' : prog A) :
  obeys post s p →
  fire i a w p = Some (w', p') →
  ∃ e, log w' = log w ++ [(i, e)] ∧ obeys post (next s e) p'.
Proof.
  intros Hp. destruct Hp; simpl; try done;
    try (intros [= <- <-]; eexists; split; [done|]; by auto).
  - destruct (0 <? semaphore w)%Z; [|done]. intros [= <- <-]. by eexists.
  - destruct a; try done. intros [= <- <-]. eexists. split; [done|]. auto.
  - destruct a; try done. intros [= <- <-]. eexists. split; [done|]. auto.
  - destruct a as [| | |[| |partial]]; try done; intros [= <- <-];
      eexists; (split; [done|]); auto.
Qed.

(** Task [i] of the pool obeys the monitor, from the state its events so
    far have led to. *)
Definition watched (i : nat) (post : St → bool → Prop) (s0 : St)
    (s : world * pool) : Prop :=
  ∃ p, s.2 !! i = Some p ∧ obeys post (observe s0 (events_of i (log s.1))) p.

Lemma watched_step (i : nat) (post : St → bool → Prop) (s0 : St) (s s' : world * pool) :
  watched i post s0 s → step s s' → watched i post s0 s'.
Proof.
  destruct s as [w tasks]. intros (p & Hp & Hobeys) (j & a & Hmove).
  unfold move in Hmove. cbn [fst snd] in *.
  destruct (tasks !! j) as [q|] eqn:Hq; [|done].
  destruct (fire j a w q) as [[w' q']|] eqn:Hfire; [|done].
  injection Hmove as <-. unfold watched. cbn [fst snd].
  destruct (decide (j = i)) as [->|Hne].
  - rewrite Hp in Hq. injection Hq as <-.
    destruct (fire_obeys _ _ _ _ _ _ _ _ Hobeys Hfire) as (e & Hlog & Hobeys').
    exists q'. split.
    + apply list_lookup_insert_eq. by eapply lookup_lt_Some.
    + rewrite Hlog, events_of_snoc, decide_True by done. by rewrite observe_snoc.
  - destruct (fire_log _ _ _ _ _ _ Hfire) as [[e Hlog] _].
    exists p. split.
    + by rewrite list_lookup_insert_ne.
    + rewrite Hlog, events_of_snoc, decide_False by done. by rewrite app_nil_r.
Qed.

Lemma watched_steps (i : nat) (post : St → bool → Prop) (s0 : St) (s s' : world * pool) :
  watched i post s0 s → rtc step s s' → watched i post s0 s'.
Proof. intros Hs Hsteps. induction Hsteps; eauto using watched_step. Qed.

(** A task of a batch whose coroutine obeys the monitor from [s0] obeys it
    in every state of the batch. *)
Lemma reachable_watched (pil : Pil.t) (cfg : Config.t) (self : MediaDownloader)
    (media_files : list Parser.MediaFile) (output_dir : string) (on_disk : filesystem)
    (i : nat) (media : Parser.MediaFile) (post : St → bool → Prop) (s0 : St)
    (s : world * pool) :
  media_files !! i = Some media →
  obeys post s0 (_download_file pil cfg (max_retries self) media output_dir) →
  reachable pil cfg self media_files output_dir on_disk s →
  watched i post s0 s.
Proof.
  intros Hi Hobeys Hreach. eapply watched_steps; [|exact Hreach].
  eexists. cbn [fst snd]. split; [|exact Hobeys].
  unfold tasks_of. by rewrite list_lookup_fmap, Hi.
Qed.

(** What a watched task tells: the state is safe, and satisfies the
    postcondition once the task has returned. *)
Lemma watched_safe (i : nat) (post : St → bool → Prop) (s0 : St) (w : world) (tasks : pool) :
  watched i post s0 (w, tasks) → safe (observe s0 (events_of i (log w))).
Proof. intros (p & _ & Hobeys). by eapply obeys_safe. Qed.

Lemma watched_returned (i : nat) (post : St → bool → Prop) (s0 : St) (w : world)
    (tasks : pool) (b : bool) :
  watched i post s0 (w, tasks) → tasks !! i = Some (Ret b) →
  post (observe s0 (events_of i (log w))) b.
Proof.
  intros (p & Hp & Hobeys) Hb. cbn [fst snd] in *. rewrite Hb in Hp.
  injection Hp as <-. by inversion Hobeys.
Qed.

End Monitor.

(** Unfold the monad operations at the head of a coroutine. *)
Ltac obey :=
  repeat first
    [ rewrite mbind_eq
    | progress unfold mret, prog_ret, incr, pbar_update, acquire, release,
        http_get, http_read, sleep, offload, write_file, read_fs
    | progress cbn [bind] ].

(** Follow a coroutine through its actions, as far as they are in sight:
    [advance] computes the next state of the monitor and [side] proves that
    a state is safe. *)
Ltac obeys_go advance side :=
  repeat first
    [ progress obey
    | progress advance
    | apply obeys_read_fs; [side|intros ?]
    | apply obeys_incr; [side|]
    | apply obeys_pbar; [side|]
    | apply obeys_acquire; [side|]
    | apply obeys_release; [side|]
    | apply obeys_get; [side|intros ?]
    | apply obeys_read; [side|intros ?]
    | apply obeys_sleep; [side|]
    | apply obeys_offload; [side|]
    | apply obeys_write; [side| |intros ?] ].

(** *** Sums over the events *)

(** The sum of the weights of the events. *)
Definition weigh (wt : event → Z) (evs : list event) : Z :=
  foldr (λ e acc, wt e + acc)%Z 0%Z evs.

(** The sum of [f 0], ..., [f (n - 1)]. *)
Definition sum_over (n : nat) (f : nat → Z) : Z :=
  foldr (λ i acc, f i + acc)%Z 0%Z (seq 0 n).

Lemma weigh_app (wt : event → Z) (evs1 evs2 : list event) :
  weigh wt (evs1 ++ evs2) = (weigh wt evs1 + weigh wt evs2)%Z.
Proof. induction evs1 as [|e evs1 IH]; simpl; [done|]. rewrite IH. lia. Qed.

Lemma weigh_cons (wt : event → Z) (e : event) (evs : list event) :
  weigh wt (e :: evs) = (wt e + weigh wt evs)%Z.
Proof. done. Qed.

Lemma weigh_snoc (wt : event → Z) (evs : list event) (e : event) :
  weigh wt (evs ++ [e]) = (weigh wt evs + wt e)%Z.
Proof. rewrite weigh_app. simpl. lia. Qed.

Lemma sum_over_ext (n : nat) (f g : nat → Z) :
  (∀ i, (i < n)%nat → f i = g i) → sum_over n f = sum_over n g.
Proof.
  unfold sum_over. intros H.
  assert (∀ l : list nat, (∀ i, i ∈ l → (i < n)%nat) →
            foldr (λ i acc, f i + acc)%Z 0%Z l = foldr (λ i acc, g i + acc)%Z 0%Z l) as Hl.
  { induction l as [|i l IH]; intros Hin; simpl; [done|].
    rewrite IH, H; [done| |]; [apply Hin; left|intros; apply Hin; by right]. }
  apply Hl. intros i Hi%elem_of_seq. lia.
Qed.

Lemma sum_over_add (n : nat) (f g : nat → Z) :
  sum_over n (λ i, f i + g i)%Z = (sum_over n f + sum_over n g)%Z.
Proof.
  unfold sum_over. induction (seq 0 n) as [|i l IH]; simpl; [done|]. rewrite IH. lia.
Qed.

Lemma sum_over_single (n j : nat) (x : Z) :
  (j < n)%nat → sum_over n (λ i, if decide (j = i) then x else 0)%Z = x.
Proof.
  unfold sum_over. intros Hj.
  assert (∀ lo len, foldr (λ i acc, (if decide (j = i) then x else 0) + acc)%Z 0%Z (seq lo len)
                    = if decide (lo ≤ j < lo + len)%nat then x else 0%Z) as Hseq.
  { intros lo len. revert lo. induction len as [|len IH]; intros lo; simpl.
    - destruct (decide _); [lia|done].
    - rewrite IH. repeat destruct (decide _); lia. }
  rewrite Hseq. destruct (decide _); [done|lia].
Qed.

Lemma sum_over_nonneg (n : nat) (f : nat → Z) :
  (∀ i, (i < n)%nat → 0 ≤ f i)%Z → (0 ≤ sum_over n f)%Z.
Proof.
  unfold sum_over. intros H.
  assert (∀ l : list nat, (∀ i, i ∈ l → (i < n)%nat) →
            (0 ≤ foldr (λ i acc, f i + acc) 0 l)%Z) as Hl.
  { induction l as [|i l IH]; intros Hin; simpl; [done|].
    specialize (H i (Hin i ltac:(left))).
    specialize (IH (λ k Hk, Hin k ltac:(by right))). lia. }
  apply Hl. intros i Hi%elem_of_seq. lia.
Qed.

Lemma events_of_cons (i j : nat) (e : event) (l : list (nat * event)) :
  events_of i ((j, e) :: l) = (if decide (j = i) then [e] else []) ++ events_of i l.
Proof. unfold events_of. simpl. by destruct (decide (j = i)). Qed.

(** The weight of a log is the sum of the weights of the tasks. *)
Lemma weigh_by_task (wt : event → Z) (n : nat) (l : list (nat * event)) :
  (∀ j e, (j, e) ∈ l → (j < n)%nat) →
  weigh wt l.*2 = sum_over n (λ i, weigh wt (events_of i l)).
Proof.
  induction l as [|[j e] l IH]; intros Hin.
  - simpl. symmetry. transitivity (sum_over n (λ _, 0%Z)).
    + by apply sum_over_ext.
    + unfold sum_over. induction (seq 0 n); simpl; lia.
  - rewrite fmap_cons, weigh_cons. cbn [snd].
    rewrite IH by (intros; eapply Hin; by right).
    rewrite (sum_over_ext n (λ i, weigh wt (events_of i ((j, e) :: l)))
               (λ i, (if decide (j = i) then wt e else 0) + weigh wt (events_of i l))%Z).
    + rewrite sum_over_add, sum_over_single; [done|]. eapply Hin. by left.
    + intros i _. rewrite events_of_cons, weigh_app.
      destruct (decide (j = i)); simpl; lia.
Qed.

(** The events of a log are those of the tasks of the pool. *)
Definition indexed (s : world * pool) : Prop :=
  ∀ j e, (j, e) ∈ log s.1 → (j < length s.2)%nat.

Lemma indexed_step (s s' : world * pool) : indexed s → step s s' → indexed s'.
Proof.
  destruct s as [w tasks]. intros Hs (j & a & Hmove). unfold move in Hmove.
  cbn [fst snd] in *.
  destruct (tasks !! j) as [q|] eqn:Hq; [|done].
  destruct (fire j a w q) as [[w' q']|] eqn:Hfire; [|done].
  injection Hmove as <-.
  destruct (fire_log _ _ _ _ _ _ Hfire) as [[e Hlog] _].
  intros k e'. cbn [fst snd]. rewrite Hlog, length_insert.
  intros [Hin|Hin%list_elem_of_singleton]%elem_of_app; [by eapply Hs|].
  injection Hin as -> ->. by eapply lookup_lt_Some.
Qed.

Lemma reachable_indexed (pil : Pil.t) (cfg : Config.t) (self : MediaDownloader)
    (media_files : list Parser.MediaFile) (output_dir : string) (on_disk : filesystem)
    (w : world) (tasks : pool) :
  reachable pil cfg self media_files output_dir on_disk (w, tasks) →
  length tasks = length media_files
  ∧ ∀ j e, (j, e) ∈ log w → (j < length media_files)%nat.
Proof.
  intros Hreach.
  pose proof (reachable_accounted _ _ _ _ _ _ _ Hreach) as (_ & _ & _ & _ & _ & Hlen).
  cbn [snd] in Hlen. split; [done|].
  assert (indexed (w, tasks)) as Hidx.
  { unfold reachable in Hreach.
    assert (∀ s s', rtc step s s' → indexed s → indexed s') as Hsteps.
    { intros s s' H. induction H; eauto using indexed_step. }
    eapply Hsteps; [exact Hreach|]. intros j e. cbn. by intros ?%elem_of_nil. }
  intros j e Hin. specialize (Hidx j e Hin). cbn [snd] in Hidx. lia.
Qed.

Lemma events_of_beyond (i : nat) (l : list (nat * event)) :
  (∀ j e, (j, e) ∈ l → j ≠ i) → events_of i l = [].
Proof.
  induction l as [|[j e] l IH]; intros Hin; [done|].
  rewrite events_of_cons, IH by (intros; eapply Hin; by right).
  rewrite decide_False; [done|]. eapply Hin. by left.
Qed.

(** *** The semaphore around a download *)

(** The actions that belong inside [async with self.semaphore]: the
    requests, reading a body, the pauses between attempts, the conversion
    and the write. *)
Definition needs_slot (e : event) : bool :=
  match e with
  | Requested _ _ | ReadBody _ | Slept _ | Offloaded | Wrote _ _ _ => true
  | _ => false
  end.

Definition slot_weight (e : event) : Z :=
  match e with
  | Acquired => 1
  | Released => -1
  | _ => 0
  end.

(** The slots a task holds after the events [evs]: the slots it has taken
    less those it has given back. *)
Definition inside (evs : list event) : Z := weigh slot_weight evs.

(** The monitor of the semaphore: whether the task holds a slot; [None]
    once it has taken a second slot, given back one it does not hold, or
    worked without one. *)
Definition slot_next (s : option bool) (e : event) : option bool :=
  match s with
  | None => None
  | Some h =>
      match e with
      | Acquired => if h then None else Some true
      | Released => if h then Some false else None
      | _ => if needs_slot e && negb h then None else Some h
      end
  end.

(** Take in a postcondition that is an equation on the state. *)
Ltac post_eq := let H := fresh in intros H; cbv beta in H; subst.

Ltac slot_go :=
  obeys_go ltac:(cbn [slot_next needs_slot andb negb]) ltac:(by eexists).

Lemma slot_attempt_once (u : string) :
  obeys slot_next is_Some (λ s (_ : option (option Pil.bytes)), s = Some true)
    (Some true) (attempt_once u).
Proof.
  unfold attempt_once. slot_go. destruct r as [e|status]; [by constructor|].
  destruct (status =? 200)%Z.
  - slot_go. destruct r; by constructor.
  - destruct (status =? 404)%Z; by constructor.
Qed.

Lemma slot_retry_loop (max_retries : Z) (u : string) (attempts : list Z) :
  obeys slot_next is_Some (λ s (_ : option Pil.bytes), s = Some true)
    (Some true) (retry_loop max_retries u attempts).
Proof.
  induction attempts as [|attempt rest IH]; cbn [retry_loop]; [by constructor|].
  eapply obeys_bind; [apply slot_attempt_once|]. intros s [result|]; post_eq; [by constructor|].
  apply (obeys_then _ _ (λ s (_ : unit), s = Some true));
    [|intros ? ?; post_eq; exact IH].
  destruct (attempt <? max_retries - 1)%Z; slot_go; by constructor.
Qed.

Lemma slot_convert_and_store (pil : Pil.t) (cfg : Config.t) (media : Parser.MediaFile)
    (filepath : string) (content : Pil.bytes) :
  obeys slot_next is_Some (λ s (_ : bool), s = Some true)
    (Some true) (convert_and_store pil cfg media filepath content).
Proof.
  unfold convert_and_store.
  eapply (obeys_bind _ _ (λ s (_ : option Pil.bytes), s = Some true)).
  - destruct (should_convert cfg _); [|by constructor].
    slot_go. destruct (convert_image_to_jpg pil content _); slot_go; by constructor.
  - intros s [jpg|]; post_eq; [|by constructor].
    slot_go; by constructor.
Qed.

Lemma slot_download_file (pil : Pil.t) (cfg : Config.t) (max_retries : Z)
    (media : Parser.MediaFile) (output_dir : string) :
  obeys slot_next is_Some (λ s (_ : bool), s = Some false)
    (Some false) (_download_file pil cfg max_retries media output_dir).
Proof.
  unfold _download_file. slot_go.
  destruct (file_exists cfg d output_dir _); [slot_go; by constructor|].
  slot_go.
  eapply obeys_bind; [apply slot_retry_loop|].
  intros s [content|]; post_eq; [|slot_go; by constructor].
  eapply obeys_bind; [apply slot_convert_and_store|].
  intros s [|]; post_eq; slot_go; by constructor.
Qed.

(** What the state of the monitor says about the events. *)
Lemma slot_observed (evs : list event) (h : bool) :
  observe slot_next (Some false) evs = Some h →
  inside evs = (if h then 1 else 0)%Z
  ∧ ∀ pre e post, evs = pre ++ e :: post →
      (inside pre = 0 ∨ inside pre = 1)%Z
      ∧ (needs_slot e = true → inside pre = 1%Z).
Proof.
  revert h. induction evs as [|e evs IH] using rev_ind; intros h.
  - intros [= <-]. split; [done|]. by intros [|??] ? ?.
  - rewrite observe_snoc. destruct (observe slot_next (Some false) evs) as [h0|]; [|done].
    destruct (IH h0 eq_refl) as [Hin Hpre]. intros Hnext.
    split.
    + unfold inside in *. rewrite weigh_snoc, Hin.
      destruct e, h0; cbn in Hnext; try done; injection Hnext as <-; done.
    + intros pre e' post Heq.
      destruct post as [|e'' post _] using rev_ind.
      * apply app_inj_tail in Heq as [-> ->]. rewrite Hin. split; [destruct h0; auto|].
        intros Hneeds. destruct e', h0; cbn in Hnext, Hneeds; done.
      * rewrite app_comm_cons, app_assoc in Heq. apply app_inj_tail in Heq as [-> _].
        by eapply Hpre.
Qed.

(** A step takes a slot only when one is free, and the log tells which
    steps took or gave back a slot. *)
Lemma fire_semaphore {A} (i : nat) (a : answer) (w w' : world) (p p' : prog A) :
  fire i a w p = Some (w', p') →
  ∃ e, log w' = log w ++ [(i, e)]
       ∧ semaphore w' = (semaphore w - slot_weight e)%Z
       ∧ ((0 ≤ semaphore w)%Z → (0 ≤ semaphore w')%Z).
Proof.
  destruct p; simpl; try done;
    try (intros [= <- <-]; eexists; split; [done|]; simpl; split; lia).
  - destruct (0 <? semaphore w)%Z eqn:Hfree; [|done]. intros [= <- <-].
    eexists. split; [done|]. simpl. split; lia.
  - destruct a; try done. intros [= <- <-]. eexists. split; [done|]. simpl. split; lia.
  - destruct a; try done. intros [= <- <-]. eexists. split; [done|]. simpl. split; lia.
  - destruct a as [| | |[| |partial]]; try done; intros [= <- <-];
      eexists; (split; [done|]); simpl; split; lia.
Qed.

(** The free slots and the slots the log says are taken add up to the size
    of the semaphore. *)
Definition slots_counted (size : Z) (s : world * pool) : Prop :=
  (semaphore s.1 + weigh slot_weight (log s.1).*2 = size)%Z ∧ (0 ≤ semaphore s.1)%Z.

Lemma slots_counted_steps (size : Z) (s s' : world * pool) :
  slots_counted size s → rtc step s s' → slots_counted size s'.
Proof.
  intros Hs Hsteps. induction Hsteps as [|s1 s2 s3 Hstep _ IH]; [done|]. apply IH.
  destruct s1 as [w tasks], Hs as [Hsum Hfree], Hstep as (j & a & Hmove).
  unfold move in Hmove. cbn [fst snd] in *.
  destruct (tasks !! j) as [q|]; [|done].
  destruct (fire j a w q) as [[w' q']|] eqn:Hfire; [|done].
  injection Hmove as <-.
  destruct (fire_semaphore _ _ _ _ _ _ Hfire) as (e & Hlog & Hsem & Hpos).
  split; cbn [fst snd]; [|auto].
  rewrite Hlog, fmap_app, weigh_app. simpl. lia.
Qed.

Lemma all_finished_lookup (tasks : pool) (i : nat) :
  all_finished tasks = true → (i < length tasks)%nat → ∃ b, tasks !! i = Some (Ret b).
Proof.
  unfold all_finished. rewrite forallb_forall. intros Hall Hi.
  destruct (lookup_lt_is_Some_2 tasks i Hi) as [p Hp].
  specialize (Hall p). rewrite <- list_elem_of_In in Hall.
  specialize (Hall (list_elem_of_lookup_2 _ _ _ Hp)).
  destruct p; try done. by eexists.
Qed.

Section Slots.

Context (pil : Pil.t) (cfg : Config.t) (self : MediaDownloader).
Context (media_files : list Parser.MediaFile) (output_dir : string) (on_disk : filesystem).

(** X4.  The semaphore bounds the downloads in flight.  In every state of
    a batch, under every schedule, every task holds no slot or one; the slots
    held and the slots free add up to [max_concurrent], so that at most
    [max_concurrent] tasks hold a slot at the same time.  A task makes its
    requests, reads a body, pauses between two attempts, converts and writes
    only while it holds a slot; it holds none when it has returned, and the
    semaphore is back to [max_concurrent] when all have. *)
Theorem semaphore_bounds_downloads (w : world) (tasks : pool) :
  (0 ≤ max_concurrent self)%Z →
  reachable pil cfg self media_files output_dir on_disk (w, tasks) →
  (0 ≤ semaphore w)%Z
  ∧ (semaphore w + sum_over (length media_files) (λ i, inside (events_of i (log w)))
     = max_concurrent self)%Z
  ∧ (sum_over (length media_files) (λ i, inside (events_of i (log w)))
     ≤ max_concurrent self)%Z
  ∧ (∀ i, inside (events_of i (log w)) = 0 ∨ inside (events_of i (log w)) = 1)%Z
  ∧ (∀ i pre e post, events_of i (log w) = pre ++ e :: post →
       needs_slot e = true → inside pre = 1%Z)
  ∧ (∀ i b, tasks !! i = Some (Ret b) → inside (events_of i (log w)) = 0%Z)
  ∧ (all_finished tasks = true → semaphore w = max_concurrent self).
Proof.
  intros Hsize Hreach.
  destruct (reachable_indexed _ _ _ _ _ _ _ _ Hreach) as [Hlen Hidx].
  assert (slots_counted (max_concurrent self) (w, tasks)) as [Hsum Hfree].
  { eapply slots_counted_steps; [|exact Hreach]. split; cbn; lia. }
  cbn [fst snd] in Hsum, Hfree.
  rewrite (weigh_by_task _ (length media_files)) in Hsum by done.
  assert (∀ i, (i < length media_files)%nat →
            ∃ h, observe slot_next (Some false) (events_of i (log w)) = Some h
                 ∧ ∀ b, tasks !! i = Some (Ret b) → h = false) as Hwatch.
  { intros i Hi. destruct (lookup_lt_is_Some_2 media_files i Hi) as [media Hmedia].
    pose proof (reachable_watched slot_next is_Some _ _ _ _ _ _ i media _ _ _ Hmedia
                  (slot_download_file pil cfg (max_retries self) media output_dir) Hreach)
      as Hw.
    destruct (watched_safe _ _ _ _ _ _ _ Hw) as [h Hh]. exists h. split; [done|].
    intros b Hb. pose proof (watched_returned _ _ _ _ _ _ _ _ Hw Hb) as Hpost.
    cbv beta in Hpost. congruence. }
  assert (∀ i, (length media_files ≤ i)%nat → events_of i (log w) = []) as Hbeyond.
  { intros i Hi. apply events_of_beyond. intros j e Hin ->. apply Hidx in Hin. lia. }
  assert (∀ i, inside (events_of i (log w)) = 0 ∨ inside (events_of i (log w)) = 1)%Z
    as Hone.
  { intros i. destruct (Nat.lt_ge_cases i (length media_files)) as [Hi|Hi].
    - destruct (Hwatch i Hi) as (h & Hh & _).
      destruct (slot_observed _ _ Hh) as [-> _]. destruct h; auto.
    - rewrite (Hbeyond i Hi). by left. }
  assert (∀ i b, tasks !! i = Some (Ret b) → inside (events_of i (log w)) = 0%Z) as Hret.
  { intros i b Hb. assert (i < length media_files)%nat as Hi.
    { rewrite <- Hlen. by eapply lookup_lt_Some. }
    destruct (Hwatch i Hi) as (h & Hh & Hfalse).
    destruct (slot_observed _ _ Hh) as [-> _]. by rewrite (Hfalse b Hb). }
  split_and!; try done.
  - unfold inside. lia.
  - intros i pre e post Heq Hneeds.
    destruct (Nat.lt_ge_cases i (length media_files)) as [Hi|Hi].
    + destruct (Hwatch i Hi) as (h & Hh & _).
      destruct (slot_observed _ _ Hh) as [_ Hpre]. by eapply Hpre.
    + rewrite (Hbeyond i Hi) in Heq. by destruct pre.
  - intros Hfin.
    rewrite (sum_over_ext _ _ (λ _, 0%Z)) in Hsum.
    + assert (∀ n, sum_over n (λ _, 0%Z) = 0%Z) as Hzero.
      { intros n. unfold sum_over. induction (seq 0 n); simpl; lia. }
      rewrite Hzero in Hsum. lia.
    + intros i Hi. rewrite <- Hlen in Hi.
      destruct (all_finished_lookup _ _ Hfin Hi) as [b Hb]. by eapply Hret.
Qed.

End Slots.

(** The sample batch, run to its end against a server that answers every
    request: all five slots are free again. *)
Lemma semaphore_bounds_downloads_witness :
  (0 ≤ max_concurrent (Sample.downloader Config.default))%Z
  ∧ ∃ result w,
      download_media_files Sample.pil_toy Config.default (Sample.downloader Config.default)
        (Sample.server 200 [Byte.x01]) Sample.batch "out" ∅ = Some (result, w)
      ∧ semaphore w = 5%Z
      ∧ inside (events_of 0 (log w)) = 0%Z.
Proof.
  assert (0 ≤ max_concurrent (Sample.downloader Config.default))%Z as Hsize by (by compute).
  split; [exact Hsize|].
  destruct (download_media_files_total Sample.pil_toy Config.default
              (Sample.downloader Config.default) Sample.batch "out" ∅
              (Sample.server 200 [Byte.x01])) as (result & w & Hrun); [by compute|].
  destruct (download_media_files_returns _ _ _ _ _ _ _ _ _ Hrun)
    as (tasks & Hreach & Hfin & ->).
  exists (stats w), w. split; [exact Hrun|].
  destruct (semaphore_bounds_downloads _ _ _ _ _ _ w tasks Hsize Hreach)
    as (_ & _ & _ & _ & _ & Hret & Hall).
  split; [exact (Hall Hfin)|].
  destruct (all_finished_lookup tasks 0 Hfin) as [b Hb].
  - destruct (reachable_indexed _ _ _ _ _ _ _ _ Hreach) as [-> _]. simpl. lia.
  - exact (Hret 0%nat b Hb).
Defined.

(** *** The attempts and the pauses of a task *)

Import Retry.

Global Instance tick_eq_dec : EqDecision tick.
Proof. solve_decision. Defined.

(** The attempt or the pause an event stands for. *)
Definition tick_of (e : event) : option tick :=
  match e with
  | Requested u _ => Some (Attempt u)
  | Slept secs => Some (Wait secs)
  | _ => None
  end.

(** The monitor of the retry discipline: what is left of the pattern the
    attempts and pauses have to follow; [None] once they have left it. *)
Definition pace_next (s : option (list tick)) (e : event) : option (list tick) :=
  match s with
  | None => None
  | Some pattern =>
      match tick_of e with
      | None => Some pattern
      | Some t =>
          match pattern with
          | t' :: rest => if decide (t = t') then Some rest else None
          | [] => None
          end
      end
  end.

Lemma pace_match (t : tick) (rest : list tick) (e : event) :
  tick_of e = Some t → pace_next (Some (t :: rest)) e = Some rest.
Proof. intros He. unfold pace_next. by rewrite He, decide_True. Qed.

Lemma pace_skip (pattern : list tick) (e : event) :
  tick_of e = None → pace_next (Some pattern) e = Some pattern.
Proof. intros He. unfold pace_next. by rewrite He. Qed.

Ltac pace_go :=
  obeys_go
    ltac:(first [ progress cbn [app]
                | rewrite pace_skip by reflexivity
                | rewrite pace_match by reflexivity ])
    ltac:(by eexists).

Lemma pace_attempt_once (u : string) (rest : list tick) :
  obeys pace_next is_Some (λ s (_ : option (option Pil.bytes)), s = Some rest)
    (Some (Attempt u :: rest)) (attempt_once u).
Proof.
  unfold attempt_once. pace_go. destruct r as [e|status]; [by constructor|].
  destruct (status =? 200)%Z.
  - pace_go. destruct r; by constructor.
  - destruct (status =? 404)%Z; by constructor.
Qed.

Lemma pace_retry_loop (max_retries : Z) (u : string) (attempts : list Z)
    (rest : list tick) :
  obeys pace_next is_Some (λ s (_ : option Pil.bytes), is_Some s)
    (Some (loop_ticks u max_retries attempts ++ rest))
    (retry_loop max_retries u attempts).
Proof.
  induction attempts as [|attempt attempts IH]; cbn [retry_loop]; [by constructor|].
  change (loop_ticks u max_retries (attempt :: attempts))
    with ((Attempt u :: if (attempt <? max_retries - 1)%Z
                        then [Wait (1 * (attempt + 1))] else [])
          ++ loop_ticks u max_retries attempts).
  rewrite <- app_assoc, <- app_comm_cons.
  eapply obeys_bind; [apply pace_attempt_once|].
  intros s [result|]; post_eq; [by constructor|].
  apply (obeys_then _ _ (λ s (_ : unit),
                           s = Some (loop_ticks u max_retries attempts ++ rest)));
    [|intros ? ?; post_eq; exact IH].
  destruct (attempt <? max_retries - 1)%Z; pace_go; by constructor.
Qed.

(** The pattern of [_download_with_retry]. *)
Lemma loop_ticks_range (u : string) (max_retries : Z) :
  loop_ticks u max_retries (Parser.range 0 max_retries)
  = backoff u (Z.to_nat max_retries).
Proof.
  destruct (Z.le_gt_cases 0 max_retries) as [Hpos|Hneg].
  - rewrite <- (Z2Nat.id max_retries Hpos) at 1 2. apply loop_ticks_backoff.
  - rewrite TagWalk.range_nil by lia. by replace (Z.to_nat max_retries) with 0%nat by lia.
Qed.

Lemma pace_convert_and_store (pil : Pil.t) (cfg : Config.t) (media : Parser.MediaFile)
    (filepath : string) (content : Pil.bytes) (pattern : list tick) :
  obeys pace_next is_Some (λ s (_ : bool), is_Some s)
    (Some pattern) (convert_and_store pil cfg media filepath content).
Proof.
  unfold convert_and_store.
  eapply (obeys_bind _ _ (λ s (_ : option Pil.bytes), s = Some pattern)).
  - destruct (should_convert cfg _); [|by constructor].
    pace_go. destruct (convert_image_to_jpg pil content _); pace_go; by constructor.
  - intros s [jpg|]; post_eq; [|by constructor].
    pace_go; by constructor.
Qed.

Lemma pace_download_file (pil : Pil.t) (cfg : Config.t) (max_retries : Z)
    (media : Parser.MediaFile) (output_dir : string) :
  obeys pace_next is_Some (λ s (_ : bool), is_Some s)
    (Some (backoff (Parser.url media) (Z.to_nat max_retries)))
    (_download_file pil cfg max_retries media output_dir).
Proof.
  unfold _download_file. pace_go.
  destruct (file_exists cfg d output_dir _); [pace_go; by constructor|].
  pace_go. unfold _download_with_retry.
  rewrite <- loop_ticks_range, <- (app_nil_r (loop_ticks _ _ _)).
  eapply obeys_bind; [apply pace_retry_loop|].
  intros s content [pattern ->].
  destruct content as [content|]; [|pace_go; by constructor].
  eapply obeys_bind; [apply pace_convert_and_store|].
  intros s stored [pattern' ->]. destruct stored; pace_go; by constructor.
Qed.

Lemma ticks_cons (e : event) (evs : list event) :
  ticks (e :: evs) = option_list (tick_of e) ++ ticks evs.
Proof. by destruct e. Qed.

Lemma pace_lost (evs : list event) : observe pace_next None evs = None.
Proof. by induction evs. Qed.

(** What the state of the monitor says about the events: they have
    followed the pattern so far. *)
Lemma pace_observed (evs : list event) (pattern rest : list tick) :
  observe pace_next (Some pattern) evs = Some rest → pattern = ticks evs ++ rest.
Proof.
  revert pattern. induction evs as [|e evs IH]; intros pattern.
  - by intros [= ->].
  - change (observe pace_next (Some pattern) (e :: evs))
      with (observe pace_next (pace_next (Some pattern) e) evs).
    rewrite ticks_cons. unfold pace_next.
    destruct (tick_of e) as [t|]; [|by apply IH].
    destruct pattern as [|t' pattern]; [by rewrite pace_lost|].
    destruct (decide (t = t')) as [->|]; [|by rewrite pace_lost].
    intros Hobs%IH. by rewrite Hobs.
Qed.

Lemma prefix_of_replicate {A} (l1 l2 : list A) (n : nat) (x : A) :
  l1 ++ l2 = replicate n x → l1 = replicate (length l1) x ∧ (length l1 ≤ n)%nat.
Proof.
  intros Heq.
  assert (length l1 ≤ n)%nat as Hle.
  { apply (f_equal length) in Heq. rewrite length_app, length_replicate in Heq. lia. }
  split; [|done].
  transitivity (take (length l1) (l1 ++ l2)); [by rewrite take_app_length|].
  rewrite Heq, take_replicate. f_equal. lia.
Qed.

Lemma prefix_of_seq {A} (f : nat → A) (l1 l2 : list A) (a n : nat) :
  l1 ++ l2 = f <$> seq a n → l1 = f <$> seq a (length l1) ∧ (length l1 ≤ n)%nat.
Proof.
  intros Heq.
  assert (length l1 ≤ n)%nat as Hle.
  { apply (f_equal length) in Heq. rewrite length_app, length_fmap, length_seq in Heq. lia. }
  split; [|done].
  transitivity (take (length l1) (l1 ++ l2)); [by rewrite take_app_length|].
  rewrite Heq, <- fmap_take, take_seq. do 2 f_equal. lia.
Qed.

Lemma attempts_in_app (ts1 ts2 : list tick) :
  attempts_in (ts1 ++ ts2) = attempts_in ts1 ++ attempts_in ts2.
Proof. apply omap_app. Qed.

Lemma waits_in_app (ts1 ts2 : list tick) :
  waits_in (ts1 ++ ts2) = waits_in ts1 ++ waits_in ts2.
Proof. apply omap_app. Qed.

Section Pace.

Context (pil : Pil.t) (cfg : Config.t) (self : MediaDownloader).
Context (media_files : list Parser.MediaFile) (output_dir : string) (on_disk : filesystem).

(** X5.  The requests of a task follow the backoff pattern, whatever the
    server answers and under every schedule.  At any time the attempts and
    pauses of the task of an asset are a beginning of the pattern: an attempt
    on the address of the asset, then a pause of 1 second and an attempt, a
    pause of 2 seconds and an attempt, and so on up to [max_retries] attempts.
    So the task asks for no other address, makes at most [max_retries]
    requests, and its pauses are 1, 2, ... seconds, at most
    [max_retries - 1] of them. *)
Theorem requests_follow_the_backoff (w : world) (tasks : pool) (i : nat)
    (media : Parser.MediaFile) :
  media_files !! i = Some media →
  reachable pil cfg self media_files output_dir on_disk (w, tasks) →
  ticks (events_of i (log w))
    `prefix_of` backoff (Parser.url media) (Z.to_nat (max_retries self))
  ∧ attempts_in (ticks (events_of i (log w)))
    = replicate (length (attempts_in (ticks (events_of i (log w))))) (Parser.url media)
  ∧ (length (attempts_in (ticks (events_of i (log w)))) ≤ Z.to_nat (max_retries self))%nat
  ∧ waits_in (ticks (events_of i (log w)))
    = map (λ k, Z.of_nat k * base_delay)%Z
        (seq 1 (length (waits_in (ticks (events_of i (log w))))))
  ∧ (length (waits_in (ticks (events_of i (log w)))) ≤ Z.to_nat (max_retries self) - 1)%nat.
Proof.
  intros Hmedia Hreach.
  pose proof (reachable_watched pace_next is_Some _ _ _ _ _ _ i media _ _ _ Hmedia
                (pace_download_file pil cfg (max_retries self) media output_dir) Hreach)
    as Hw.
  destruct (watched_safe _ _ _ _ _ _ _ Hw) as [rest Hobs].
  apply pace_observed in Hobs.
  pose proof (f_equal attempts_in Hobs) as Hattempts.
  pose proof (f_equal waits_in Hobs) as Hwaits.
  rewrite attempts_in_app, backoff_attempts in Hattempts.
  rewrite waits_in_app, backoff_waits in Hwaits.
  symmetry in Hattempts, Hwaits.
  apply prefix_of_replicate in Hattempts as [Ha1 Ha2].
  apply (prefix_of_seq (λ k, Z.of_nat k * base_delay)%Z) in Hwaits as [Hw1 Hw2].
  split_and!; try done. by exists rest.
Qed.

End Pace.

(** The sample batch against a server whose answers are all 500: the task
    of the first asset makes its five attempts, with pauses of 1, 2, 3 and 4
    seconds. *)
Lemma requests_follow_the_backoff_witness :
  Sample.batch !! 0%nat
  = Some {| Parser.url := "https://arhivach.vc/storage/a/bb/0123abcd.png";
            Parser.filename := "0123abcd.png"; Parser.ftype := Parser.Image |}
  ∧ ∃ result w,
      download_media_files Sample.pil_toy Config.default (Sample.downloader Config.default)
        (Sample.server 500 []) Sample.batch "out" ∅ = Some (result, w)
      ∧ (length (attempts_in (ticks (events_of 0 (log w)))) ≤ 5)%nat
      ∧ waits_in (ticks (events_of 0 (log w)))
        = map (λ k, Z.of_nat k * base_delay)%Z
            (seq 1 (length (waits_in (ticks (events_of 0 (log w)))))).
Proof.
  split; [reflexivity|].
  destruct (download_media_files_total Sample.pil_toy Config.default
              (Sample.downloader Config.default) Sample.batch "out" ∅
              (Sample.server 500 [])) as (result & w & Hrun); [by compute|].
  destruct (download_media_files_returns _ _ _ _ _ _ _ _ _ Hrun)
    as (tasks & Hreach & Hfin & ->).
  exists (stats w), w. split; [exact Hrun|].
  destruct (requests_follow_the_backoff Sample.pil_toy Config.default
              (Sample.downloader Config.default) Sample.batch "out" ∅ w tasks 0 _
              eq_refl Hreach)
    as (_ & _ & Hattempts & Hwaits & _).
  split; [exact Hattempts|exact Hwaits].
Defined.

(** *** The file a task writes *)

(** What [_download_file] writes for a body it has received: the JPG the
    transcoder makes of it when the asset is converted, the body itself
    otherwise. *)
Definition stored_content (pil : Pil.t) (cfg : Config.t) (media : Parser.MediaFile)
    (body : Pil.bytes) : Pil.bytes :=
  if should_convert cfg (Parser.filename media) then
    match convert_image_to_jpg pil body (Config.JPG_QUALITY cfg) with
    | Pil.Ok jpg => jpg
    | Pil.Raise _ => body
    end
  else body.

(** 1 for an attempt to write a file. *)
Definition is_write (e : event) : Z :=
  match e with
  | Wrote _ _ _ => 1
  | _ => 0
  end.

(** The monitor of the writes: the last body received, whether the task
    has written, and whether every write so far was the first one, went to
    [filepath] and, if it succeeded, wrote [payload] of the body received. *)
Record write_state := {
  valid : Prop;
  last_body : option Pil.bytes;
  has_written : bool
}.

Section Writes.

Context (filepath : string) (payload : Pil.bytes → Pil.bytes).

Definition write_next (s : write_state) (e : event) : write_state :=
  match e with
  | ReadBody (inr body) =>
      {| valid := valid s; last_body := Some body; has_written := has_written s |}
  | Wrote path content ok =>
      {| valid := valid s ∧ has_written s = false ∧ path = filepath
                  ∧ (ok = true → ∃ body, last_body s = Some body ∧ content = payload body);
         last_body := last_body s;
         has_written := true |}
  | _ => s
  end.

Definition write_start : write_state :=
  {| valid := True; last_body := None; has_written := false |}.

Lemma write_observed (evs : list event) :
  valid (observe write_next write_start evs) →
  weigh is_write evs = (if has_written (observe write_next write_start evs) then 1 else 0)%Z
  ∧ (∀ body, last_body (observe write_next write_start evs) = Some body →
             ReadBody (inr body) ∈ evs)
  ∧ (∀ path content ok, Wrote path content ok ∈ evs →
       path = filepath
       ∧ (ok = true → ∃ body, ReadBody (inr body) ∈ evs ∧ content = payload body)).
Proof.
  induction evs as [|e evs IH] using rev_ind.
  - intros _. split; [done|]. split; [done|]. by intros ??? ?%elem_of_nil.
  - rewrite observe_snoc, weigh_snoc.
    set (s := observe write_next write_start evs) in *. intros Hvalid.
    assert (valid s) as Hs.
    { destruct e as [| | | | | | [|] | | |]; cbn in Hvalid; tauto. }
    destruct (IH Hs) as (Hcount & Hbody & Hwrites).
    assert (∀ path content ok, Wrote path content ok ∈ evs ++ [e] →
              Wrote path content ok ∈ evs ∨ e = Wrote path content ok) as Hin.
    { intros path content ok [?|?%list_elem_of_singleton]%elem_of_app; auto. }
    destruct e as [|c n|n| | |u r|[exn|body]|secs| |path content ok]; cbn in Hvalid |- *;
      try (split; [rewrite Hcount; lia|]; split;
           [intros b Hb; apply elem_of_app; left; by apply Hbody|];
           intros path' content' ok' [H|H]%Hin; [|done];
           destruct (Hwrites _ _ _ H) as [-> Hok]; split; [done|];
           intros Htrue; destruct (Hok Htrue) as (b & ? & ?); exists b; split; [|done];
           apply elem_of_app; by left).
    + (* a body is received *)
      split; [rewrite Hcount; lia|]. split.
      * intros b [= <-]. apply elem_of_app. right. by apply list_elem_of_singleton.
      * intros path' content' ok' [H|H]%Hin; [|done].
        destruct (Hwrites _ _ _ H) as [-> Hok]. split; [done|].
        intros Htrue. destruct (Hok Htrue) as (b & ? & ?). exists b. split; [|done].
        apply elem_of_app. by left.
    + (* a write *)
      destruct Hvalid as (_ & Hfirst & -> & Hcontent). rewrite Hfirst in Hcount.
      split; [rewrite Hcount; lia|]. split.
      * intros b Hb. apply elem_of_app. left. by apply Hbody.
      * intros path' content' ok' [H|H]%Hin.
        -- destruct (Hwrites _ _ _ H) as [-> Hok]. split; [done|].
           intros Htrue. destruct (Hok Htrue) as (b & ? & ?). exists b. split; [|done].
           apply elem_of_app. by left.
        -- injection H as <- <- <-. split; [done|].
           intros Htrue. destruct (Hcontent Htrue) as (b & Hb & ->).
           exists b. split; [|done]. apply elem_of_app. left. by apply Hbody.
Qed.

Ltac write_go := obeys_go ltac:(cbn [write_next]) ltac:(done).

Lemma write_attempt_once (u : string) (s : write_state) :
  valid s → has_written s = false →
  obeys write_next valid
    (λ s' (r : option (option Pil.bytes)),
       valid s' ∧ has_written s' = false
       ∧ ∀ content, r = Some (Some content) → last_body s' = Some content)
    s (attempt_once u).
Proof.
  intros Hvalid Hfirst. unfold attempt_once. write_go.
  destruct r as [e|status]; [by constructor|].
  destruct (status =? 200)%Z.
  - write_go. destruct r as [e|content]; constructor; try done.
    split_and!; try done. by intros ? [= ->].
  - destruct (status =? 404)%Z; by constructor.
Qed.

Lemma write_retry_loop (max_retries : Z) (u : string) (attempts : list Z)
    (s : write_state) :
  valid s → has_written s = false →
  obeys write_next valid
    (λ s' (r : option Pil.bytes),
       valid s' ∧ has_written s' = false
       ∧ ∀ content, r = Some content → last_body s' = Some content)
    s (retry_loop max_retries u attempts).
Proof.
  revert s. induction attempts as [|attempt attempts IH]; intros s Hvalid Hfirst;
    cbn [retry_loop]; [by constructor|].
  eapply obeys_bind; [by apply write_attempt_once|].
  intros s' [result|] (Hvalid' & Hfirst' & Hbody).
  - constructor; [done|]. split_and!; try done. intros content ->. by apply Hbody.
  - apply (obeys_then _ _ (λ s'' (_ : unit), valid s'' ∧ has_written s'' = false));
      [|intros ? ? [? ?]; by apply IH].
    destruct (attempt <? max_retries - 1)%Z; write_go; by constructor.
Qed.

End Writes.

Lemma write_convert_and_store (pil : Pil.t) (cfg : Config.t) (media : Parser.MediaFile)
    (filepath : string) (content : Pil.bytes) (s : write_state) :
  valid s → has_written s = false → last_body s = Some content →
  obeys (write_next filepath (stored_content pil cfg media)) valid (λ s' (_ : bool), valid s')
    s (convert_and_store pil cfg media filepath content).
Proof.
  intros Hvalid Hfirst Hbody. unfold convert_and_store.
  eapply (obeys_bind _ _
            (λ s' (r : option Pil.bytes),
               s' = s ∧ ∀ c, r = Some c → c = stored_content pil cfg media content)).
  - destruct (should_convert cfg (Parser.filename media)) eqn:Hconv.
    + obeys_go ltac:(cbn [write_next]) ltac:(done).
      destruct (convert_image_to_jpg pil content _) as [jpg|e] eqn:Hjpg;
        obeys_go ltac:(cbn [write_next]) ltac:(done); constructor; try done.
      split; [done|]. intros ? [= <-]. unfold stored_content. by rewrite Hconv, Hjpg.
    + constructor; [done|]. split; [done|]. intros ? [= <-].
      unfold stored_content. by rewrite Hconv.
  - intros s' [jpg|] [-> Hjpg]; [|by constructor].
    rewrite (Hjpg jpg eq_refl).
    assert (∀ ok : bool, ok = true →
              ∃ body, last_body s = Some body
                      ∧ stored_content pil cfg media content
                        = stored_content pil cfg media body) as Hpayload.
    { intros _ _. by exists content. }
    obeys_go ltac:(cbn [write_next]) ltac:(cbn; split_and?; by eauto);
      constructor; cbn; split_and?; by eauto.
Qed.

Lemma write_download_file (pil : Pil.t) (cfg : Config.t) (max_retries : Z)
    (media : Parser.MediaFile) (output_dir : string) :
  obeys
    (write_next (OsPath.join output_dir (FileNames.stored_name cfg (Parser.filename media)))
       (stored_content pil cfg media))
    valid (λ s (_ : bool), valid s) write_start
    (_download_file pil cfg max_retries media output_dir).
Proof.
  unfold _download_file, FileNames.stored_name.
  obeys_go ltac:(cbn [write_next]) ltac:(done).
  destruct (file_exists cfg d output_dir _);
    [obeys_go ltac:(cbn [write_next]) ltac:(done); by constructor|].
  obeys_go ltac:(cbn [write_next]) ltac:(done).
  eapply obeys_bind; [by apply write_retry_loop|].
  intros s [content|] (Hvalid & Hfirst & Hbody);
    [|obeys_go ltac:(cbn [write_next]) ltac:(done); by constructor].
  eapply obeys_bind; [apply write_convert_and_store; auto|].
  intros s' [|] Hvalid'; cbv beta in Hvalid';
    obeys_go ltac:(cbn [write_next]) ltac:(done); by constructor.
Qed.

(** A step changes the disk only where it writes. *)
Lemma fire_disk {A} (i : nat) (a : answer) (w w' : world) (p p' : prog A) :
  fire i a w p = Some (w', p') →
  ∃ e, log w' = log w ++ [(i, e)]
       ∧ ∀ path, (∀ content ok, e ≠ Wrote path content ok) →
                 disk w' !! path = disk w !! path.
Proof.
  destruct p; simpl; try done;
    try (intros [= <- <-]; eexists; split; [done|]; done).
  - destruct (0 <? semaphore w)%Z; [|done]. intros [= <- <-]. by eexists.
  - destruct a; try done. intros [= <- <-]. by eexists.
  - destruct a; try done. intros [= <- <-]. by eexists.
  - destruct a as [| | |[| |partial]]; try done; intros [= <- <-];
      eexists; (split; [done|]); intros path' Hother; simpl; [|done|];
      apply lookup_insert_ne; intros ->; by eapply Hother.
Qed.

(** The files no write of the log names are as they were. *)
Definition untouched (on_disk : filesystem) (s : world * pool) : Prop :=
  ∀ path, (∀ j content ok, (j, Wrote path content ok) ∉ log s.1) →
          disk s.1 !! path = on_disk !! path.

Lemma untouched_steps (on_disk : filesystem) (s s' : world * pool) :
  untouched on_disk s → rtc step s s' → untouched on_disk s'.
Proof.
  intros Hs Hsteps. induction Hsteps as [|s1 s2 s3 Hstep _ IH]; [done|]. apply IH.
  destruct s1 as [w tasks], Hstep as (j & a & Hmove).
  unfold move in Hmove. cbn [fst snd] in *.
  destruct (tasks !! j) as [q|]; [|done].
  destruct (fire j a w q) as [[w' q']|] eqn:Hfire; [|done].
  injection Hmove as <-.
  destruct (fire_disk _ _ _ _ _ _ Hfire) as (e & Hlog & Hdisk).
  intros path Hnone. cbn [fst snd] in *. rewrite Hlog in Hnone.
  rewrite Hdisk.
  - apply Hs. intros k content ok Hin. eapply Hnone. apply elem_of_app. by left.
  - intros content ok ->. eapply Hnone. apply elem_of_app. right.
    by apply list_elem_of_singleton.
Qed.

Lemma elem_of_events_of (i : nat) (e : event) (l : list (nat * event)) :
  e ∈ events_of i l ↔ (i, e) ∈ l.
Proof.
  unfold events_of. rewrite list_elem_of_omap. split.
  - intros ([j e'] & Hin & Hje). cbn in Hje. destruct (decide (j = i)); [|done].
    by simplify_eq.
  - intros Hin. exists (i, e). split; [done|]. cbn. by rewrite decide_True.
Qed.

Section Writes.

Context (pil : Pil.t) (cfg : Config.t) (self : MediaDownloader).
Context (media_files : list Parser.MediaFile) (output_dir : string) (on_disk : filesystem).

(** X6.  A task writes its own file, once, and nothing else.  In every
    state of a batch, under every schedule, the task of an asset has tried
    to write at most once, and that to the path of the output directory under
    the name the page gives the asset ([get_html_filename]); if the write
    succeeded, what it wrote is the body the task received from the server,
    or the JPG the transcoder made of that body when the asset is converted.
    So every file that is not at the path of one of the assets is on disk as
    it was when the batch started, or is still absent. *)
Theorem task_writes_its_own_file (w : world) (tasks : pool) :
  reachable pil cfg self media_files output_dir on_disk (w, tasks) →
  (∀ i media, media_files !! i = Some media →
     (weigh is_write (events_of i (log w)) ≤ 1)%Z
     ∧ ∀ path content ok, Wrote path content ok ∈ events_of i (log w) →
         path = OsPath.join output_dir
                  (Parser.get_html_filename cfg (Parser.filename media))
         ∧ (ok = true →
            ∃ body, ReadBody (inr body) ∈ events_of i (log w)
                    ∧ content = stored_content pil cfg media body))
  ∧ (∀ path,
       (∀ media, media ∈ media_files →
          path ≠ OsPath.join output_dir
                   (Parser.get_html_filename cfg (Parser.filename media))) →
       disk w !! path = on_disk !! path).
Proof.
  intros Hreach.
  assert (∀ i media, media_files !! i = Some media →
     (weigh is_write (events_of i (log w)) ≤ 1)%Z
     ∧ ∀ path content ok, Wrote path content ok ∈ events_of i (log w) →
         path = OsPath.join output_dir
                  (Parser.get_html_filename cfg (Parser.filename media))
         ∧ (ok = true →
            ∃ body, ReadBody (inr body) ∈ events_of i (log w)
                    ∧ content = stored_content pil cfg media body)) as Htask.
  { intros i media Hmedia.
    pose proof (reachable_watched _ valid _ _ _ _ _ _ i media _ _ _ Hmedia
                  (write_download_file pil cfg (max_retries self) media output_dir) Hreach)
      as Hw.
    apply watched_safe, write_observed in Hw as (Hcount & _ & Hwrites).
    rewrite FileNames.get_html_filename_stored. split; [|exact Hwrites].
    rewrite Hcount. by destruct (has_written _). }
  split; [exact Htask|].
  intros path Hother.
  assert (untouched on_disk (w, tasks)) as Hfree.
  { eapply untouched_steps; [|exact Hreach]. intros ? _. done. }
  apply Hfree. cbn [fst]. intros j content ok Hin.
  destruct (reachable_indexed _ _ _ _ _ _ _ _ Hreach) as [_ Hidx].
  destruct (lookup_lt_is_Some_2 media_files j (Hidx _ _ Hin)) as [media Hmedia].
  apply elem_of_events_of in Hin.
  destruct (Htask j media Hmedia) as [_ Hwrites].
  destruct (Hwrites _ _ _ Hin) as [Hpath _].
  eapply Hother; [|exact Hpath]. by eapply list_elem_of_lookup_2.
Qed.

End Writes.

(** The sample batch against a server that answers every request with one
    byte: the first asset, a PNG, is stored as the JPG of that byte under its
    JPG name, and a file that is none of the assets stays absent. *)
Lemma task_writes_its_own_file_witness :
  ∃ result w,
    download_media_files Sample.pil_toy Config.default (Sample.downloader Config.default)
      (Sample.server 200 [Byte.x01]) Sample.batch "out" ∅ = Some (result, w)
    ∧ (weigh is_write (events_of 0 (log w)) ≤ 1)%Z
    ∧ disk w !! "out/notes.txt" = None
    ∧ OsPath.join "out" (Parser.get_html_filename Config.default "0123abcd.png")
      = "out/0123abcd.jpg"
    ∧ stored_content Sample.pil_toy Config.default
        {| Parser.url := "https://arhivach.vc/storage/a/bb/0123abcd.png";
           Parser.filename := "0123abcd.png"; Parser.ftype := Parser.Image |} [Byte.x01]
      = [Byte.xff; Byte.xd8; Byte.x01].
Proof.
  destruct (download_media_files_total Sample.pil_toy Config.default
              (Sample.downloader Config.default) Sample.batch "out" ∅
              (Sample.server 200 [Byte.x01])) as (result & w & Hrun); [by compute|].
  destruct (download_media_files_returns _ _ _ _ _ _ _ _ _ Hrun)
    as (tasks & Hreach & Hfin & ->).
  exists (stats w), w. split; [exact Hrun|].
  destruct (task_writes_its_own_file Sample.pil_toy Config.default
              (Sample.downloader Config.default) Sample.batch "out" ∅ w tasks Hreach)
    as [Htask Hframe].
  split; [exact (proj1 (Htask 0%nat _ eq_refl))|].
  split; [|split; reflexivity].
  rewrite Hframe; [done|].
  intros media Hin.
  repeat (apply elem_of_cons in Hin as [->|Hin]; [by vm_compute|]).
  apply elem_of_nil in Hin. destruct Hin.
Defined.

(** *** The statistics and what happened *)

Definition same_counter (c c' : counter) : bool :=
  match c, c' with
  | Completed, Completed | Failed, Failed | Skipped, Skipped
  | Converted, Converted | Retried, Retried | TotalBytes, TotalBytes => true
  | _, _ => false
  end.

(** What an event adds to a counter. *)
Definition counted (c : counter) (e : event) : Z :=
  match e with
  | Counted c' n => if same_counter c' c then n else 0
  | _ => 0
  end.

(** 1 for a pause between two attempts. *)
Definition is_pause (e : event) : Z :=
  match e with
  | Slept _ => 1
  | _ => 0
  end.

(** 1 for a file written to its end. *)
Definition is_stored (e : event) : Z :=
  match e with
  | Wrote _ _ true => 1
  | _ => 0
  end.

(** The size of a file written to its end. *)
Definition stored_size (e : event) : Z :=
  match e with
  | Wrote _ content true => Z.of_nat (length content)
  | _ => 0
  end.

(** 1 for a run of the transcoder. *)
Definition is_conversion (e : event) : Z :=
  match e with
  | Offloaded => 1
  | _ => 0
  end.

(** What an event adds to the progress bar. *)
Definition progress_made (e : event) : Z :=
  match e with
  | Progress n => n
  | _ => 0
  end.

(** The monitor of the statistics: how far each counter is ahead of the
    events it counts. *)
Record tab := {
  t_retried : Z;      (* [retried] and the pauses *)
  t_completed : Z;    (* [completed] and the files stored *)
  t_bytes : Z;        (* [total_bytes] and the sizes of the files stored *)
  t_converted : Z;    (* [converted] and the runs of the transcoder *)
  t_progress : Z      (* the progress bar and the three terminal counters *)
}.

Definition tab_next (t : tab) (e : event) : tab :=
  {| t_retried := t_retried t + (counted Retried e - is_pause e);
     t_completed := t_completed t + (counted Completed e - is_stored e);
     t_bytes := t_bytes t + (counted TotalBytes e - stored_size e);
     t_converted := t_converted t + (counted Converted e - is_conversion e);
     t_progress := t_progress t
                   + (progress_made e
                      - (counted Completed e + counted Failed e + counted Skipped e)) |}%Z.

Definition tab_zero : tab :=
  {| t_retried := 0; t_completed := 0; t_bytes := 0; t_converted := 0; t_progress := 0 |}.

(** The two tabs hold the same numbers. *)
Definition tab_eq (t t' : tab) : Prop :=
  t_retried t' = t_retried t ∧ t_completed t' = t_completed t
  ∧ t_bytes t' = t_bytes t ∧ t_converted t' = t_converted t
  ∧ t_progress t' = t_progress t.

Lemma tab_observed (evs : list event) :
  observe tab_next tab_zero evs
  = {| t_retried := weigh (counted Retried) evs - weigh is_pause evs;
       t_completed := weigh (counted Completed) evs - weigh is_stored evs;
       t_bytes := weigh (counted TotalBytes) evs - weigh stored_size evs;
       t_converted := weigh (counted Converted) evs - weigh is_conversion evs;
       t_progress := weigh progress_made evs
                     - (weigh (counted Completed) evs + weigh (counted Failed) evs
                        + weigh (counted Skipped) evs) |}%Z.
Proof.
  induction evs as [|e evs IH] using rev_ind; [done|].
  rewrite observe_snoc, IH, !weigh_snoc. unfold tab_next. cbn. f_equal; lia.
Qed.

Ltac tab_done := constructor; [done|unfold tab_eq in *; cbn in *; lia].

Ltac tab_go := obeys_go ltac:(fail) ltac:(done).

Lemma tab_attempt_once (u : string) (t0 t : tab) :
  tab_eq t0 t →
  obeys tab_next (λ _, True) (λ t' (_ : option (option Pil.bytes)), tab_eq t0 t')
    t (attempt_once u).
Proof.
  intros Ht. unfold attempt_once. tab_go. destruct r as [e|status]; [tab_done|].
  destruct (status =? 200)%Z.
  - tab_go. destruct r; tab_done.
  - destruct (status =? 404)%Z; tab_done.
Qed.

Lemma tab_retry_loop (max_retries : Z) (u : string) (attempts : list Z) (t0 t : tab) :
  tab_eq t0 t →
  obeys tab_next (λ _, True) (λ t' (_ : option Pil.bytes), tab_eq t0 t')
    t (retry_loop max_retries u attempts).
Proof.
  revert t. induction attempts as [|attempt attempts IH]; intros t Ht;
    cbn [retry_loop]; [tab_done|].
  eapply obeys_bind; [by apply tab_attempt_once|].
  intros t' [result|] Ht'; cbv beta in Ht'; [tab_done|].
  apply (obeys_then _ _ (λ t'' (_ : unit), tab_eq t0 t''));
    [|intros ? ? ?; by apply IH].
  destruct (attempt <? max_retries - 1)%Z; tab_go; tab_done.
Qed.

Lemma tab_convert_and_store (pil : Pil.t) (cfg : Config.t) (media : Parser.MediaFile)
    (filepath : string) (content : Pil.bytes) (t0 t : tab) :
  tab_eq t0 t →
  obeys tab_next (λ _, True) (λ t' (_ : bool), tab_eq t0 t')
    t (convert_and_store pil cfg media filepath content).
Proof.
  intros Ht. unfold convert_and_store.
  eapply (obeys_bind _ _ (λ t' (_ : option Pil.bytes), tab_eq t0 t')).
  - destruct (should_convert cfg _); [|tab_done].
    tab_go. unfold convert_image_to_jpg.
    destruct (convert_body pil content _); tab_go; tab_done.
  - intros t' [jpg|] Ht'; cbv beta in Ht'; [|tab_done].
    tab_go; tab_done.
Qed.

Lemma tab_download_file (pil : Pil.t) (cfg : Config.t) (max_retries : Z)
    (media : Parser.MediaFile) (output_dir : string) :
  obeys tab_next (λ _, True) (λ t (_ : bool), tab_eq tab_zero t) tab_zero
    (_download_file pil cfg max_retries media output_dir).
Proof.
  unfold _download_file. tab_go.
  destruct (file_exists cfg d output_dir _); [tab_go; tab_done|].
  tab_go.
  eapply obeys_bind; [apply (tab_retry_loop _ _ _ tab_zero); unfold tab_eq; cbn; lia|].
  intros t [content|] Ht; cbv beta in Ht; [|tab_go; tab_done].
  eapply obeys_bind; [by apply (tab_convert_and_store _ _ _ _ _ tab_zero)|].
  intros t' [|] Ht'; cbv beta in Ht'; tab_go; tab_done.
Qed.

Lemma weigh_ext (wt wt' : event → Z) (evs : list event) :
  (∀ e, wt e = wt' e) → weigh wt evs = weigh wt' evs.
Proof. intros H. induction evs as [|e evs IH]; simpl; [done|]. by rewrite H, IH. Qed.

Lemma weigh_sub (f g : event → Z) (evs : list event) :
  weigh (λ e, f e - g e)%Z evs = (weigh f evs - weigh g evs)%Z.
Proof. induction evs as [|e evs IH]; simpl; [done|]. rewrite IH. lia. Qed.

Lemma weigh_add (f g : event → Z) (evs : list event) :
  weigh (λ e, f e + g e)%Z evs = (weigh f evs + weigh g evs)%Z.
Proof. induction evs as [|e evs IH]; simpl; [done|]. rewrite IH. lia. Qed.

Lemma tally_weigh (c : counter) (l : list (nat * event)) :
  tally c l = weigh (counted c) l.*2.
Proof.
  induction l as [|[j e] l IH]; [done|].
  rewrite fmap_cons, weigh_cons. cbn [snd]. unfold tally in *. cbn [foldr snd].
  rewrite IH. destruct e as [|c' n| | | | | | | |]; cbn; try lia.
  destruct c', c; cbn; destruct (decide _); done || lia.
Qed.

(** The progress bar is what the log says. *)
Lemma fire_pbar {A} (i : nat) (a : answer) (w w' : world) (p p' : prog A) :
  fire i a w p = Some (w', p') →
  ∃ e, log w' = log w ++ [(i, e)] ∧ pbar w' = (pbar w + progress_made e)%Z.
Proof.
  destruct p; simpl; try done;
    try (intros [= <- <-]; eexists; split; [done|]; simpl; lia).
  - destruct (0 <? semaphore w)%Z; [|done]. intros [= <- <-].
    eexists. split; [done|]. simpl. lia.
  - destruct a; try done. intros [= <- <-]. eexists. split; [done|]. simpl. lia.
  - destruct a; try done. intros [= <- <-]. eexists. split; [done|]. simpl. lia.
  - destruct a as [| | |[| |partial]]; try done; intros [= <- <-];
      eexists; (split; [done|]); simpl; lia.
Qed.

Lemma steps_pbar (s s' : world * pool) :
  rtc step s s' →
  (pbar s'.1 - weigh progress_made (log s'.1).*2
   = pbar s.1 - weigh progress_made (log s.1).*2)%Z.
Proof.
  intros Hsteps. induction Hsteps as [|s1 s2 s3 Hstep _ IH]; [done|]. rewrite IH.
  destruct s1 as [w tasks], Hstep as (j & a & Hmove).
  unfold move in Hmove. cbn [fst snd] in *.
  destruct (tasks !! j) as [q|]; [|done].
  destruct (fire j a w q) as [[w' q']|] eqn:Hfire; [|done].
  injection Hmove as <-.
  destruct (fire_pbar _ _ _ _ _ _ Hfire) as (e & Hlog & Hpbar).
  cbn [fst snd]. rewrite Hlog, Hpbar, fmap_app, weigh_app. simpl. lia.
Qed.

Section Statistics.

Context (pil : Pil.t) (cfg : Config.t) (self : MediaDownloader).
Context (media_files : list Parser.MediaFile) (output_dir : string) (on_disk : filesystem).

(** X7.  The statistics a batch returns say what happened.  When
    [download_media_files] returns, under every schedule and whatever the
    servers and the disk answered: [completed] is the number of files written
    to their end, [total_bytes] the sum of their sizes, [retried] the number
    of pauses made between attempts, [converted] the number of runs of the
    transcoder, and the progress bar has advanced by the number of assets. *)
Theorem statistics_say_what_happened (w : world) (tasks : pool) :
  reachable pil cfg self media_files output_dir on_disk (w, tasks) →
  all_finished tasks = true →
  completed (stats w) = weigh is_stored (log w).*2
  ∧ total_bytes (stats w) = weigh stored_size (log w).*2
  ∧ retried (stats w) = weigh is_pause (log w).*2
  ∧ converted (stats w) = weigh is_conversion (log w).*2
  ∧ pbar w = Z.of_nat (length media_files)
  ∧ pbar w = total (stats w).
Proof.
  intros Hreach Hfin.
  destruct (reachable_indexed _ _ _ _ _ _ _ _ Hreach) as [Hlen Hidx].
  pose proof (λ c, reachable_tally pil cfg self media_files output_dir on_disk
                     (w, tasks) c Hreach) as Htally.
  cbn [fst] in Htally.
  assert (∀ i, (i < length media_files)%nat →
            tab_eq tab_zero (observe tab_next tab_zero (events_of i (log w)))) as Htab.
  { intros i Hi. destruct (lookup_lt_is_Some_2 media_files i Hi) as [media Hmedia].
    pose proof (reachable_watched tab_next (λ _, True) _ _ _ _ _ _ i media _ _ _ Hmedia
                  (tab_download_file pil cfg (max_retries self) media output_dir) Hreach)
      as Hw.
    rewrite <- Hlen in Hi. destruct (all_finished_lookup _ _ Hfin Hi) as [b Hb].
    exact (watched_returned _ _ _ _ _ _ _ _ Hw Hb). }
  assert (∀ f g : event → Z,
            (∀ i, (i < length media_files)%nat →
                  weigh f (events_of i (log w)) - weigh g (events_of i (log w)) = 0)%Z →
            weigh f (log w).*2 = weigh g (log w).*2) as Hsum.
  { intros f g Hfg.
    assert (weigh (λ e, f e - g e)%Z (log w).*2 = 0%Z) as Hzero.
    { rewrite (weigh_by_task _ (length media_files)) by done.
      rewrite (sum_over_ext _ _ (λ _, 0%Z)).
      - unfold sum_over. induction (seq 0 _); simpl; lia.
      - intros i Hi. rewrite weigh_sub. by apply Hfg. }
    rewrite weigh_sub in Hzero. lia. }
  assert (pbar w = weigh progress_made (log w).*2) as Hpbar.
  { pose proof (steps_pbar _ _ Hreach) as H. cbn in H. lia. }
  pose proof (reachable_accounted _ _ _ _ _ _ _ Hreach) as Hacc.
  destruct (accounted_finished _ _ _ Hacc Hfin) as [Hsettled _].
  destruct Hacc as (_ & _ & _ & _ & Htotal & _). cbn [fst] in Htotal.
  assert (pbar w = total (stats w)) as Hfull.
  { rewrite Hpbar, <- Hsettled. unfold settled.
    pose proof (Htally Completed) as Hc. pose proof (Htally Failed) as Hf.
    pose proof (Htally Skipped) as Hs. cbn [counter_value] in Hc, Hf, Hs.
    rewrite Hc, Hf, Hs, !tally_weigh, <- !weigh_add.
    apply Hsum. intros i Hi. specialize (Htab i Hi). rewrite tab_observed in Htab.
    destruct Htab as (_ & _ & _ & _ & Hp). cbn in Hp. rewrite !weigh_add. lia. }
  split_and!.
  - pose proof (Htally Completed) as Hc. cbn [counter_value] in Hc.
    rewrite Hc, tally_weigh. apply Hsum. intros i Hi. specialize (Htab i Hi).
    rewrite tab_observed in Htab. destruct Htab as (_ & H & _). cbn in H. lia.
  - pose proof (Htally TotalBytes) as Hc. cbn [counter_value] in Hc.
    rewrite Hc, tally_weigh. apply Hsum. intros i Hi. specialize (Htab i Hi).
    rewrite tab_observed in Htab. destruct Htab as (_ & _ & H & _). cbn in H. lia.
  - pose proof (Htally Retried) as Hc. cbn [counter_value] in Hc.
    rewrite Hc, tally_weigh. apply Hsum. intros i Hi. specialize (Htab i Hi).
    rewrite tab_observed in Htab. destruct Htab as (H & _). cbn in H. lia.
  - pose proof (Htally Converted) as Hc. cbn [counter_value] in Hc.
    rewrite Hc, tally_weigh. apply Hsum. intros i Hi. specialize (Htab i Hi).
    rewrite tab_observed in Htab. destruct Htab as (_ & _ & _ & H & _). cbn in H. lia.
  - rewrite Hfull. exact Htotal.
  - exact Hfull.
Qed.

End Statistics.

(** The sample batch against a server that answers every request with one
    byte: three files stored, of 3, 1 and 1 bytes, the first after a run of
    the transcoder. *)
Lemma statistics_say_what_happened_witness :
  ∃ result w,
    download_media_files Sample.pil_toy Config.default (Sample.downloader Config.default)
      (Sample.server 200 [Byte.x01]) Sample.batch "out" ∅ = Some (result, w)
    ∧ completed result = weigh is_stored (log w).*2
    ∧ total_bytes result = weigh stored_size (log w).*2
    ∧ converted result = weigh is_conversion (log w).*2
    ∧ pbar w = 3%Z.
Proof.
  destruct (download_media_files_total Sample.pil_toy Config.default
              (Sample.downloader Config.default) Sample.batch "out" ∅
              (Sample.server 200 [Byte.x01])) as (result & w & Hrun); [by compute|].
  destruct (download_media_files_returns _ _ _ _ _ _ _ _ _ Hrun)
    as (tasks & Hreach & Hfin & ->).
  exists (stats w), w. split; [exact Hrun|].
  destruct (statistics_say_what_happened _ _ _ _ _ _ w tasks Hreach Hfin)
    as (Hc & Hb & _ & Hv & Hp & _).
  split_and!; done.
Defined.

(** *** A task that returns [True] leaves its file on disk *)

Section Lands.

(** [found d]: the check the task makes finds its file on the disk [d]. *)
Context (found : filesystem → bool).

(** [lands post p]: on every path through [p] on which the file is not
    found on disk and no write of [p] has put it there, [p] returns a value
    that satisfies [post]. *)
Inductive lands {A} (post : A → Prop) : prog A → Prop :=
| lands_ret a : post a → lands post (Ret a)
| lands_read_fs k : (∀ d, found d = false → lands post (k d)) → lands post (ReadFs k)
| lands_incr c n k : lands post k → lands post (Incr c n k)
| lands_pbar n k : lands post k → lands post (PbarUpdate n k)
| lands_acquire k : lands post k → lands post (Acquire k)
| lands_release k : lands post k → lands post (Release k)
| lands_get u k : (∀ r, lands post (k r)) → lands post (HttpGet u k)
| lands_read k : (∀ r, lands post (k r)) → lands post (HttpRead k)
| lands_sleep secs k : lands post k → lands post (Sleep secs k)
| lands_offload k : lands post k → lands post (Offload k)
| lands_write path content k :
    (∀ d, found (<[path := content]> d) = true) →
    lands post (k false) →
    lands post (WriteFile path content k).

Lemma lands_bind {A B} (post : A → Prop) (post' : B → Prop) (p : prog A) (f : A → prog B) :
  lands post p → (∀ a, post a → lands post' (f a)) → lands post' (p ≫= f).
Proof.
  intros Hp Hf. rewrite mbind_eq. induction Hp; cbn [bind]; try (by constructor); auto.
Qed.

Lemma lands_then {A B} (post : A → Prop) (post' : B → Prop) (p : prog A) (q : prog B) :
  lands post p → (∀ a, post a → lands post' q) → lands post' (p ;; q).
Proof. apply lands_bind. Qed.

(** Task [i] has its file on disk, or will return [False]. *)
Definition landing (i : nat) (s : world * pool) : Prop :=
  ∃ p, s.2 !! i = Some p ∧ (found (disk s.1) = true ∨ lands (λ b : bool, b = false) p).

(** A file that is found stays found when the disk grows. *)
Definition found_for_good : Prop :=
  ∀ d d', dom d ⊆ dom d' → found d = true → found d' = true.

Lemma fire_lands (i : nat) (a : answer) (w w' : world) (p p' : prog bool) :
  found (disk w) = false →
  lands (λ b : bool, b = false) p →
  fire i a w p = Some (w', p') →
  found (disk w') = true ∨ lands (λ b : bool, b = false) p'.
Proof.
  intros Hnot Hp. destruct Hp; simpl; try done;
    try (intros [= <- <-]; right; by auto).
  - destruct (0 <? semaphore w)%Z; [|done]. intros [= <- <-]. by right.
  - destruct a; try done. intros [= <- <-]. by right.
  - destruct a; try done. intros [= <- <-]. by right.
  - destruct a as [| | |[| |partial]]; try done; intros [= <- <-];
      [left; simpl; by auto|by right|by right].
Qed.

Lemma landing_step (i : nat) (s s' : world * pool) :
  found_for_good → landing i s → step s s' → landing i s'.
Proof.
  destruct s as [w tasks]. intros found_mono (p & Hp & Hland) (j & a & Hmove).
  unfold move in Hmove. cbn [fst snd] in *.
  destruct (tasks !! j) as [q|] eqn:Hq; [|done].
  destruct (fire j a w q) as [[w' q']|] eqn:Hfire; [|done].
  injection Hmove as <-. unfold landing. cbn [fst snd].
  destruct (fire_log _ _ _ _ _ _ Hfire) as [_ Hdom].
  destruct (decide (j = i)) as [->|Hne].
  - rewrite Hp in Hq. injection Hq as <-. exists q'. split.
    + apply list_lookup_insert_eq. by eapply lookup_lt_Some.
    + destruct (found (disk w)) eqn:Hfound; [left; by eapply found_mono|].
      destruct Hland as [?|Hland]; [done|]. by eapply fire_lands.
  - exists p. split; [by rewrite list_lookup_insert_ne|].
    destruct Hland as [Hfound|Hland]; [left; by eapply found_mono|by right].
Qed.

Lemma landing_steps (i : nat) (s s' : world * pool) :
  found_for_good → landing i s → rtc step s s' → landing i s'.
Proof. intros Hmono Hs Hsteps. induction Hsteps; eauto using landing_step. Qed.

Lemma lands_attempt_once (u : string) :
  lands (λ _ : option (option Pil.bytes), True) (attempt_once u).
Proof.
  unfold attempt_once. obey. constructor. intros [e|status]; [by constructor|].
  destruct (status =? 200)%Z.
  - obey. constructor. intros [e|content]; by constructor.
  - destruct (status =? 404)%Z; by constructor.
Qed.

Lemma lands_retry_loop (max_retries : Z) (u : string) (attempts : list Z) :
  lands (λ _ : option Pil.bytes, True) (retry_loop max_retries u attempts).
Proof.
  induction attempts as [|attempt attempts IH]; cbn [retry_loop]; [by constructor|].
  eapply lands_bind; [apply lands_attempt_once|].
  intros [result|] _; [by constructor|].
  apply (lands_then (λ _ : unit, True)); [|by intros].
  destruct (attempt <? max_retries - 1)%Z; obey; repeat constructor.
Qed.

End Lands.

Lemma path_exists_insert (d : filesystem) (path : string) (content : Pil.bytes) :
  path_exists (<[path := content]> d) path = true.
Proof.
  unfold path_exists. apply bool_decide_eq_true. rewrite lookup_insert_eq. by eexists.
Qed.

Lemma lands_convert_and_store (pil : Pil.t) (cfg : Config.t) (media : Parser.MediaFile)
    (output_dir : string) (content : Pil.bytes) :
  lands (λ d, file_exists cfg d output_dir (Parser.filename media))
    (λ stored : bool, stored = false)
    (convert_and_store pil cfg media
       (OsPath.join output_dir (FileNames.stored_name cfg (Parser.filename media)))
       content).
Proof.
  unfold convert_and_store.
  eapply (lands_bind _ (λ _ : option Pil.bytes, True)).
  - destruct (should_convert cfg _); [|by constructor].
    obey. constructor. destruct (convert_image_to_jpg pil content _); obey;
      repeat constructor.
  - intros [jpg|] _; [|by constructor].
    obey. constructor; [|by constructor].
    intros d. apply FileNames.stored_name_exists, path_exists_insert.
Qed.

Lemma lands_download_file (pil : Pil.t) (cfg : Config.t) (max_retries : Z)
    (media : Parser.MediaFile) (output_dir : string) :
  lands (λ d, file_exists cfg d output_dir (Parser.filename media))
    (λ b : bool, b = false)
    (_download_file pil cfg max_retries media output_dir).
Proof.
  unfold _download_file. obey. constructor. intros d Hnot. rewrite Hnot.
  obey. constructor.
  eapply lands_bind; [apply lands_retry_loop|].
  intros [content|] _; [|obey; by repeat constructor].
  eapply lands_bind; [apply lands_convert_and_store|].
  intros stored ->. obey. by repeat constructor.
Qed.

(** The tasks run one after the other: the values they return. *)
Lemma download_media_files_results (pil : Pil.t) (cfg : Config.t) (self : MediaDownloader)
    (media_files : list Parser.MediaFile) (output_dir : string) (on_disk : filesystem)
    (o : oracle) (result : DownloadStats) (w : world) :
  download_media_files pil cfg self o media_files output_dir on_disk = Some (result, w) →
  ∃ bs,
    run_tasks o 0 (tasks_of pil cfg self media_files output_dir)
      (initial_world self media_files on_disk) = Some (w, bs)
    ∧ reachable pil cfg self media_files output_dir on_disk (w, Ret <$> bs)
    ∧ result = stats w.
Proof.
  unfold download_media_files. destruct (max_concurrent self <? 0)%Z; [done|].
  destruct (run_tasks o 0 _ _) as [[w' bs]|] eqn:Hrun; [|done]. intros [= <- <-].
  exists bs. split_and!; [done| |done].
  apply (run_tasks_steps o _ [] _ _ _ Hrun).
Qed.

Section Resume.

Context (pil : Pil.t) (cfg : Config.t) (self : MediaDownloader).
Context (media_files : list Parser.MediaFile) (output_dir : string) (on_disk : filesystem).

(** X8.  A task that returns [True] leaves its asset on disk, so a batch
    can be taken up again.  In every state of a batch, under every schedule,
    if the task of an asset has returned [True], the existence check finds
    the file of the asset on the disk of that state, under its own name or its
    JPG name.  A later batch that starts from this disk, with the same
    settings and output directory, therefore skips the asset wherever it
    stands in its list: its task makes no request and counts one skipped
    asset. *)
Theorem returned_true_is_on_disk (w : world) (tasks : pool) (i : nat)
    (media : Parser.MediaFile) :
  reachable pil cfg self media_files output_dir on_disk (w, tasks) →
  media_files !! i = Some media →
  tasks !! i = Some (Ret true) →
  file_exists cfg (disk w) output_dir (Parser.filename media) = true
  ∧ ∀ self' media_files' j w' tasks',
      media_files' !! j = Some media →
      reachable pil cfg self' media_files' output_dir (disk w) (w', tasks') →
      (∀ u r, Requested u r ∉ events_of j (log w'))
      ∧ (∀ c n, Counted c n ∈ events_of j (log w') → c = Skipped ∧ n = 1%Z)
      ∧ (all_finished tasks' = true → tasks' !! j = Some (Ret true)).
Proof.
  intros Hreach Hmedia Hret.
  assert (file_exists cfg (disk w) output_dir (Parser.filename media) = true) as Hthere.
  { assert (landing (λ d, file_exists cfg d output_dir (Parser.filename media)) i (w, tasks))
      as (p & Hp & Hland).
    { eapply landing_steps; [intros d d'; apply file_exists_mono| |exact Hreach].
      eexists. cbn [fst snd]. split.
      - unfold tasks_of. by rewrite list_lookup_fmap, Hmedia.
      - right. apply lands_download_file. }
    cbn [fst snd] in *. rewrite Hret in Hp. injection Hp as <-.
    destruct Hland as [?|Hland]; [done|]. by inversion Hland. }
  split; [exact Hthere|].
  intros self' media_files' j w' tasks' Hj Hreach'.
  destruct (present_asset_skipped pil cfg self' media_files' output_dir (disk w) j media
              w' tasks' Hj Hthere Hreach') as (Hno & Hcount & Hdone & _).
  split_and!; [done|done|]. intros Hfin. by apply Hdone.
Qed.

End Resume.

(** The sample batch run twice against a server that answers every
    request with one byte: the first run stores the first asset, the second
    finds it. *)
Lemma returned_true_is_on_disk_witness :
  ∃ result w result' w',
    download_media_files Sample.pil_toy Config.default (Sample.downloader Config.default)
      (Sample.server 200 [Byte.x01]) Sample.batch "out" ∅ = Some (result, w)
    ∧ file_exists Config.default (disk w) "out" "0123abcd.png" = true
    ∧ download_media_files Sample.pil_toy Config.default (Sample.downloader Config.default)
        (Sample.server 200 [Byte.x01]) Sample.batch "out" (disk w) = Some (result', w')
    ∧ ∀ u r, Requested u r ∉ events_of 0 (log w').
Proof.
  destruct (download_media_files_total Sample.pil_toy Config.default
              (Sample.downloader Config.default) Sample.batch "out" ∅
              (Sample.server 200 [Byte.x01])) as (result & w & Hrun); [by compute|].
  destruct (download_media_files_results _ _ _ _ _ _ _ _ _ Hrun)
    as (bs & Hbs & Hreach & ->).
  destruct (download_media_files_total Sample.pil_toy Config.default
              (Sample.downloader Config.default) Sample.batch "out" (disk w)
              (Sample.server 200 [Byte.x01])) as (result' & w' & Hrun'); [by compute|].
  destruct (download_media_files_returns _ _ _ _ _ _ _ _ _ Hrun')
    as (tasks' & Hreach' & Hfin' & ->).
  exists (stats w), w, (stats w'), w'.
  assert (bs = [true; true; true]) as ->.
  { apply (f_equal (fmap snd)) in Hbs. vm_compute in Hbs. by injection Hbs as <-. }
  destruct (returned_true_is_on_disk Sample.pil_toy Config.default
              (Sample.downloader Config.default) Sample.batch "out" ∅ w _ 0 _
              Hreach eq_refl eq_refl) as [Hthere Hnext].
  split; [exact Hrun|]. split; [exact Hthere|]. split; [exact Hrun'|].
  exact (proj1 (Hnext _ Sample.batch 0%nat w' tasks' eq_refl Hreach')).
Defined.

End Tasks.

(** ** The folder of a thread *)

Module Folders.

Import StrFacts FolderName.

(** *** The last byte *)

Fixpoint last_char (s : string) : option ascii :=
  match s with
  | EmptyString => None
  | String c s' =>
      match last_char s' with
      | Some d => Some d
      | None => Some c
      end
  end.

Lemma last_char_app (s t : string) :
  t ≠ "" → last_char (s +:+ t) = last_char t.
Proof.
  intros Ht. induction s as [|d s IH]; norm_app; [done|]. cbn [last_char]. rewrite IH.
  destruct t as [|c t]; [done|]. cbn [last_char]. by destruct (last_char t).
Qed.

(** *** Names the sanitization keeps *)

(** A byte that is neither one of the illegal characters, nor a space, nor
    a dot. *)
Definition kept_byte (c : ascii) : bool :=
  negb (Py.char_in c Main.illegal_chars) && negb (Py.char_in c " .").

Fixpoint all_kept (s : string) : bool :=
  match s with
  | EmptyString => true
  | String c s' => kept_byte c && all_kept s'
  end.

(** No byte of [s] is an illegal character. *)
Fixpoint all_legal (s : string) : bool :=
  match s with
  | EmptyString => true
  | String c s' => negb (Py.char_in c Main.illegal_chars) && all_legal s'
  end.

(** Every byte after the first is a continuation byte. *)
Fixpoint all_continuation (s : string) : bool :=
  match s with
  | EmptyString => true
  | String c s' => Py.is_continuation c && all_continuation s'
  end.

Lemma digit_is_kept (c : ascii) : Py.is_digit c = true → kept_byte c = true.
Proof. destruct c as [[] [] [] [] [] [] [] []]; by vm_compute. Qed.

Lemma high_byte_is_kept (c : ascii) : (128 <=? nat_of_ascii c)%nat = true → kept_byte c = true.
Proof. destruct c as [[] [] [] [] [] [] [] []]; by vm_compute. Qed.

Lemma continuation_is_kept (s : string) : all_continuation s = true → all_kept s = true.
Proof.
  induction s as [|c s IH]; [done|]. cbn [all_continuation all_kept].
  intros [Hc Hs]%andb_true_iff. rewrite (IH Hs), andb_true_r.
  apply high_byte_is_kept. unfold Py.is_continuation in Hc.
  by apply andb_true_iff in Hc as [? _].
Qed.

(** One character is a byte and continuation bytes. *)
Lemma chars_single_inv (g : string) :
  Py.chars g = [g] → ∃ c t, g = String c t ∧ all_continuation t = true.
Proof.
  induction g as [|c g IH]; [done|]. cbn [Py.chars]. intros Hg.
  exists c, g. split; [done|].
  destruct (Py.starts_inside g) eqn:Hin.
  - destruct (Py.chars g) as [|g' gs] eqn:Hchars.
    + apply chars_nil in Hchars as ->. done.
    + injection Hg as -> ->. destruct (IH eq_refl) as (d & t & -> & Ht).
      cbn [all_continuation]. cbn [Py.starts_inside] in Hin. by rewrite Hin, Ht.
  - by injection Hg as <-.
Qed.

(** Every character of a string is one character. *)
Lemma chars_groups (s : string) : Forall (λ g, Py.chars g = [g]) (Py.chars s).
Proof.
  remember (Py.chars s) as gs eqn:Hgs. symmetry in Hgs. revert s Hgs.
  induction gs as [|g gs IH]; intros s Hgs; [done|].
  apply chars_cons_inv in Hgs as (_ & Hg & _ & Hrest).
  constructor; [done|]. by apply (IH (Py.join gs)).
Qed.

Lemma all_kept_app (s t : string) : all_kept (s +:+ t) = all_kept s && all_kept t.
Proof.
  induction s as [|c s IH]; norm_app; [done|]. cbn [all_kept]. rewrite IH.
  by rewrite andb_assoc.
Qed.

Lemma all_legal_app (s t : string) : all_legal (s +:+ t) = all_legal s && all_legal t.
Proof.
  induction s as [|c s IH]; norm_app; [done|]. cbn [all_legal]. rewrite IH.
  by rewrite andb_assoc.
Qed.

Lemma all_kept_legal (s : string) : all_kept s = true → all_legal s = true.
Proof.
  induction s as [|c s IH]; [done|]. cbn [all_kept all_legal]. unfold kept_byte.
  intros [[-> _]%andb_true_iff Hs]%andb_true_iff. by rewrite IH.
Qed.

Lemma all_kept_last (s : string) (c : ascii) :
  all_kept s = true → last_char s = Some c → Py.char_in c " ." = false.
Proof.
  induction s as [|d s IH]; [done|]. cbn [all_kept last_char].
  intros [Hd Hs]%andb_true_iff. destruct (last_char s) as [e|].
  - intros [= <-]. by apply IH.
  - intros [= <-]. unfold kept_byte in Hd.
    apply andb_true_iff in Hd as [_ Hd]. by apply negb_true_iff in Hd.
Qed.

Section WithTables.

Context (uni : Uni.t).

(** The bytes of a decimal digit are kept. *)
Lemma decimal_is_kept (g : string) :
  Py.chars g = [g] → Py.is_decimal uni g = true → all_kept g = true.
Proof.
  intros (c & t & -> & Ht)%chars_single_inv. unfold Py.is_decimal, Py.char_decimal.
  destruct t as [|d t].
  - intros H. cbn [all_kept]. rewrite andb_true_r. apply digit_is_kept.
    unfold Py.is_digit. by destruct (Ascii.is_nat c).
  - destruct (192 <=? nat_of_ascii c)%nat eqn:Hc; [|done]. intros _.
    cbn [all_kept]. apply andb_true_iff. split.
    + apply high_byte_is_kept. apply Nat.leb_le in Hc. apply Nat.leb_le. lia.
    + by apply (continuation_is_kept (String d t)).
Qed.

Lemma decimals_are_kept (gs : list string) :
  Forall (λ g, Py.chars g = [g]) gs →
  forallb (Py.is_decimal uni) gs = true →
  all_kept (Py.join gs) = true.
Proof.
  induction 1 as [|g gs Hg _ IH]; [done|]. cbn [forallb].
  intros [Hd Hds]%andb_true_iff.
  change (Py.join (g :: gs)) with (g +:+ Py.join gs).
  by rewrite all_kept_app, (decimal_is_kept g Hg Hd), IH.
Qed.

(** A text of decimal digits: its bytes are kept, and it starts with a
    character. *)
Lemma decimal_digits_kept (ds : string) :
  PageCount.decimal_digits uni ds →
  all_kept ds = true ∧ Py.starts_inside ds = false.
Proof.
  intros [Hne Hds]. split.
  - rewrite <- (join_chars ds). apply decimals_are_kept; [apply chars_groups|done].
  - destruct (Py.chars ds) as [|g gs] eqn:Hchars.
    + by apply chars_nil in Hchars.
    + cbn [forallb] in Hds. apply andb_true_iff in Hds as [Hg _].
      apply chars_cons_inv in Hchars as (-> & _).
      by apply (is_decimal_starts uni).
Qed.

Lemma two_digits_kept (s : string) :
  two_digits uni s →
  all_kept s = true ∧ ∃ c t, s = String c t ∧ kept_byte c = true.
Proof.
  intros (a & b & -> & [Ca Da] & [Cb Db]).
  pose proof (decimal_is_kept a Ca Da) as Ha. pose proof (decimal_is_kept b Cb Db) as Hb.
  split; [by rewrite all_kept_app, Ha, Hb|].
  destruct a as [|c a]; [done|]. exists c, (a +:+ b). split; [done|].
  cbn [all_kept] in Ha. by apply andb_true_iff in Ha as [? _].
Qed.

(** The id read off an address is empty or a text of decimal digits. *)
Lemma match_thread_here_digits (s ds : string) :
  Parser.match_thread_here uni s = Some ds → PageCount.decimal_digits uni ds.
Proof.
  unfold Parser.match_thread_here.
  destruct (Py.strip_prefix "/thread/" s) as [rest|]; [|done].
  destruct (PageCount.span_digits_spec uni rest) as (_ & Hdigits).
  destruct (Py.span_digits uni rest) as [ds' rest']. cbn [fst] in Hdigits.
  destruct (String.eqb_spec ds' ""); [done|]. intros [= <-]. by apply Hdigits.
Qed.

End WithTables.

Lemma replace_illegal_legal_name (s : string) :
  all_legal s = true → Main.replace_illegal s = s.
Proof.
  induction s as [|c s IH]; [done|]. cbn [all_legal Main.replace_illegal].
  intros [Hc Hs]%andb_true_iff. apply negb_true_iff in Hc. by rewrite Hc, IH.
Qed.

Lemma rstrip_kept (chars s : string) :
  (∀ c, last_char s = Some c → Py.char_in c chars = false) → Py.rstrip chars s = s.
Proof.
  induction s as [|c s IH]; [done|]. cbn [last_char Py.rstrip]. intros Hlast.
  rewrite IH.
  - destruct s as [|d s]; [|done]. cbn [last_char] in Hlast. by rewrite (Hlast c eq_refl).
  - intros d Hd. apply Hlast. by rewrite Hd.
Qed.

Lemma strip_kept (chars s : string) (c : ascii) (t : string) :
  s = String c t → Py.char_in c chars = false →
  (∀ d, last_char s = Some d → Py.char_in d chars = false) →
  Py.strip chars s = s.
Proof.
  intros -> Hc Hlast. unfold Py.strip. cbn [Py.lstrip]. rewrite Hc. by apply rstrip_kept.
Qed.

(** A name that starts with a legal character other than a space or a dot,
    holds only legal characters and does not end with a space or a dot goes
    through the sanitization unchanged, up to its first 200 characters. *)
Lemma sanitize_kept (c : ascii) (t : string) :
  Py.char_in c " ." = false →
  all_legal (String c t) = true →
  (∀ d, last_char (String c t) = Some d → Py.char_in d " ." = false) →
  Main.sanitize_folder_name (String c t) = Py.take_chars 200 (String c t).
Proof.
  intros Hc Hlegal Hlast. unfold Main.sanitize_folder_name.
  rewrite (replace_illegal_legal_name _ Hlegal).
  by rewrite (strip_kept " ." (String c t) c t eq_refl Hc Hlast).
Qed.

Section WithInstance.

Context (lib : Ext.t).

Lemma thread_id_digits (u : string) :
  Parser._extract_thread_id lib u = ""
  ∨ PageCount.decimal_digits (Ext.unicode lib) (Parser._extract_thread_id lib u).
Proof.
  unfold Parser._extract_thread_id.
  destruct (Parser.re_search _ u) as [ds|] eqn:Hsearch; [right|by left].
  apply re_search_Some in Hsearch as (pre & suf & _ & Hhere & _).
  by apply match_thread_here_digits in Hhere.
Qed.

(** The two shapes of a folder name: a date and the thread id, or the word
    thread and the id. *)
Lemma get_folder_name_shape (date id : string) :
  (∃ dd mm yy,
     two_digits (Ext.unicode lib) dd ∧ two_digits (Ext.unicode lib) mm
     ∧ two_digits (Ext.unicode lib) yy
     ∧ Parser.get_folder_name lib date id
       = dd +:+ "." +:+ mm +:+ "." +:+ yy +:+ "_" +:+ id)
  ∨ Parser.get_folder_name lib date id = "thread_" +:+ id.
Proof.
  unfold Parser.get_folder_name, Parser._parse_post_time_to_folder.
  destruct (Parser.re_search _ date) as [[[dd mm] yy]|] eqn:Hsearch; [left|by right].
  apply re_search_Some in Hsearch as (pre & suf & _ & Hhere & _).
  apply match_date_here_spec in Hhere as (post & ? & ? & ? & _).
  by exists dd, mm, yy.
Qed.

(** An id the sanitization keeps: empty, or bytes that are kept and the
    first of which starts a character. *)
Definition plain_id (id : string) : Prop :=
  all_kept id = true ∧ Py.starts_inside id = false.

Lemma thread_id_plain (u : string) : plain_id (Parser._extract_thread_id lib u).
Proof.
  destruct (thread_id_digits u) as [->|H]; [done|].
  by apply (decimal_digits_kept (Ext.unicode lib)).
Qed.

Lemma folder_name_kept (date id : string) :
  plain_id id →
  Main.sanitize_folder_name (Parser.get_folder_name lib date id)
  = Py.take_chars 200 (Parser.get_folder_name lib date id).
Proof.
  intros [Hid _].
  assert (∀ d, last_char ("_" +:+ id) = Some d → Py.char_in d " ." = false) as Hlast.
  { intros d. apply all_kept_last. by rewrite all_kept_app, Hid. }
  destruct (get_folder_name_shape date id) as [(dd & mm & yy & Hd & Hm & Hy & ->)| ->].
  - destruct (two_digits_kept _ dd Hd) as (Kd & c & t & -> & Hc).
    destruct (two_digits_kept _ mm Hm) as (Km & _).
    destruct (two_digits_kept _ yy Hy) as (Ky & _).
    rewrite (sapp_cons c t). apply sanitize_kept.
    + unfold kept_byte in Hc. apply andb_true_iff in Hc as [_ Hc].
      by apply negb_true_iff in Hc.
    + change (String c (t +:+ "." +:+ mm +:+ "." +:+ yy +:+ "_" +:+ id))
        with (String c t +:+ "." +:+ mm +:+ "." +:+ yy +:+ "_" +:+ id).
      rewrite !all_legal_app.
      by rewrite (all_kept_legal _ Kd), (all_kept_legal _ Km), (all_kept_legal _ Ky),
        (all_kept_legal _ Hid).
    + intros x.
      change (String c (t +:+ "." +:+ mm +:+ "." +:+ yy +:+ "_" +:+ id))
        with (String c t +:+ "." +:+ mm +:+ "." +:+ yy +:+ "_" +:+ id).
      rewrite last_char_app by done.
      rewrite last_char_app by (by destruct mm).
      rewrite last_char_app by done.
      rewrite last_char_app by (by destruct yy).
      rewrite last_char_app by done. apply Hlast.
  - change ("thread_" +:+ id) with (String "t" ("hread" +:+ "_" +:+ id)).
    apply sanitize_kept.
    + done.
    + change (String "t" ("hread" +:+ "_" +:+ id)) with ("thread_" +:+ id).
      by rewrite all_legal_app, (all_kept_legal _ Hid).
    + intros x.
      change (String "t" ("hread" +:+ "_" +:+ id)) with ("thread" +:+ "_" +:+ id).
      rewrite last_char_app by done. apply Hlast.
Qed.

Lemma two_digits_chars (s rest : string) :
  two_digits (Ext.unicode lib) s → Py.starts_inside rest = false →
  ∃ a b, Py.chars (s +:+ rest) = a :: b :: Py.chars rest.
Proof.
  intros (a & b & -> & [Ca Da] & [Cb Db]) Hrest. exists a, b.
  rewrite sapp_assoc, chars_cons; [|done|by apply (is_decimal_starts (Ext.unicode lib))].
  by rewrite chars_cons.
Qed.

Lemma folder_name_length (date id : string) :
  plain_id id →
  (Py.len (Parser.get_folder_name lib date id) ≤ 9 + Py.len id)%nat.
Proof.
  intros [_ Hid]. unfold Py.len.
  destruct (get_folder_name_shape date id) as [(dd & mm & yy & Hd & Hm & Hy & ->)| ->].
  - assert (Py.chars ("_" +:+ id) = "_" :: Py.chars id) as Hrest by by rewrite chars_cons.
    destruct (two_digits_chars yy ("_" +:+ id) Hy eq_refl) as (y1 & y2 & Hyy).
    assert (Py.chars ("." +:+ yy +:+ "_" +:+ id) = "." :: Py.chars (yy +:+ "_" +:+ id))
      as Hdot2.
    { rewrite chars_cons; [done..|].
      destruct Hy as (a & b & -> & [_ Da] & _). rewrite sapp_assoc.
      by apply (is_decimal_starts (Ext.unicode lib)). }
    destruct (two_digits_chars mm ("." +:+ yy +:+ "_" +:+ id) Hm eq_refl) as (m1 & m2 & Hmm).
    assert (Py.chars ("." +:+ mm +:+ "." +:+ yy +:+ "_" +:+ id)
            = "." :: Py.chars (mm +:+ "." +:+ yy +:+ "_" +:+ id)) as Hdot1.
    { rewrite chars_cons; [done..|].
      destruct Hm as (a & b & -> & [_ Da] & _). rewrite sapp_assoc.
      by apply (is_decimal_starts (Ext.unicode lib)). }
    destruct (two_digits_chars dd ("." +:+ mm +:+ "." +:+ yy +:+ "_" +:+ id) Hd eq_refl)
      as (d1 & d2 & Hdd).
    rewrite Hdd, Hdot1, Hmm, Hdot2, Hyy, Hrest. simpl. lia.
  - rewrite chars_app by done. rewrite length_app. simpl. lia.
Qed.

(** X9.  The folder name the parser makes for a thread goes through
    [sanitize_folder_name] unchanged.  The id [_extract_thread_id] reads off
    an address is made of decimal digits only (it is empty when the address
    has no thread path).  For such an id, whatever the date text is, the
    folder name has no illegal character and no space or dot at either end,
    so that the sanitization returns its first 200 characters, and the name
    itself when the id has at most 191 digits. *)
Theorem parser_folder_names_are_kept (date u : string) :
  (Parser._extract_thread_id lib u = ""
   ∨ PageCount.decimal_digits (Ext.unicode lib) (Parser._extract_thread_id lib u))
  ∧ Main.sanitize_folder_name
      (Parser.get_folder_name lib date (Parser._extract_thread_id lib u))
    = Py.take_chars 200 (Parser.get_folder_name lib date (Parser._extract_thread_id lib u))
  ∧ ((Py.len (Parser._extract_thread_id lib u) ≤ 191)%nat →
     Main.sanitize_folder_name
       (Parser.get_folder_name lib date (Parser._extract_thread_id lib u))
     = Parser.get_folder_name lib date (Parser._extract_thread_id lib u)).
Proof.
  pose proof (thread_id_plain u) as Hid. split; [apply thread_id_digits|].
  split; [by apply folder_name_kept|].
  intros Hlen. rewrite (folder_name_kept _ _ Hid). apply take_chars_all.
  pose proof (folder_name_length date _ Hid). lia.
Qed.

End WithInstance.

(** The thread of the specification's example, and a thread whose date and
    id are written in Arabic-Indic digits. *)
Lemma parser_folder_names_are_kept_witness :
  (Py.len (Parser._extract_thread_id Sample.lib "https://arhivach.vc/thread/1122323/")
   ≤ 191)%nat
  ∧ Main.sanitize_folder_name
      (Parser.get_folder_name Sample.lib "20/01/25 Пнд 16:33:14"
         (Parser._extract_thread_id Sample.lib "https://arhivach.vc/thread/1122323/"))
    = "20.01.25_1122323"
  ∧ (Py.len (Parser._extract_thread_id Sample.lib "/thread/٤٢/") ≤ 191)%nat
  ∧ Main.sanitize_folder_name
      (Parser.get_folder_name Sample.lib "٢٠/٠١/٢٥"
         (Parser._extract_thread_id Sample.lib "/thread/٤٢/"))
    = "٢٠.٠١.٢٥_٤٢".
Proof.
  destruct (parser_folder_names_are_kept Sample.lib "20/01/25 Пнд 16:33:14"
              "https://arhivach.vc/thread/1122323/") as (_ & _ & Hkept).
  destruct (parser_folder_names_are_kept Sample.lib "٢٠/٠١/٢٥" "/thread/٤٢/")
    as (_ & _ & Harabic).
  assert (Py.len (Parser._extract_thread_id Sample.lib "https://arhivach.vc/thread/1122323/")
          ≤ 191)%nat as Hlen by (vm_compute; lia).
  assert (Py.len (Parser._extract_thread_id Sample.lib "/thread/٤٢/") ≤ 191)%nat
    as Hlen' by (vm_compute; lia).
  split; [exact Hlen|]. split; [rewrite (Hkept Hlen); reflexivity|].
  split; [exact Hlen'|]. rewrite (Harabic Hlen'). reflexivity.
Defined.

(** *** The folder as a path component *)

Lemma take_chars_cons (n : nat) (c : ascii) (s : string) :
  ∃ t, Py.take_chars (S n) (String c s) = String c t.
Proof.
  unfold Py.take_chars. cbn [Py.chars].
  destruct (Py.starts_inside s); [destruct (Py.chars s)|]; by eexists.
Qed.

(** X10.  The name [sanitize_folder_name] returns is one proper path
    component, whatever it is given: it is not empty, it is neither [.] nor
    [..], it starts with a character that is neither a space nor a dot, and it
    contains no slash.  Joined to a directory it therefore names an entry of
    that directory. *)
Theorem folder_is_one_component (name : string) :
  Main.sanitize_folder_name name ≠ ""
  ∧ Main.sanitize_folder_name name ≠ "."
  ∧ Main.sanitize_folder_name name ≠ ".."
  ∧ (∃ c t, Main.sanitize_folder_name name = String c t ∧ Py.char_in c " ." = false)
  ∧ Py.char_in "/" (Main.sanitize_folder_name name) = false
  ∧ (∀ dir, dir ≠ "" → Py.endswith dir "/" = false →
       OsPath.join dir (Main.sanitize_folder_name name)
       = dir +:+ "/" +:+ Main.sanitize_folder_name name).
Proof.
  assert (∃ c t, Main.sanitize_folder_name name = String c t ∧ Py.char_in c " ." = false)
    as (c & t & Hname & Hc).
  { destruct (sanitize_steps name) as (l & stripped & r & _ & _ & _ & Hlead & _ & ->).
    destruct stripped as [|c t]; [by exists "t"%char, "hread"|].
    cbn [String.eqb]. destruct (take_chars_cons 199 c t) as [t' ->].
    exists c, t'. split; [done|]. by eapply Hlead. }
  assert (Py.char_in "/" (Main.sanitize_folder_name name) = false) as Hslash.
  { destruct (Py.char_in "/" (Main.sanitize_folder_name name)) eqn:Hin; [|done].
    by apply sanitize_legal in Hin. }
  split_and!.
  - by rewrite Hname.
  - rewrite Hname. intros [= -> _]. done.
  - rewrite Hname. intros [= -> _]. done.
  - by exists c, t.
  - done.
  - intros dir Hdir Hend. by apply FileNames.join_plain.
Qed.

End Folders.

(** ** What the parser hands on *)

Module Handed.

Import StrFacts.

Lemma omap_length_le {A B} (f : A → option B) (l : list A) :
  (length (omap f l) ≤ length l)%nat.
Proof. induction l as [|x l IH]; [done|]. cbn [omap list_omap length]. destruct (f x); simpl in *; lia. Qed.

(** *** The rows of a listing page *)

Section WithInstance.

Context (lib : Ext.t) (domain : string).

(** The row gives the thread. *)
Definition row_gives (r : Dom.row) (t : Parser.ThreadInfo) : Prop :=
  Dom.row_has_th r = false
  ∧ (2 ≤ length (Dom.row_cells r))%nat
  ∧ ∃ link href,
      link ∈ Dom.row_links r
      ∧ Dom.get_opt "href" link = Some href
      ∧ is_Some (Parser.re_search (Parser.match_thread_here (Ext.unicode lib)) href)
      ∧ Parser.ti_url t = Parser._normalize_url lib domain href
      ∧ Parser.ti_title t = Py.take_chars 100 (Dom.text link)
      ∧ last (Dom.row_cells r) = Some (Parser.ti_date t)
      ∧ Parser.ti_thread_id t = Parser._extract_thread_id lib (Parser.ti_url t)
      ∧ Parser.ti_posts_count t = 0%Z.

Lemma thread_of_row_gives (r : Dom.row) (t : Parser.ThreadInfo) :
  Parser.thread_of_row lib domain r = Some t → row_gives r t.
Proof.
  unfold Parser.thread_of_row, row_gives.
  destruct (Dom.row_has_th r); [done|].
  destruct (Nat.leb_spec 2 (length (Dom.row_cells r))) as [Hcells|]; [|done].
  destruct (find _ (Dom.row_links r)) as [link|] eqn:Hfind; [|done].
  intros [= <-]. cbn. split; [done|]. split; [done|].
  apply find_some in Hfind as [Hin Hmatch]. apply list_elem_of_In in Hin.
  unfold Dom.get, Dom.get_opt in *.
  destruct (Dom.attrs link !! "href") as [href|] eqn:Hhref; [|done].
  apply bool_decide_eq_true in Hmatch.
  exists link, href. split_and!; try done.
  destruct (Dom.row_cells r) as [|cell cells] using rev_ind; [simpl in Hcells; lia|].
  by rewrite last_snoc.
Qed.


(** *** A page that cannot be fetched *)

(** X12.  A listing page that cannot be fetched ends the walk without an
    error.  When the request fails, [get_threads_from_tag_page] returns
    normally, with no thread and a page count of 0, having made this one
    request.  When it is the first page that fails,
    [get_all_threads_from_tag] returns the empty list after the one request,
    without a pause, whatever [max_pages] is. *)
Theorem failed_page_ends_the_walk (w : Parser.web) (tag_id : Z) (log : list Parser.event) :
  (∀ offset,
     w (length log) (Parser.tag_page_url domain tag_id offset) = None →
     Parser.get_threads_from_tag_page lib domain w tag_id offset log
     = (Some ([], 0%Z), log ++ [Parser.Fetch (Parser.tag_page_url domain tag_id offset)]))
  ∧ (∀ max_pages,
       w (length log) (Parser.tag_page_url domain tag_id 0) = None →
       Parser.get_all_threads_from_tag lib domain w tag_id max_pages log
       = (Some [], log ++ [Parser.Fetch (Parser.tag_page_url domain tag_id 0)])).
Proof.
  assert (∀ offset,
     w (length log) (Parser.tag_page_url domain tag_id offset) = None →
     Parser.get_threads_from_tag_page lib domain w tag_id offset log
     = (Some ([], 0%Z), log ++ [Parser.Fetch (Parser.tag_page_url domain tag_id offset)]))
    as Hpage.
  { intros offset Hfail. rewrite TagWalk.get_threads_from_tag_page_eq. by rewrite Hfail. }
  split; [exact Hpage|].
  intros max_pages Hfail. unfold Parser.get_all_threads_from_tag.
  rewrite (Hpage 0%Z Hfail).
  rewrite TagWalk.range_nil; [done|].
  destruct (Parser.truthy max_pages); lia.
Qed.

End WithInstance.

(** A site that answers no request. *)
Lemma failed_page_ends_the_walk_witness :
  Parser.get_all_threads_from_tag Sample.lib Sample.domain (λ _ _, None) 7 (Some 3%Z) []
  = (Some [], [Parser.Fetch "https://arhivach.vc/?tags=7"]).
Proof.
  destruct (failed_page_ends_the_walk Sample.lib Sample.domain (λ _ _, None) 7 []) as [_ H].
  rewrite (H (Some 3%Z) eq_refl). reflexivity.
Defined.

End Handed.
